(** * A shallow embedding of the sequence-language interpreter

    The development follows the C sources: [value.h]/[value.c] (sequences and
    the variable environment), [parse.c] (tokenizer and recursive-descent
    parser), [syntax.c] (the evaluator, one [eval]/[execute] routine per kind
    of node) and [interpret.c] (the driver).

    Modelling conventions.
    - [int] is a 32-bit two's complement integer, kept as a [Z] that is
      wrapped after each addition, subtraction and multiplication
      ([wrap32]), as the compiled program does.  Two [int] operations do
      not wrap: the program does not survive them ([Overflow]).
    - [char] is signed, as with gcc on x86-64; bytes of the input are [ascii].
    - The [FILE*] is the text that is still to be read; [ungetc] puts a
      character in front of it (as glibc does, any number of times).
    - The C heap holds the [Sequence] blocks in allocation order; a freed
      block stays in the list as [None], so that a later access is visible.
    - Loops over the input and the [while] statement take a [fuel] argument. *)

From Stdlib Require Import ZArith NArith Ascii String DecimalString DecimalPos Lia.
From stdpp Require Import base list strings.

Set Warnings "-register-all".
Local Open Scope Z_scope.

(** ** Constants of [value.h], [parse.h] and [parse.c] *)

Definition INIT_CAP : Z := 5.
Definition DOUBLE_CAP : Z := 2.
Definition MAX_VAR_NAME : nat := 20.
Definition MAX_TOKEN : nat := 1023.
Definition SINGLE_QUOTE_LENGTH : nat := 1.
Definition EXIT_SUCCESS : Z := 0.
Definition EXIT_FAILURE : Z := 1.

(** The range of [int]. *)
Definition INT_MAX : Z := 2 ^ 31 - 1.
Definition INT_MIN : Z := - 2 ^ 31.

(** ** Characters *)

Definition chr (n : nat) : ascii := ascii_of_nat n.
Definition NL : ascii := chr 10.
Definition TAB : ascii := chr 9.
Definition DQUOTE : ascii := chr 34.
Definition SQUOTE : ascii := "'"%char.
Definition BACKSLASH : ascii := "\"%char.

Definition code (c : ascii) : N := N_of_ascii c.

Definition between (lo hi : N) (c : ascii) : bool :=
  (N.leb lo (code c) && N.leb (code c) hi)%bool.

(** The <ctype.h> classes in the "C" locale. *)
Definition isdigit (c : ascii) : bool := between 48 57 c.
Definition isalpha (c : ascii) : bool := (between 65 90 c || between 97 122 c)%bool.
Definition isalnum (c : ascii) : bool := (isalpha c || isdigit c)%bool.
Definition isspace (c : ascii) : bool := (Ascii.eqb c " " || between 9 13 c)%bool.

(** Conversion of a (signed) [char] to [int]. *)
Definition char_to_int (c : ascii) : Z :=
  if N.ltb (code c) 128 then Z.of_N (code c) else Z.of_N (code c) - 256.

(** [strcmp( a, b ) == 0]; a C string ends at its first NUL. *)
Fixpoint c_str (s : string) : string :=
  match s with
  | EmptyString => EmptyString
  | String c r => if Ascii.eqb c zero then EmptyString else String c (c_str r)
  end.

Definition streq (a b : string) : bool := String.eqb (c_str a) (c_str b).

Definition strlen (s : string) : nat := String.length (c_str s).

(** ** Outcomes *)

(** Every way in which the program stops early.  The first group is written
    by [parse.c], the second by [syntax.c]; [AssertFailed] is the [assert] of
    [releaseSequence]; [Undefined] stands for an access that C leaves
    undefined (a freed block, an array overrun); [Overflow] is one of the two
    [int] operations that the process does not survive: the division of
    [INT_MIN] by -1, which traps, and the doubling of a capacity beyond
    [INT_MAX], after which the [realloc] fails and the next store faults. *)
Inductive Failure : Type :=
| SyntaxError (line : nat)
| TokenTooLong (line : nat)
| InvalidStringLiteral (line : nat)
| InvalidEscape (line : nat) (c : ascii)
| InvalidSingleQuoted (line : nat)
| TypeMismatch
| DivideByZero
| IndexOutOfBounds
| AssertFailed
| Undefined
| Overflow.

(** Result of a computation over a state [S]: a value and the new state, an
    early exit of the process in some state, or a model that ran out of fuel. *)
Inductive Res (S A : Type) : Type :=
| Ok (a : A) (s : S)
| Exit (f : Failure) (s : S)
| OutOfFuel.

Arguments Ok {S A} a s.
Arguments Exit {S A} f s.
Arguments OutOfFuel {S A}.

Definition bind {S A B} (m : S -> Res S A) (k : A -> S -> Res S B) : S -> Res S B :=
  fun s =>
    match m s with
    | Ok a s' => k a s'
    | Exit f s' => Exit f s'
    | OutOfFuel => OutOfFuel
    end.

Definition ret {S A} (a : A) : S -> Res S A := fun s => Ok a s.

Definition exit {S A} (f : Failure) : S -> Res S A := fun s => Exit f s.

Notation "'let*' x ':=' m 'in' k" := (bind m (fun x => k))
  (at level 10, x name, m at level 100, k at level 200).
Notation "'run' m 'then' k" := (bind m (fun _ => k))
  (at level 10, m at level 100, k at level 200).

(** ** Input tokenization ([parse.c]) *)

(** The stream being read, with the static [lineCount] of [parse.c]. *)
Record Input : Type := mkInput { chars : string; lineCount : nat }.

Definition ungetc (c : ascii) (s : string) : string := String c s.

(** [syntaxError()] *)
Definition syntaxError {A} : Input -> Res Input A :=
  fun fp => Exit (SyntaxError (lineCount fp)) fp.

(** The loop that skips whitespace and comments at the start of [parseToken].
    [in_comment] is true inside the inner loop that runs to the end of the
    line.  Returns the first character of the token ([None] for [EOF]), the
    rest of the stream and the line counter. *)
Fixpoint skipBlanks (in_comment : bool) (s : string) (line : nat)
  : option ascii * string * nat :=
  match s with
  | EmptyString => (None, EmptyString, line)
  | String ch rest =>
      if in_comment then
        if Ascii.eqb ch NL then skipBlanks false rest (S line)
        else skipBlanks true rest line
      else if Ascii.eqb ch "#" then skipBlanks true rest line
      else if isspace ch then
        skipBlanks false rest (if Ascii.eqb ch NL then S line else line)
      else (Some ch, rest, line)
  end.

(** [while ( p( ch = fgetc( fp ) ) ) addToToken( ch, token, &len );]
    followed by [if ( ch != EOF ) ungetc( ch, fp );].  [len] is the number of
    characters already in the token; [None] is the "token too long" exit of
    [addToToken]. *)
Fixpoint scanWhile (p : ascii -> bool) (len : nat) (s : string)
  : option (string * string) :=
  match s with
  | EmptyString => Some (EmptyString, EmptyString)
  | String ch rest =>
      if p ch then
        if (MAX_TOKEN <=? len)%nat then None
        else
          match scanWhile p (S len) rest with
          | Some (tok, rest') => Some (String ch tok, rest')
          | None => None
          end
      else Some (EmptyString, ungetc ch rest)
  end.

(** What the body of the string loop does with one character. *)
Inductive QuoteStep : Type :=
| QFail (f : Failure)
| QEscape
| QAdd (ch : ascii).

Definition quoteStep (escape : bool) (ch : ascii) (line : nat) : QuoteStep :=
  if Ascii.eqb ch NL then QFail (InvalidStringLiteral line)
  else if (negb escape && Ascii.eqb ch BACKSLASH)%bool then QEscape
  else if escape then
    if Ascii.eqb ch "n" then QAdd NL
    else if Ascii.eqb ch "t" then QAdd TAB
    else if Ascii.eqb ch DQUOTE then QAdd DQUOTE
    else if Ascii.eqb ch BACKSLASH then QAdd BACKSLASH
    else QFail (InvalidEscape line ch)
  else QAdd ch.

(** The loop that reads a quoted string up to the matching close quote, and
    then stores the closing quote.  The result is the token after its opening
    quote. *)
Fixpoint scanQuoted (quote : ascii) (escape : bool) (len : nat) (s : string)
  (line : nat) : Failure + string * string :=
  match s with
  | EmptyString => inl (InvalidStringLiteral line)
  | String ch rest =>
      if (negb (Ascii.eqb ch quote) || escape)%bool then
        match quoteStep escape ch line with
        | QFail f => inl f
        | QEscape => scanQuoted quote true len rest line
        | QAdd ch' =>
            if (MAX_TOKEN <=? len)%nat then inl (TokenTooLong line)
            else
              match scanQuoted quote false (S len) rest line with
              | inr (tok, rest') => inr (String ch' tok, rest')
              | inl f => inl f
              end
        end
      else if (MAX_TOKEN <=? len)%nat then inl (TokenTooLong line)
      else if (Ascii.eqb quote SQUOTE
               && negb (S len =? SINGLE_QUOTE_LENGTH + 1 + 1)%nat)%bool
      then inl (InvalidSingleQuoted line)
      else inr (String quote EmptyString, rest)
  end.

(** The last case of [parseToken]: a one- or two-character operator. *)
Definition scanSymbol (ch : ascii) (s : string) : string * string :=
  match s with
  | EmptyString => (String ch EmptyString, EmptyString)
  | String ch2 rest =>
      if (Ascii.eqb ch "=" && Ascii.eqb ch2 "="
          || Ascii.eqb ch "&" && Ascii.eqb ch2 "&"
          || Ascii.eqb ch "|" && Ascii.eqb ch2 "|")%bool
      then (String ch (String ch2 EmptyString), rest)
      else (String ch EmptyString, ungetc ch2 rest)
  end.

(** [parseToken]: [Ok None] is the [false] returned at the end of the input. *)
Definition parseToken (fp : Input) : Res Input (option string) :=
  match skipBlanks false (chars fp) (lineCount fp) with
  | (None, rest, line) => Ok None (mkInput rest line)
  | (Some ch, rest, line) =>
      if (isalpha ch || Ascii.eqb ch "_")%bool then
        match scanWhile (fun c => (isalnum c || Ascii.eqb c "_")%bool) 1 rest with
        | Some (tok, rest') => Ok (Some (String ch tok)) (mkInput rest' line)
        | None => Exit (TokenTooLong line) (mkInput rest line)
        end
      else if (Ascii.eqb ch "-" || isdigit ch)%bool then
        match scanWhile isdigit 1 rest with
        | Some (tok, rest') => Ok (Some (String ch tok)) (mkInput rest' line)
        | None => Exit (TokenTooLong line) (mkInput rest line)
        end
      else if (Ascii.eqb ch DQUOTE || Ascii.eqb ch SQUOTE)%bool then
        match scanQuoted ch false 1 rest line with
        | inr (tok, rest') => Ok (Some (String ch tok)) (mkInput rest' line)
        | inl f => Exit f (mkInput rest line)
        end
      else
        let '(tok, rest') := scanSymbol ch rest in
        Ok (Some tok) (mkInput rest' line)
  end.

(** [expectToken] *)
Definition expectToken (fp : Input) : Res Input string :=
  match parseToken fp with
  | Ok (Some tok) fp' => Ok tok fp'
  | Ok None fp' => syntaxError fp'
  | Exit f fp' => Exit f fp'
  | OutOfFuel => OutOfFuel
  end.

(** [requireToken] *)
Definition requireToken (target : string) : Input -> Res Input unit :=
  let* tok := expectToken in
  if streq tok target then ret tt else syntaxError.

(** ** Syntax trees ([syntax.h]) *)

(** One constructor per [make...] function of [syntax.c]. *)
Inductive Expr : Type :=
| LiteralInt (val : Z)
| Add (left right : Expr)
| Sub (left right : Expr)
| Mul (left right : Expr)
| Div (left right : Expr)
| And (left right : Expr)
| Or (left right : Expr)
| Less (left right : Expr)
| Equals (left right : Expr)
| SequenceInitializer (elist : list Expr)
| LenExpr (expr : Expr)
| VariableExpr (name : string)
| SequenceIndex (aexpr iexpr : Expr).

Inductive Stmt : Type :=
| PrintStmt (expr : Expr)
| CompoundStmt (stmtList : list Stmt)
| IfStmt (cond : Expr) (body : Stmt)
| WhileStmt (cond : Expr) (body : Stmt)
| PushStmt (sexpr vexpr : Expr)
| AssignmentStmt (name : string) (iexpr : option Expr) (expr : Expr).

(** ** Parsing ([parse.c]) *)

Definition first (tok : string) : ascii :=
  match tok with
  | EmptyString => zero
  | String c _ => c
  end.

Fixpoint all_chars (p : ascii -> bool) (s : string) : bool :=
  match s with
  | EmptyString => true
  | String c r => (p c && all_chars p r)%bool
  end.

(** [isIdentifier] *)
Definition isIdentifier (tok : string) : bool :=
  if (negb (isalpha (first tok)) && negb (Ascii.eqb (first tok) "_"))%bool then false
  else if negb (all_chars (fun c => (isalnum c || Ascii.eqb c "_")%bool)
                  (c_str (match tok with EmptyString => tok | String _ r => r end)))
  then false
  else if (MAX_VAR_NAME <? strlen tok)%nat then false
  else if (streq tok "if" || streq tok "while" || streq tok "print"
           || streq tok "push" || streq tok "len")%bool then false
  else true.

(** [isInfixOperator] *)
Definition isInfixOperator (tok : string) : bool :=
  (streq tok "+" || streq tok "-" || streq tok "*" || streq tok "/"
   || streq tok "<" || streq tok "==" || streq tok "&&" || streq tok "||"
   || streq tok "[")%bool.

(** [sscanf( tok, "%d%n", &val, &n )] on a token that starts with a sign or a
    digit and continues with digits: the decimal value, if there is a digit.
    As in glibc, the number is read as a [long], clamped to its range, and
    stored in the [int] by truncation. *)
Fixpoint digitsValue (acc : Z) (s : string) : Z :=
  match s with
  | EmptyString => acc
  | String c r => digitsValue (10 * acc + (Z.of_N (code c) - 48)) r
  end.

Definition wrap32 (z : Z) : Z := (z + 2 ^ 31) mod 2 ^ 32 - 2 ^ 31.

Definition clampLong (z : Z) : Z := Z.max (- 2 ^ 63) (Z.min (2 ^ 63 - 1) z).

Definition scanInt (tok : string) : option Z :=
  match tok with
  | EmptyString => None
  | String c r =>
      if Ascii.eqb c "-" then
        if (all_chars isdigit r && negb (String.eqb r EmptyString))%bool
        then Some (wrap32 (clampLong (- digitsValue 0 r)))
        else None
      else if all_chars isdigit tok then Some (wrap32 (clampLong (digitsValue 0 tok)))
      else None
  end.

(** The loop of [parseTerm] that lowers a double-quoted token: it walks the
    token from index 1 up to the first double quote. *)
Fixpoint lowerString (body : string) : Input -> Res Input (list Expr) :=
  match body with
  | EmptyString => exit Undefined
  | String current rest =>
      if Ascii.eqb current DQUOTE then ret []
      else if (char_to_int current =? -1)%Z then syntaxError
      else
        let* elist := lowerString rest in
        ret (LiteralInt (char_to_int current) :: elist)
  end.

(** The binary node built for an operator token in [parseExpr]; [None] is
    the index operator, which also needs its closing bracket. *)
Definition makeBinary (op : string) (left right : Expr) : option Expr :=
  if streq op "+" then Some (Add left right)
  else if streq op "-" then Some (Sub left right)
  else if streq op "*" then Some (Mul left right)
  else if streq op "/" then Some (Div left right)
  else if streq op "&&" then Some (And left right)
  else if streq op "||" then Some (Or left right)
  else if streq op "<" then Some (Less left right)
  else if streq op "==" then Some (Equals left right)
  else None.

Definition isTerminator (op : string) : bool :=
  (streq op ";" || streq op ")" || streq op "]" || streq op ",")%bool.

(** [parseExpr], [parseTerm] and their two loops: [infixLoop] is the [while]
    of [parseExpr] together with the check and the [ungetc] that follow it;
    [elistLoop] is the [while] of the bracketed initializer in [parseTerm],
    entered with the elements read so far (in reverse) and the current
    token. *)
Fixpoint parseExpr (fuel : nat) (tok : string) {struct fuel}
  : Input -> Res Input Expr :=
  match fuel with
  | O => fun _ => OutOfFuel
  | S fuel =>
      let* left := parseTerm fuel tok in
      infixLoop fuel left
  end
with parseTerm (fuel : nat) (tok : string) {struct fuel}
  : Input -> Res Input Expr :=
  match fuel with
  | O => fun _ => OutOfFuel
  | S fuel =>
      if streq tok "(" then
        let* tok' := expectToken in
        let* expr := parseExpr fuel tok' in
        run requireToken ")" then
        ret expr
      else if (Ascii.eqb (first tok) "-" || isdigit (first tok))%bool then
        match scanInt (c_str tok) with
        | Some val => ret (LiteralInt val)
        | None => syntaxError
        end
      else if Ascii.eqb (first tok) SQUOTE then
        ret (LiteralInt (char_to_int (first (match tok with
                                            | EmptyString => tok
                                            | String _ r => r
                                            end))))
      else if isIdentifier tok then ret (VariableExpr (c_str tok))
      else if Ascii.eqb (first tok) "[" then
        let* currentToken := expectToken in
        let* elist := elistLoop fuel [] currentToken in
        ret (SequenceInitializer elist)
      else if streq tok "len" then
        let* tok' := expectToken in
        let* len := parseExpr fuel tok' in
        ret (LenExpr len)
      else if Ascii.eqb (first tok) DQUOTE then
        let* elist := lowerString (match tok with
                                   | EmptyString => tok
                                   | String _ r => r
                                   end) in
        ret (SequenceInitializer elist)
      else syntaxError
  end
with infixLoop (fuel : nat) (left : Expr) {struct fuel}
  : Input -> Res Input Expr :=
  match fuel with
  | O => fun _ => OutOfFuel
  | S fuel =>
      let* op := expectToken in
      if isInfixOperator op then
        let* tok := expectToken in
        let* right := parseTerm fuel tok in
        match makeBinary op left right with
        | Some e => infixLoop fuel e
        | None =>
            run requireToken "]" then
            infixLoop fuel (SequenceIndex left right)
        end
      else if negb (isTerminator op) then syntaxError
      else fun fp => Ok left (mkInput (ungetc (first op) (chars fp)) (lineCount fp))
  end
with elistLoop (fuel : nat) (acc : list Expr) (currentToken : string) {struct fuel}
  : Input -> Res Input (list Expr) :=
  match fuel with
  | O => fun _ => OutOfFuel
  | S fuel =>
      if ((length acc <=? MAX_TOKEN)%nat && negb (streq currentToken "]"))%bool then
        let* newExpr := parseExpr fuel currentToken in
        if (MAX_TOKEN <=? length acc)%nat then exit Undefined
        else
          let* currentToken := expectToken in
          if (negb (streq currentToken "]") && negb (streq currentToken ","))%bool
          then syntaxError
          else if negb (streq currentToken "]") then
            let* currentToken := expectToken in
            elistLoop fuel (newExpr :: acc) currentToken
          else elistLoop fuel (newExpr :: acc) currentToken
      else ret (rev acc)
  end.

(** The loop of [parseStmt] that collects the statements of a block. *)
Definition blockLoop (parseStmt : string -> Input -> Res Input Stmt)
  : nat -> list Stmt -> Input -> Res Input (list Stmt) :=
  fix loop (fuel : nat) (acc : list Stmt) : Input -> Res Input (list Stmt) :=
    match fuel with
    | O => fun _ => OutOfFuel
    | S fuel =>
        let* tok := expectToken in
        if negb (streq tok "}") then
          let* stmt := parseStmt tok in
          loop fuel (stmt :: acc)
        else ret (rev acc)
    end.

(** [parseStmt] *)
Fixpoint parseStmt (fuel : nat) (tok : string) {struct fuel}
  : Input -> Res Input Stmt :=
  match fuel with
  | O => fun _ => OutOfFuel
  | S fuel =>
      if streq tok "{" then
        let* stmtList := blockLoop (parseStmt fuel) fuel [] in
        ret (CompoundStmt stmtList)
      else if streq tok "print" then
        let* tok' := expectToken in
        let* arg := parseExpr fuel tok' in
        run requireToken ";" then
        ret (PrintStmt arg)
      else if streq tok "if" then
        run requireToken "(" then
        let* tok' := expectToken in
        let* cond := parseExpr fuel tok' in
        run requireToken ")" then
        let* tok'' := expectToken in
        let* body := parseStmt fuel tok'' in
        ret (IfStmt cond body)
      else if streq tok "while" then
        run requireToken "(" then
        let* tok' := expectToken in
        let* cond := parseExpr fuel tok' in
        run requireToken ")" then
        let* tok'' := expectToken in
        let* body := parseStmt fuel tok'' in
        ret (WhileStmt cond body)
      else if streq tok "push" then
        let* tok' := expectToken in
        let* sexpr := parseExpr fuel tok' in
        run requireToken "," then
        let* tok'' := expectToken in
        let* vexpr := parseExpr fuel tok'' in
        run requireToken ";" then
        ret (PushStmt sexpr vexpr)
      else if isIdentifier tok then
        let vname := c_str tok in
        let* tok' := expectToken in
        if streq tok' "[" then
          let* tok1 := expectToken in
          let* iexpr := parseExpr fuel tok1 in
          run requireToken "]" then
          run requireToken "=" then
          let* tok2 := expectToken in
          let* expr := parseExpr fuel tok2 in
          run requireToken ";" then
          ret (AssignmentStmt vname (Some iexpr) expr)
        else if streq tok' "=" then
          let* tok2 := expectToken in
          let* expr := parseExpr fuel tok2 in
          run requireToken ";" then
          ret (AssignmentStmt vname None expr)
        else syntaxError
      else syntaxError
  end.

(** ** Values, sequences and the environment ([value.h], [value.c]) *)

Inductive ValType : Type := IntType | SeqType.

(** [struct ValueStruct]: the tag with the active member of the union.  A
    sequence is named by the index of its block in the heap. *)
Inductive Value : Type :=
| IntV (ival : Z)
| SeqV (sval : nat).

Definition vtype (v : Value) : ValType :=
  match v with
  | IntV _ => IntType
  | SeqV _ => SeqType
  end.

Definition sameType (t1 t2 : ValType) : bool :=
  match t1, t2 with
  | IntType, IntType | SeqType, SeqType => true
  | _, _ => false
  end.

Definition isIntType (v : Value) : bool := sameType (vtype v) IntType.

Definition isSeqType (v : Value) : bool := sameType (vtype v) SeqType.

(** [Sequence]: the [len] used elements of the buffer, its capacity and the
    reference count. *)
Record Sequence : Type := mkSequence { seq : list Z; cap : Z; ref : Z }.

Definition len (s : Sequence) : Z := Z.of_nat (length (seq s)).

Record VarRec : Type := mkVarRec { name : string; val : Value }.

(** [struct EnvironmentStruct]: [vlist] holds the [len] records in use. *)
Record Environment : Type := mkEnvironment { vlist : list VarRec; capacity : Z }.

(** The state the evaluator works on: the environment created by [main],
    the heap of sequence blocks ([None] once freed) and what has been
    written to the standard output. *)
Record Machine : Type :=
  mkMachine { env : Environment; heap : list (option Sequence); stdout : string }.

Definition M (A : Type) : Type := Machine -> Res Machine A.

Definition setHeap (h : list (option Sequence)) (m : Machine) : Machine :=
  mkMachine (env m) h (stdout m).

Definition setEnv (e : Environment) (m : Machine) : Machine :=
  mkMachine e (heap m) (stdout m).

Definition write (text : string) : M unit :=
  fun m => Ok tt (mkMachine (env m) (heap m) (stdout m +:+ text)).

(** Access to the block behind a [Sequence *]. *)
Definition getSeq (p : nat) : M Sequence :=
  fun m =>
    match heap m !! p with
    | Some (Some s) => Ok s m
    | _ => Exit Undefined m
    end.

Definition putSeq (p : nat) (s : Sequence) : M unit :=
  fun m =>
    match heap m !! p with
    | Some (Some _) => Ok tt (setHeap (<[p := Some s]> (heap m)) m)
    | _ => Exit Undefined m
    end.

(** [makeSequence] *)
Definition makeSequence : M nat :=
  fun m => Ok (length (heap m))
              (setHeap (heap m ++ [Some (mkSequence [] INIT_CAP 0)]) m).

(** [freeSequence] *)
Definition freeSequence (p : nat) : M unit :=
  fun m =>
    match heap m !! p with
    | Some (Some _) => Ok tt (setHeap (<[p := None]> (heap m)) m)
    | _ => Exit Undefined m
    end.

(** [grabSequence] *)
Definition grabSequence (p : nat) : M unit :=
  let* s := getSeq p in
  putSeq p (mkSequence (seq s) (cap s) (ref s + 1)).

(** [releaseSequence] *)
Definition releaseSequence (p : nat) : M unit :=
  let* s := getSeq p in
  run putSeq p (mkSequence (seq s) (cap s) (ref s - 1)) then
  if ref s - 1 <=? 0 then
    if ref s - 1 =? 0 then freeSequence p else exit AssertFailed
  else ret tt.

(** [makeEnvironment] *)
Definition makeEnvironment : Environment := mkEnvironment [] INIT_CAP.

(** [lookupVariable]: the linear search, then zero for a name not found. *)
Fixpoint lookupRec (vlist : list VarRec) (n : string) : Value :=
  match vlist with
  | [] => IntV 0
  | r :: rest => if streq (name r) n then val r else lookupRec rest n
  end.

Definition lookupVariable (env : Environment) (n : string) : Value :=
  lookupRec (vlist env) n.

(** The first loop of [setVariable]: the position of the name, or [len]. *)
Fixpoint findPos (vlist : list VarRec) (n : string) : nat :=
  match vlist with
  | [] => O
  | r :: rest => if streq (name r) n then O else S (findPos rest n)
  end.

(** [setVariable] *)
Definition setVariable (n : string) (value : Value) : M unit :=
  fun m =>
    let e := env m in
    let pos := findPos (vlist e) n in
    match vlist e !! pos with
    | None =>
        let capacity' :=
          if Z.of_nat (length (vlist e)) >=? capacity e
          then capacity e * DOUBLE_CAP else capacity e in
        Ok tt (setEnv (mkEnvironment (vlist e ++ [mkVarRec (c_str n) value])
                                     capacity') m)
    | Some r =>
        (run (match val r with
              | SeqV old => releaseSequence old
              | IntV _ => ret tt
              end) then
         fun m' =>
           Ok tt (setEnv (mkEnvironment
                            (<[pos := mkVarRec (name r) value]> (vlist (env m')))
                            (capacity (env m'))) m')) m
    end.

(** [freeEnvironment] *)
Fixpoint releaseAll (vlist : list VarRec) : M unit :=
  match vlist with
  | [] => ret tt
  | r :: rest =>
      run (match val r with
           | SeqV p => releaseSequence p
           | IntV _ => ret tt
           end) then
      releaseAll rest
  end.

Definition freeEnvironment : M unit := fun m => releaseAll (vlist (env m)) m.

(** ** Evaluation ([syntax.c]) *)

Definition reportTypeMismatch {A} : M A := exit TypeMismatch.
Definition reportIndexOutOfBounds {A} : M A := exit IndexOutOfBounds.

Definition requireIntType (v : Value) : M unit :=
  if negb (isIntType v) then reportTypeMismatch else ret tt.

Definition requireSeqType (s : Value) : M unit :=
  if negb (isSeqType s) then reportTypeMismatch else ret tt.

(** [if ( s->len >= s->cap ) { s->cap *= DOUBLE_CAP; s->seq = realloc( ... ); }]
    on the block [p].  The capacity is an [int]: when the doubling does not
    fit, the run ends there. *)
Definition grow (p : nat) : M unit :=
  let* s := getSeq p in
  if len s >=? cap s then
    if cap s * DOUBLE_CAP >? INT_MAX then exit Overflow
    else putSeq p (mkSequence (seq s) (cap s * DOUBLE_CAP) (ref s))
  else ret tt.

(** [s->seq[ s->len ] = v; s->len++] *)
Definition store (s : Sequence) (v : Z) : Sequence :=
  mkSequence (seq s ++ [v]) (cap s) (ref s).

(** A copy loop: every element of [xs] is appended to the block [p], which
    grows when it is full. *)
Fixpoint appendAll (p : nat) (xs : list Z) : M unit :=
  match xs with
  | [] => ret tt
  | x :: rest =>
      run grow p then
      let* s := getSeq p in
      run putSeq p (store s x) then
      appendAll p rest
  end.

(** The [for] loop of [evalLess] over the common indices: [Some r] when the
    loop returns [r], [None] when it runs to its end. *)
Fixpoint lessLoop (pairs : list (Z * Z)) : option Z :=
  match pairs with
  | [] => None
  | (x, y) :: rest =>
      if x >? y then Some 0
      else if x <? y then Some 1
      else lessLoop rest
  end.

Definition lessSequence (seq1 seq2 : Sequence) : Z :=
  match lessLoop (combine (seq seq1) (seq seq2)) with
  | Some r => r
  | None => if len seq1 <? len seq2 then 1 else 0
  end.

(** The [for] loop of [evalEquals]: [false] when it returns 0. *)
Fixpoint equalsLoop (pairs : list (Z * Z)) : bool :=
  match pairs with
  | [] => true
  | (x, y) :: rest => if negb (x =? y) then false else equalsLoop rest
  end.

Definition equalsSequence (seq1 seq2 : Sequence) : Z :=
  if negb (len seq1 =? len seq2) then 0
  else if equalsLoop (combine (seq seq1) (seq seq2)) then 1 else 0.

(** [printf( "%d", i )] *)
Definition decimal (i : Z) : string := NilZero.string_of_int (Z.to_int i).

(** [printf( "%c", i )]: the argument converted to [unsigned char]. *)
Definition byte (i : Z) : string :=
  String (ascii_of_N (Z.to_N (i mod 256))) EmptyString.

Section Evaluator.

(** The members [ival] and [sval] of a [Value] share storage.  [syntax.c]
    reads [ival] of a sequence value in two places; what it finds there are
    the low bits of the pointer, which depend on the allocator: [svalBits p]
    is that [int] for the block [p]. *)
Variable svalBits : nat -> Z.

Definition ival (v : Value) : Z :=
  match v with
  | IntV i => i
  | SeqV p => svalBits p
  end.

(** [sval] is only read after the tag has been tested. *)
Definition sval (v : Value) : M nat :=
  match v with
  | SeqV p => ret p
  | IntV _ => exit Undefined
  end.

(** The branch of [evalAdd] for two sequences. *)
Definition addSeqSeq (v1 v2 : Value) : M Value :=
  let* seq1 := sval v1 in
  let* seq2 := sval v2 in
  run grabSequence seq1 then
  run grabSequence seq2 then
  let* r := makeSequence in
  let* s1 := getSeq seq1 in
  run appendAll r (seq s1) then
  run releaseSequence seq1 then
  let* s2 := getSeq seq2 in
  run appendAll r (seq s2) then
  run releaseSequence seq2 then
  ret (SeqV r).

(** The branch of [evalAdd] for a sequence and an [int]. *)
Definition addSeqInt (v1 v2 : Value) : M Value :=
  let* seq1 := sval v1 in
  run grabSequence seq1 then
  let* r := makeSequence in
  let* s1 := getSeq seq1 in
  run appendAll r (seq s1) then
  run appendAll r [ival v2] then
  run releaseSequence seq1 then
  ret (SeqV r).

(** The branch of [evalAdd] for an [int] and a sequence. *)
Definition addIntSeq (v1 v2 : Value) : M Value :=
  let* seq2 := sval v2 in
  run grabSequence seq2 then
  let* r := makeSequence in
  let* s := getSeq r in
  run putSeq r (store s (ival v1)) then
  let* s2 := getSeq seq2 in
  run appendAll r (seq s2) then
  run releaseSequence seq2 then
  ret (SeqV r).

(** [evalAdd], once both operands have been evaluated. *)
Definition evalAdd (v1 v2 : Value) : M Value :=
  if (isIntType v1 && isIntType v2)%bool then ret (IntV (wrap32 (ival v1 + ival v2)))
  else if sameType (vtype v1) (vtype v2) then addSeqSeq v1 v2
  else if isSeqType v1 then addSeqInt v1 v2
  else if isSeqType v2 then addIntSeq v1 v2
  else ret (IntV 0).

(** [evalSub] *)
Definition evalSub (v1 v2 : Value) : M Value :=
  run requireIntType v1 then
  run requireIntType v2 then
  ret (IntV (wrap32 (ival v1 - ival v2))).

(** The two repetition branches of [evalMul]: [times] copies of the
    sequence [v]. *)
Definition repeatSeq (v : Value) (times : Z) : M Value :=
  let* p := sval v in
  run grabSequence p then
  let* r := makeSequence in
  let* s := getSeq p in
  run appendAll r (concat (replicate (Z.to_nat times) (seq s))) then
  run releaseSequence p then
  ret (SeqV r).

(** [evalMul], once both operands have been evaluated. *)
Definition evalMul (v1 v2 : Value) : M Value :=
  if isSeqType v1 then repeatSeq v1 (ival v2)
  else if isSeqType v2 then repeatSeq v2 (ival v1)
  else if (isSeqType v1 && isSeqType v2)%bool then reportTypeMismatch
  else
    run requireIntType v1 then
    run requireIntType v2 then
    ret (IntV (wrap32 (ival v1 * ival v2))).

(** [evalDiv] *)
Definition evalDiv (v1 v2 : Value) : M Value :=
  run requireIntType v1 then
  run requireIntType v2 then
  if ival v2 =? 0 then exit DivideByZero
  else if ((ival v1 =? INT_MIN) && (ival v2 =? -1))%bool then exit Overflow
  else ret (IntV (wrap32 (Z.quot (ival v1) (ival v2)))).

(** [evalLess] *)
Definition evalLess (v1 v2 : Value) : M Value :=
  if negb (sameType (vtype v1) (vtype v2)) then reportTypeMismatch
  else if isIntType v1 then ret (IntV (if ival v1 <? ival v2 then 1 else 0))
  else
    let* p1 := sval v1 in
    let* p2 := sval v2 in
    let* seq1 := getSeq p1 in
    let* seq2 := getSeq p2 in
    ret (IntV (lessSequence seq1 seq2)).

(** [evalEquals] *)
Definition evalEquals (v1 v2 : Value) : M Value :=
  if (isIntType v1 && isIntType v2)%bool
  then ret (IntV (if ival v1 =? ival v2 then 1 else 0))
  else if (isIntType v1 && isSeqType v2 || isSeqType v1 && isIntType v2)%bool
  then ret (IntV 0)
  else
    let* p1 := sval v1 in
    let* p2 := sval v2 in
    let* seq1 := getSeq p1 in
    let* seq2 := getSeq p2 in
    ret (IntV (equalsSequence seq1 seq2)).

(** [evalLen] *)
Definition evalLen (s : Value) : M Value :=
  run requireSeqType s then
  let* current := sval s in
  run grabSequence current then
  let* c := getSeq current in
  run releaseSequence current then
  ret (IntV (len c)).

(** [evalSequenceIndex] *)
Definition evalSequenceIndex (sq index : Value) : M Value :=
  run requireSeqType sq then
  run requireIntType index then
  let* sequence := sval sq in
  run grabSequence sequence then
  let vindex := ival index in
  let* s := getSeq sequence in
  if ((vindex <? 0) || (vindex >=? len s))%bool then reportIndexOutOfBounds
  else
    let v := nth (Z.to_nat vindex) (seq s) 0 in
    run releaseSequence sequence then
    ret (IntV v).

(** [lookupVariable( env, n )] on the environment of the machine. *)
Definition lookup (n : string) : M Value :=
  fun m => Ok (lookupVariable (env m) n) m.

(** [evalVariable] *)
Definition evalVariable (n : string) : M Value := lookup n.

(** The [eval] method of an expression.  Binary nodes evaluate the left
    operand, then the right one ([And] and [Or] only when needed).
    The loop of [evalSequence] is the inner [fix]. *)
Fixpoint eval (e : Expr) : M Value :=
  match e with
  | LiteralInt v => ret (IntV v)
  | Add e1 e2 =>
      let* v1 := eval e1 in let* v2 := eval e2 in evalAdd v1 v2
  | Sub e1 e2 =>
      let* v1 := eval e1 in let* v2 := eval e2 in evalSub v1 v2
  | Mul e1 e2 =>
      let* v1 := eval e1 in let* v2 := eval e2 in evalMul v1 v2
  | Div e1 e2 =>
      let* v1 := eval e1 in let* v2 := eval e2 in evalDiv v1 v2
  | And e1 e2 =>
      let* v1 := eval e1 in
      run requireIntType v1 then
      if ival v1 =? 0 then ret v1
      else
        let* v2 := eval e2 in
        run requireIntType v2 then
        ret v2
  | Or e1 e2 =>
      let* v1 := eval e1 in
      run requireIntType v1 then
      if negb (ival v1 =? 0) then ret v1
      else
        let* v2 := eval e2 in
        run requireIntType v2 then
        ret v2
  | Less e1 e2 =>
      let* v1 := eval e1 in let* v2 := eval e2 in evalLess v1 v2
  | Equals e1 e2 =>
      let* v1 := eval e1 in let* v2 := eval e2 in evalEquals v1 v2
  | SequenceInitializer elist =>
      let* p := makeSequence in
      run (fix loop (l : list Expr) : M unit :=
             match l with
             | [] => ret tt
             | x :: rest =>
                 run grow p then
                 let* v := eval x in
                 run requireIntType v then
                 let* s' := getSeq p in
                 run putSeq p (store s' (ival v)) then
                 loop rest
             end) elist then
      ret (SeqV p)
  | LenExpr e1 => let* s := eval e1 in evalLen s
  | VariableExpr n => evalVariable n
  | SequenceIndex e1 e2 =>
      let* sq := eval e1 in let* index := eval e2 in evalSequenceIndex sq index
  end.

(** [executePrint], once the argument has been evaluated. *)
Definition executePrint (v : Value) : M unit :=
  if isIntType v then write (decimal (ival v))
  else
    let* p := sval v in
    run grabSequence p then
    let* s := getSeq p in
    run write (String.concat EmptyString (map byte (seq s))) then
    releaseSequence p.

(** [executePush], once both expressions have been evaluated. *)
Definition executePush (sq v : Value) : M unit :=
  run requireSeqType sq then
  run requireIntType v then
  let* realSeq := sval sq in
  run grabSequence realSeq then
  run grow realSeq then
  let* s := getSeq realSeq in
  run putSeq realSeq (store s (ival v)) then
  releaseSequence realSeq.

(** [executeAssignment]: the right-hand side first, then either the
    assignment to an element or the assignment to the variable. *)
Definition executeAssignment (n : string) (iexpr : option Expr) (expr : Expr)
  : M unit :=
  let* result := eval expr in
  match iexpr with
  | Some ie =>
      let* i := eval ie in
      run requireIntType i then
      let index := ival i in
      let* s := lookup n in
      run requireSeqType s then
      let* p := sval s in
      let* sq := getSeq p in
      if ((index <? 0) || (index >=? len sq))%bool then reportIndexOutOfBounds
      else
        putSeq p (mkSequence (<[Z.to_nat index := ival result]> (seq sq))
                             (cap sq) (ref sq))
  | None =>
      run (match result with
           | SeqV p => grabSequence p
           | IntV _ => ret tt
           end) then
      setVariable n result
  end.

(** The [execute] method of a statement.  [fuel] bounds the nesting of
    statements plus the number of iterations of [while] loops. *)
Fixpoint execute (fuel : nat) (stmt : Stmt) {struct fuel} : M unit :=
  match fuel with
  | O => fun _ => OutOfFuel
  | S fuel =>
      match stmt with
      | PrintStmt e => let* v := eval e in executePrint v
      | CompoundStmt stmtList =>
          (fix loop (l : list Stmt) : M unit :=
             match l with
             | [] => ret tt
             | s :: rest => run execute fuel s then loop rest
             end) stmtList
      | IfStmt cond body =>
          let* result := eval cond in
          run requireIntType result then
          if negb (ival result =? 0) then execute fuel body else ret tt
      | WhileStmt cond body =>
          let* result := eval cond in
          run requireIntType result then
          if negb (ival result =? 0) then
            run execute fuel body then
            execute fuel (WhileStmt cond body)
          else ret tt
      | PushStmt sexpr vexpr =>
          let* sq := eval sexpr in
          let* v := eval vexpr in
          executePush sq v
      | AssignmentStmt n iexpr expr => executeAssignment n iexpr expr
      end
  end.

(** ** The driver ([interpret.c]) *)

(** The loop of [main] and what follows it.  The result is the exit status
    returned by [main], or the early exit of one of the phases; in both cases
    with the machine as it is then. *)
Fixpoint mainLoop (fuel : nat) (fp : Input) {struct fuel} : M Z :=
  match fuel with
  | O => fun _ => OutOfFuel
  | S fuel =>
      fun m =>
        match parseToken fp with
        | Ok (Some tok) fp1 =>
            match parseStmt fuel tok fp1 with
            | Ok stmt fp2 =>
                (run execute fuel stmt then mainLoop fuel fp2) m
            | Exit f _ => Exit f m
            | OutOfFuel => OutOfFuel
            end
        | Ok None _ => (run freeEnvironment then ret EXIT_SUCCESS) m
        | Exit f _ => Exit f m
        | OutOfFuel => OutOfFuel
        end
  end.

(** [main] on the text of the program file. *)
Definition interpret (fuel : nat) (program : string) : Res Machine Z :=
  mainLoop fuel (mkInput program 1) (mkMachine makeEnvironment [] EmptyString).

End Evaluator.

(** * Properties *)

(** ** The result monad *)

Lemma bind_Ok {S A B} (m : S -> Res S A) (k : A -> S -> Res S B) s a s' :
  m s = Ok a s' -> bind m k s = k a s'.
Proof. intros H. unfold bind. now rewrite H. Qed.

Lemma bind_Exit {S A B} (m : S -> Res S A) (k : A -> S -> Res S B) s f s' :
  m s = Exit f s' -> bind m k s = Exit f s'.
Proof. intros H. unfold bind. now rewrite H. Qed.

Lemma bind_ret {S A B} (a : A) (k : A -> S -> Res S B) s :
  bind (ret a) k s = k a s.
Proof. reflexivity. Qed.

(** ** Sequence blocks *)

(** The block after the growth test of a store, when the doubling fits. *)
Definition grown (s : Sequence) : Sequence :=
  if len s >=? cap s then mkSequence (seq s) (cap s * DOUBLE_CAP) (ref s) else s.

(** One turn of a copy loop: the growth test, then the store. *)
Definition push_back (s : Sequence) (v : Z) : Sequence := store (grown s) v.

(** The growth test goes through: there is room left, or the doubled
    capacity is still an [int]. *)
Definition canGrow (s : Sequence) : bool :=
  ((len s <? cap s) || (cap s * DOUBLE_CAP <=? INT_MAX))%bool.

(** It goes through for every element of [xs] in turn. *)
Fixpoint canAppend (xs : list Z) (s : Sequence) : bool :=
  match xs with
  | [] => true
  | x :: rest => (canGrow s && canAppend rest (push_back s x))%bool
  end.

(** The largest capacity that the doubling reaches from [INIT_CAP]. *)
Definition MAX_CAP : Z := INIT_CAP * 2 ^ 28.

(** A block as the program builds them: the capacity is [INIT_CAP] doubled
    some number of times, and the elements fit. *)
Definition sized (s : Sequence) : Prop :=
  exists k : nat,
    (k <= 28)%nat /\ cap s = INIT_CAP * 2 ^ Z.of_nat k /\ len s <= cap s.

Lemma seq_fold_push_back xs s : seq (fold_left push_back xs s) = seq s ++ xs.
Proof.
  revert s. induction xs as [|x xs IH]; intros s; simpl.
  - now rewrite app_nil_r.
  - rewrite IH. unfold push_back, store, grown. simpl.
    destruct (len s >=? cap s); simpl; now rewrite <- app_assoc.
Qed.

Lemma ref_fold_push_back xs s : ref (fold_left push_back xs s) = ref s.
Proof.
  revert s. induction xs as [|x xs IH]; intros s; simpl; [done|].
  rewrite IH. unfold push_back, store, grown.
  now destruct (len s >=? cap s).
Qed.

Lemma canAppend_app xs ys s :
  canAppend (xs ++ ys) s =
  (canAppend xs s && canAppend ys (fold_left push_back xs s))%bool.
Proof.
  revert s. induction xs as [|x xs IH]; intros s; [done|].
  cbn [app canAppend fold_left]. now rewrite IH, andb_assoc.
Qed.

Lemma sized_empty : sized (mkSequence [] INIT_CAP 0).
Proof. exists O. unfold len, INIT_CAP. cbn. lia. Qed.

Lemma sized_fit s : sized s -> len s <= MAX_CAP.
Proof.
  intros (k & Hk & Hcap & Hlen). unfold MAX_CAP, INIT_CAP in *.
  assert (2 ^ Z.of_nat k <= 2 ^ 28) by (apply Z.pow_le_mono_r; lia). lia.
Qed.

(** A sized block takes further elements exactly as long as the total stays
    within [MAX_CAP], and it stays sized. *)
Lemma canAppend_sized xs :
  forall s,
    sized s ->
    canAppend xs s = (len s + Z.of_nat (length xs) <=? MAX_CAP) /\
    (canAppend xs s = true -> sized (fold_left push_back xs s)).
Proof.
  induction xs as [|x xs IH]; intros s Hs.
  - cbn [canAppend length fold_left]. split; [|done].
    pose proof (sized_fit s Hs). symmetry. apply Z.leb_le. lia.
  - destruct Hs as (k & Hk & Hcap & Hlen).
    assert (Hpow : 0 < 2 ^ Z.of_nat k) by (apply Z.pow_pos_nonneg; lia).
    cbn [canAppend fold_left]. unfold canGrow.
    destruct (Z.ltb_spec (len s) (cap s)) as [Hroom|Hfull].
    + assert (Hs' : sized (push_back s x)).
      { exists k. unfold push_back, store, grown, len in *.
        destruct (Z.geb_spec (Z.of_nat (length (seq s))) (cap s)); [lia|].
        cbn [seq cap]. rewrite length_app. cbn [length]. split; [done|].
        split; [done|lia]. }
      destruct (IH _ Hs') as [E Hsized]. cbn [orb andb]. split; [|exact Hsized].
      rewrite E. f_equal. unfold push_back, store, grown, len.
      destruct (_ >=? _); cbn [seq]; rewrite length_app; cbn [length]; lia.
    + cbn [orb]. unfold DOUBLE_CAP, INT_MAX.
      destruct (decide (k = 28%nat)) as [->|Hne].
      * assert (Hc : cap s = INIT_CAP * 2 ^ 28) by (rewrite Hcap; reflexivity).
        destruct (Z.leb_spec (cap s * 2) (2 ^ 31 - 1)) as [Hle|_].
        { unfold INIT_CAP in Hc. rewrite Hc in Hle. lia. }
        cbn [andb]. split; [|done]. symmetry. apply Z.leb_gt.
        unfold MAX_CAP. rewrite <- Hc. cbn [length]. lia.
      * assert (Hc2 : cap s * 2 = INIT_CAP * 2 ^ Z.of_nat (S k)).
        { rewrite Hcap, Nat2Z.inj_succ, Z.pow_succ_r by lia. lia. }
        assert (Hb : 2 ^ Z.of_nat (S k) <= 2 ^ 28) by (apply Z.pow_le_mono_r; lia).
        destruct (Z.leb_spec (cap s * 2) (2 ^ 31 - 1)) as [_|Hgt];
          [|unfold INIT_CAP in *; lia].
        assert (Hs' : sized (push_back s x)).
        { exists (S k). unfold push_back, store, grown, len, DOUBLE_CAP in *.
          destruct (Z.geb_spec (Z.of_nat (length (seq s))) (cap s)); [|lia].
          cbn [seq cap]. rewrite length_app. cbn [length]. split; [lia|].
          split; [done|]. unfold INIT_CAP in *. lia. }
        destruct (IH _ Hs') as [E Hsized]. cbn [andb]. split; [|exact Hsized].
        rewrite E. f_equal. unfold push_back, store, grown, len.
        destruct (_ >=? _); cbn [seq]; rewrite length_app; cbn [length]; lia.
Qed.

(** An empty sequence takes [xs] exactly when [xs] has at most [MAX_CAP]
    elements; the block that results has room for what it holds. *)
Lemma canAppend_empty xs :
  canAppend xs (mkSequence [] INIT_CAP 0) = (Z.of_nat (length xs) <=? MAX_CAP).
Proof. now rewrite (proj1 (canAppend_sized xs _ sized_empty)). Qed.

Lemma fold_push_back_fits xs :
  canAppend xs (mkSequence [] INIT_CAP 0) = true ->
  len (fold_left push_back xs (mkSequence [] INIT_CAP 0))
    <= cap (fold_left push_back xs (mkSequence [] INIT_CAP 0)).
Proof.
  intros H. destruct (proj2 (canAppend_sized xs _ sized_empty) H) as (k & _ & _ & Hle).
  exact Hle.
Qed.

Lemma length_concat_replicate {A} n (l : list A) :
  length (concat (replicate n l)) = (n * length l)%nat.
Proof.
  induction n as [|n IH]; [done|]. cbn [replicate concat Nat.mul].
  now rewrite length_app, IH.
Qed.

Lemma getSeq_live m p s :
  heap m !! p = Some (Some s) -> getSeq p m = Ok s m.
Proof. intros H. unfold getSeq. now rewrite H. Qed.

Lemma putSeq_live m p s s' :
  heap m !! p = Some (Some s) ->
  putSeq p s' m = Ok tt (setHeap (<[p := Some s']> (heap m)) m).
Proof. intros H. unfold putSeq. now rewrite H. Qed.

Lemma heap_setHeap h m : heap (setHeap h m) = h.
Proof. reflexivity. Qed.

Lemma setHeap_setHeap h h' m : setHeap h (setHeap h' m) = setHeap h m.
Proof. reflexivity. Qed.

Lemma grabSequence_live m p s :
  heap m !! p = Some (Some s) ->
  grabSequence p m =
  Ok tt (setHeap (<[p := Some (mkSequence (seq s) (cap s) (ref s + 1))]> (heap m)) m).
Proof.
  intros H. unfold grabSequence.
  rewrite (bind_Ok _ _ _ _ _ (getSeq_live _ _ _ H)).
  now apply putSeq_live with s.
Qed.

Lemma releaseSequence_keep m p s :
  heap m !! p = Some (Some s) -> 1 < ref s ->
  releaseSequence p m =
  Ok tt (setHeap (<[p := Some (mkSequence (seq s) (cap s) (ref s - 1))]> (heap m)) m).
Proof.
  intros H Hr. unfold releaseSequence.
  rewrite (bind_Ok _ _ _ _ _ (getSeq_live _ _ _ H)).
  rewrite (bind_Ok _ _ _ _ _ (putSeq_live _ _ _ _ H)).
  destruct (Z.leb_spec (ref s - 1) 0); [lia | reflexivity].
Qed.

Lemma releaseSequence_free m p s :
  heap m !! p = Some (Some s) -> ref s = 1 ->
  releaseSequence p m = Ok tt (setHeap (<[p := None]> (heap m)) m).
Proof.
  intros H Hr. unfold releaseSequence.
  rewrite (bind_Ok _ _ _ _ _ (getSeq_live _ _ _ H)).
  rewrite (bind_Ok _ _ _ _ _ (putSeq_live _ _ _ _ H)).
  rewrite Hr. simpl. unfold freeSequence. rewrite heap_setHeap.
  assert (Hlt : (p < length (heap m))%nat) by (eapply lookup_lt_Some; eauto).
  rewrite list_lookup_insert_eq by done.
  now rewrite setHeap_setHeap, list_insert_insert_eq.
Qed.

(** What a block looks like once a holder that had grabbed it lets go. *)
Definition released (s : Sequence) : option Sequence :=
  if ref s =? 1 then None else Some (mkSequence (seq s) (cap s) (ref s - 1)).

Lemma releaseSequence_live m p s :
  heap m !! p = Some (Some s) -> 1 <= ref s ->
  releaseSequence p m = Ok tt (setHeap (<[p := released s]> (heap m)) m).
Proof.
  intros H Hr. unfold released. destruct (Z.eqb_spec (ref s) 1).
  - now apply releaseSequence_free with s.
  - apply releaseSequence_keep; [done | lia].
Qed.

Lemma setHeap_same m p s :
  heap m !! p = Some (Some s) -> setHeap (<[p := Some s]> (heap m)) m = m.
Proof. intros H. rewrite list_insert_id by done. now destruct m. Qed.

Lemma grow_live m p s :
  heap m !! p = Some (Some s) -> canGrow s = true ->
  grow p m = Ok tt (setHeap (<[p := Some (grown s)]> (heap m)) m).
Proof.
  intros H Hg. unfold grow, grown, canGrow in *.
  rewrite (bind_Ok _ _ _ _ _ (getSeq_live _ _ _ H)).
  destruct (Z.geb_spec (len s) (cap s)) as [Hfull|Hroom].
  - destruct (Z.ltb_spec (len s) (cap s)); [lia|]. cbn [orb] in Hg.
    apply Z.leb_le in Hg. destruct (Z.gtb_spec (cap s * DOUBLE_CAP) INT_MAX); [lia|].
    now apply putSeq_live with s.
  - now rewrite setHeap_same.
Qed.

Lemma grow_overflow m p s :
  heap m !! p = Some (Some s) -> canGrow s = false -> grow p m = Exit Overflow m.
Proof.
  intros H Hg. unfold grow, canGrow in *.
  rewrite (bind_Ok _ _ _ _ _ (getSeq_live _ _ _ H)).
  apply orb_false_elim in Hg as [Hfull Hbig].
  apply Z.ltb_ge in Hfull. apply Z.leb_gt in Hbig.
  destruct (Z.geb_spec (len s) (cap s)); [|lia].
  destruct (Z.gtb_spec (cap s * DOUBLE_CAP) INT_MAX); [reflexivity|lia].
Qed.

Lemma appendAll_live xs :
  forall m p s,
    heap m !! p = Some (Some s) -> canAppend xs s = true ->
    appendAll p xs m =
    Ok tt (setHeap (<[p := Some (fold_left push_back xs s)]> (heap m)) m).
Proof.
  induction xs as [|x xs IH]; intros m p s H Hc.
  - cbn. now rewrite setHeap_same.
  - cbn [canAppend] in Hc. apply andb_prop in Hc as [Hg Hc].
    assert (L : (p < length (heap m))%nat) by (eapply lookup_lt_Some; eauto).
    cbn [appendAll fold_left].
    rewrite (bind_Ok _ _ _ _ _ (grow_live _ _ _ H Hg)).
    erewrite bind_Ok; [|apply getSeq_live; cbn [heap setHeap];
                        now apply list_lookup_insert_eq].
    erewrite bind_Ok; [|eapply putSeq_live; cbn [heap setHeap];
                        now apply list_lookup_insert_eq].
    cbn [heap setHeap]. rewrite setHeap_setHeap, list_insert_insert_eq.
    erewrite IH; [|cbn [heap setHeap]; now apply list_lookup_insert_eq|exact Hc].
    cbn [heap setHeap]. now rewrite setHeap_setHeap, list_insert_insert_eq.
Qed.

Lemma appendAll_overflow xs :
  forall m p s,
    heap m !! p = Some (Some s) -> canAppend xs s = false ->
    exists m', appendAll p xs m = Exit Overflow m'.
Proof.
  induction xs as [|x xs IH]; intros m p s H Hc; [discriminate Hc|].
  cbn [canAppend] in Hc.
  assert (L : (p < length (heap m))%nat) by (eapply lookup_lt_Some; eauto).
  cbn [appendAll]. destruct (canGrow s) eqn:Hg.
  - cbn [andb] in Hc.
    rewrite (bind_Ok _ _ _ _ _ (grow_live _ _ _ H Hg)).
    erewrite bind_Ok; [|apply getSeq_live; cbn [heap setHeap];
                        now apply list_lookup_insert_eq].
    erewrite bind_Ok; [|eapply putSeq_live; cbn [heap setHeap];
                        now apply list_lookup_insert_eq].
    cbn [heap setHeap]. rewrite setHeap_setHeap, list_insert_insert_eq.
    eapply IH; [|exact Hc]. cbn [heap setHeap]. now apply list_lookup_insert_eq.
  - exists m. now rewrite (bind_Exit _ _ _ _ _ (grow_overflow _ _ _ H Hg)).
Qed.

(** Stepping through monadic code whose next action works on a live block. *)
Ltac machine_simpl :=
  cbn [heap setHeap env stdout seq cap ref]; rewrite ?setHeap_setHeap.

Ltac heap_index :=
  machine_simpl; repeat first [ rewrite length_insert | rewrite length_app ];
  simpl; try lia; try congruence.

Ltac heap_lookup :=
  machine_simpl; rewrite ?length_insert;
  repeat first
    [ rewrite list_lookup_insert_eq by heap_index
    | rewrite list_lookup_insert_ne by heap_index
    | rewrite list_lookup_middle by heap_index
    | rewrite lookup_app_l by heap_index ];
  first [ eassumption | reflexivity ].

Ltac step L := erewrite bind_Ok; [ | eapply L; heap_lookup ]; machine_simpl.

Ltac step_release :=
  erewrite bind_Ok;
  [ | eapply releaseSequence_live; [ heap_lookup | machine_simpl; lia ] ];
  machine_simpl.

(** ** Operators that build a sequence *)

(** What an operator does to the block [q] that existed before: nothing,
    unless the block is an operand with count zero, which it frees. *)
Definition spent (ops : list Value) (h h' : list (option Sequence)) (q : nat)
  : Prop :=
  h' !! q = h !! q \/
  (In (SeqV q) ops /\ h' !! q = Some None /\
   exists s, h !! q = Some (Some s) /\ ref s = 0).

(** The heap after an operator that has built one new sequence. *)
Definition built (ops : list Value) (h h' : list (option Sequence)) : Prop :=
  length h' = S (length h) /\
  (exists r, h' !! length h = Some (Some r) /\ ref r = 0) /\
  (forall q, (q < length h)%nat -> spent ops h h' q).

(** How a computation that copies elements ends: normally, with [Q], or at
    a capacity that cannot be doubled, which happens exactly when [E]. *)
Definition outcome {A} (r : Res Machine A) (Q : A -> Machine -> Prop) (E : Prop)
  : Prop :=
  match r with
  | Ok a m' => Q a m'
  | Exit f _ => f = Overflow /\ E
  | OutOfFuel => False
  end.

Lemma outcome_Ok {A} (r : Res Machine A) Q E :
  outcome r Q E -> ~ E -> exists a m', r = Ok a m' /\ Q a m'.
Proof. destruct r as [a m'|f m'|]; cbn; [eauto|tauto|done]. Qed.

Lemma outcome_Exit {A} (r : Res Machine A) Q E :
  outcome r Q E -> (forall a m', ~ Q a m') -> exists m', r = Exit Overflow m'.
Proof.
  destruct r as [a m'|f m'|]; cbn; [|intros [-> _] _; eauto|done].
  intros H HQ. now destruct (HQ a m').
Qed.

Lemma outcome_appendAll {A} m p s xs (k : M A) Q E :
  heap m !! p = Some (Some s) ->
  (canAppend xs s = false -> E) ->
  (canAppend xs s = true ->
   outcome (k (setHeap (<[p := Some (fold_left push_back xs s)]> (heap m)) m)) Q E) ->
  outcome ((run appendAll p xs then k) m) Q E.
Proof.
  intros H HE HQ. destruct (canAppend xs s) eqn:Hc.
  - rewrite (bind_Ok _ _ _ _ _ (appendAll_live xs m p s H Hc)). now apply HQ.
  - destruct (appendAll_overflow xs m p s H Hc) as [m' E'].
    rewrite (bind_Exit _ _ _ _ _ E'). split; [done|now apply HE].
Qed.

Ltac heap_rewrite :=
  machine_simpl; rewrite ?length_insert;
  repeat first
    [ rewrite list_lookup_insert_eq by heap_index
    | rewrite list_lookup_insert_ne by heap_index
    | rewrite list_lookup_middle by heap_index
    | rewrite lookup_app_l by heap_index ].

Lemma released_after_grab_zero s :
  ref s = 0 -> released (mkSequence (seq s) (cap s) (ref s + 1)) = None.
Proof. intros H. unfold released. simpl. rewrite H. reflexivity. Qed.

Lemma released_after_grab_held s :
  1 <= ref s -> released (mkSequence (seq s) (cap s) (ref s + 1)) = Some s.
Proof.
  intros H. unfold released. simpl.
  destruct (Z.eqb_spec (ref s + 1) 1); [lia|].
  replace (ref s + 1 - 1) with (ref s) by lia. now destruct s.
Qed.

(** The operand [p], grabbed and released once around the copy. *)
Ltac spent_operand p s :=
  destruct (Z.eq_dec (ref s) 0);
  [ right; split; [done|]; split; [|eauto];
    heap_rewrite; now rewrite released_after_grab_zero
  | left; heap_rewrite; rewrite released_after_grab_held by lia; done ].

(** What the operators that build a sequence promise: the value is the new
    block, which holds [xs] pushed one by one into an empty sequence; the
    operands are spent and nothing else has changed. *)
Definition builds (ops : list Value) (xs : list Z) (m : Machine)
  (v : Value) (m' : Machine) : Prop :=
  v = SeqV (length (heap m)) /\
  env m' = env m /\ stdout m' = stdout m /\
  built ops (heap m) (heap m') /\
  heap m' !! length (heap m) =
    Some (Some (fold_left push_back xs (mkSequence [] INIT_CAP 0))) /\
  canAppend xs (mkSequence [] INIT_CAP 0) = true.

(** The two ways such an operator ends, by the number of elements. *)
Lemma builds_cases ops xs m (r : Res Machine Value) :
  outcome r (builds ops xs m) (canAppend xs (mkSequence [] INIT_CAP 0) = false) ->
  (Z.of_nat (length xs) <= MAX_CAP ->
   exists m' b,
     r = Ok (SeqV (length (heap m))) m' /\
     heap m' !! length (heap m) = Some (Some b) /\
     seq b = xs /\ ref b = 0 /\ len b <= cap b) /\
  (MAX_CAP < Z.of_nat (length xs) -> exists m', r = Exit Overflow m').
Proof.
  intros H. rewrite canAppend_empty in H. split; intros Hn.
  - destruct (outcome_Ok _ _ _ H) as (v & m' & -> & -> & _ & _ & _ & Hb & Hc).
    { intros E. apply Z.leb_gt in E. lia. }
    eexists m', _. split; [reflexivity|]. split; [exact Hb|].
    rewrite seq_fold_push_back, ref_fold_push_back.
    split; [reflexivity|]. split; [reflexivity|]. now apply fold_push_back_fits.
  - apply (outcome_Exit _ _ _ H). intros v m' (_ & _ & _ & _ & _ & Hc).
    rewrite canAppend_empty in Hc. apply Z.leb_le in Hc. lia.
Qed.

Section SequenceOperators.

Variable svalBits : nat -> Z.

(** Adding two live sequences: the new block takes the elements of the
    first, then those of the second. *)
Lemma addSeqSeq_outcome m p1 p2 s1 s2 ops :
  heap m !! p1 = Some (Some s1) -> heap m !! p2 = Some (Some s2) ->
  0 <= ref s1 -> 0 <= ref s2 -> In (SeqV p1) ops -> In (SeqV p2) ops ->
  outcome (addSeqSeq (SeqV p1) (SeqV p2) m)
    (builds ops (seq s1 ++ seq s2) m)
    (canAppend (seq s1 ++ seq s2) (mkSequence [] INIT_CAP 0) = false).
Proof.
  intros H1 H2 R1 R2 Hin1 Hin2.
  assert (L1 : (p1 < length (heap m))%nat) by (eapply lookup_lt_Some; eauto).
  assert (L2 : (p2 < length (heap m))%nat) by (eapply lookup_lt_Some; eauto).
  rewrite canAppend_app.
  unfold addSeqSeq. cbn [sval]. rewrite !bind_ret.
  destruct (decide (p1 = p2)) as [->|Hne].
  - assert (s1 = s2) as -> by congruence.
    step grabSequence_live. step grabSequence_live.
    unfold bind at 1, makeSequence at 1. machine_simpl. rewrite ?length_insert.
    step getSeq_live.
    eapply outcome_appendAll; [heap_lookup|now intros ->|intros C1]. machine_simpl.
    step_release.
    unfold released at 1. simpl.
    destruct (Z.eqb_spec (ref s2 + 1 + 1) 1) as [|_]; [lia|].
    step getSeq_live.
    eapply outcome_appendAll; [heap_lookup|now intros ->; rewrite C1|intros C2].
    machine_simpl.
    step_release.
    cbn [ret outcome]. unfold builds. machine_simpl.
    do 3 (split; [reflexivity|]). rewrite canAppend_app, C1, C2.
    split; [|split; [|reflexivity]].
    + split; [heap_index|]. split.
      * eexists. split; [heap_lookup|]. now rewrite !ref_fold_push_back.
      * intros q Hq. destruct (decide (q = p2)) as [->|Hq2].
        -- replace (ref s2 + 1 + 1 - 1) with (ref s2 + 1) by lia.
           spent_operand p2 s2.
        -- left. heap_rewrite. done.
    + heap_rewrite. now rewrite fold_left_app.
  - step grabSequence_live. step grabSequence_live.
    unfold bind at 1, makeSequence at 1. machine_simpl. rewrite ?length_insert.
    step getSeq_live.
    eapply outcome_appendAll; [heap_lookup|now intros ->|intros C1]. machine_simpl.
    step_release.
    step getSeq_live.
    eapply outcome_appendAll; [heap_lookup|now intros ->; rewrite C1|intros C2].
    machine_simpl.
    step_release.
    cbn [ret outcome]. unfold builds. machine_simpl.
    do 3 (split; [reflexivity|]). rewrite canAppend_app, C1, C2.
    split; [|split; [|reflexivity]].
    + split; [heap_index|]. split.
      * eexists. split; [heap_lookup|]. now rewrite !ref_fold_push_back.
      * intros q Hq. destruct (decide (q = p1)) as [->|Hq1];
          [|destruct (decide (q = p2)) as [->|Hq2]].
        -- spent_operand p1 s1.
        -- spent_operand p2 s2.
        -- left. heap_rewrite. done.
    + heap_rewrite. now rewrite fold_left_app.
Qed.

(** Adding an [int] to a live sequence: the elements, then the [int]. *)
Lemma addSeqInt_outcome m p s v2 ops :
  heap m !! p = Some (Some s) -> 0 <= ref s -> In (SeqV p) ops ->
  outcome (addSeqInt svalBits (SeqV p) v2 m)
    (builds ops (seq s ++ [ival svalBits v2]) m)
    (canAppend (seq s ++ [ival svalBits v2]) (mkSequence [] INIT_CAP 0) = false).
Proof.
  intros H R Hin.
  assert (L : (p < length (heap m))%nat) by (eapply lookup_lt_Some; eauto).
  rewrite canAppend_app.
  unfold addSeqInt. cbn [sval]. rewrite !bind_ret.
  step grabSequence_live.
  unfold bind at 1, makeSequence at 1. machine_simpl. rewrite ?length_insert.
  step getSeq_live.
  eapply outcome_appendAll; [heap_lookup|now intros ->|intros C1]. machine_simpl.
  eapply outcome_appendAll; [heap_lookup|now intros ->; rewrite C1|intros C2].
  machine_simpl.
  step_release.
  cbn [ret outcome]. unfold builds. machine_simpl.
  do 3 (split; [reflexivity|]). rewrite canAppend_app, C1, C2.
  split; [|split; [|reflexivity]].
  - split; [heap_index|]. split.
    + eexists. split; [heap_lookup|]. now rewrite !ref_fold_push_back.
    + intros q Hq. destruct (decide (q = p)) as [->|Hne].
      * spent_operand p s.
      * left. heap_rewrite. done.
  - heap_rewrite. now rewrite fold_left_app.
Qed.

(** Adding a live sequence to an [int]: the [int], then the elements. *)
Lemma addIntSeq_outcome m p s v1 ops :
  heap m !! p = Some (Some s) -> 0 <= ref s -> In (SeqV p) ops ->
  outcome (addIntSeq svalBits v1 (SeqV p) m)
    (builds ops (ival svalBits v1 :: seq s) m)
    (canAppend (ival svalBits v1 :: seq s) (mkSequence [] INIT_CAP 0) = false).
Proof.
  intros H R Hin.
  assert (L : (p < length (heap m))%nat) by (eapply lookup_lt_Some; eauto).
  unfold addIntSeq. cbn [sval]. rewrite !bind_ret.
  step grabSequence_live.
  unfold bind at 1, makeSequence at 1. machine_simpl. rewrite ?length_insert.
  step getSeq_live. step putSeq_live.
  step getSeq_live.
  change (store (mkSequence [] INIT_CAP 0) (ival svalBits v1))
    with (push_back (mkSequence [] INIT_CAP 0) (ival svalBits v1)).
  eapply outcome_appendAll;
    [ heap_lookup
    | intros C; cbn [canAppend]; rewrite C; apply andb_false_r
    | intros C1 ].
  machine_simpl.
  step_release.
  cbn [ret outcome]. unfold builds. machine_simpl.
  do 3 (split; [reflexivity|]). cbn [canAppend fold_left]. rewrite C1.
  split; [|split; [|reflexivity]].
  - split; [heap_index|]. split.
    + eexists. split; [heap_lookup|]. now rewrite !ref_fold_push_back.
    + intros q Hq. destruct (decide (q = p)) as [->|Hne].
      * spent_operand p s.
      * left. heap_rewrite. done.
  - heap_rewrite. done.
Qed.

(** Multiplying a live sequence by any value repeats it as many times as
    the [ival] member of that value says. *)
Lemma repeatSeq_outcome m p s times ops :
  heap m !! p = Some (Some s) -> 0 <= ref s -> In (SeqV p) ops ->
  outcome (repeatSeq (SeqV p) times m)
    (builds ops (concat (replicate (Z.to_nat times) (seq s))) m)
    (canAppend (concat (replicate (Z.to_nat times) (seq s)))
       (mkSequence [] INIT_CAP 0) = false).
Proof.
  intros H R Hin.
  assert (L : (p < length (heap m))%nat) by (eapply lookup_lt_Some; eauto).
  unfold repeatSeq. cbn [sval]. rewrite !bind_ret.
  step grabSequence_live.
  unfold bind at 1, makeSequence at 1. machine_simpl. rewrite ?length_insert.
  step getSeq_live.
  eapply outcome_appendAll; [heap_lookup|done|intros C1]. machine_simpl.
  step_release.
  cbn [ret outcome]. unfold builds. machine_simpl.
  do 3 (split; [reflexivity|]).
  split; [|split; [|done]].
  - split; [heap_index|]. split.
    + eexists. split; [heap_lookup|]. now rewrite !ref_fold_push_back.
    + intros q Hq. destruct (decide (q = p)) as [->|Hne].
      * spent_operand p s.
      * left. heap_rewrite. done.
  - heap_rewrite. done.
Qed.

(** Printing a live sequence writes its elements as bytes. *)
Lemma executePrint_live m p s :
  heap m !! p = Some (Some s) -> 0 <= ref s ->
  executePrint svalBits (SeqV p) m =
  Ok tt (mkMachine (env m)
                   (<[p := if ref s =? 0 then None else Some s]> (heap m))
                   (stdout m +:+ String.concat EmptyString (map byte (seq s)))).
Proof.
  intros H R.
  assert (L : (p < length (heap m))%nat) by (eapply lookup_lt_Some; eauto).
  unfold executePrint. cbn [isIntType vtype sameType sval]. rewrite !bind_ret.
  step grabSequence_live. step getSeq_live.
  unfold bind at 1, write at 1. simpl.
  erewrite releaseSequence_live; [| heap_lookup | simpl; lia].
  unfold released, setHeap. simpl. rewrite list_insert_insert_eq.
  destruct (Z.eqb_spec (ref s + 1) 1), (Z.eqb_spec (ref s) 0); try lia; [done|].
  replace (ref s + 1 - 1) with (ref s) by lia. now destruct s.
Qed.

End SequenceOperators.

(** ** The order on sequences *)

(** The lexicographic order in the words of the language definition: the
    first index at which the sequences differ decides, and a strict prefix
    is less than the longer sequence. *)
Definition lexLess (a b : list Z) : Prop :=
  (exists i x y, a !! i = Some x /\ b !! i = Some y /\ x < y /\ take i a = take i b)
  \/ (exists c, c <> [] /\ b = a ++ c).

Definition lessList (a b : list Z) : Z :=
  lessSequence (mkSequence a 0 0) (mkSequence b 0 0).

Definition equalsList (a b : list Z) : Z :=
  equalsSequence (mkSequence a 0 0) (mkSequence b 0 0).

Lemma lessSequence_lessList s1 s2 : lessSequence s1 s2 = lessList (seq s1) (seq s2).
Proof. reflexivity. Qed.

Lemma equalsSequence_equalsList s1 s2 :
  equalsSequence s1 s2 = equalsList (seq s1) (seq s2).
Proof. reflexivity. Qed.

Lemma lessList_nil_l b : lessList [] b = if b is [] then 0 else 1.
Proof. now destruct b. Qed.

Lemma lessList_nil_r a : lessList a [] = 0.
Proof. now destruct a. Qed.

Lemma lessList_cons x y a b :
  lessList (x :: a) (y :: b) =
  if x >? y then 0 else if x <? y then 1 else lessList a b.
Proof.
  unfold lessList, lessSequence, len. simpl.
  destruct (x >? y); [done|]. destruct (x <? y); [done|].
  destruct (lessLoop (combine a b)); [done|].
  rewrite !Nat2Z.inj_succ.
  destruct (Z.ltb_spec (Z.succ (Z.of_nat (length a))) (Z.succ (Z.of_nat (length b)))),
    (Z.ltb_spec (Z.of_nat (length a)) (Z.of_nat (length b))); lia.
Qed.

Lemma equalsList_nil_l b : equalsList [] b = if b is [] then 1 else 0.
Proof. now destruct b. Qed.

Lemma equalsList_nil_r a : equalsList a [] = if a is [] then 1 else 0.
Proof. now destruct a. Qed.

Lemma equalsList_cons x y a b :
  equalsList (x :: a) (y :: b) = if x =? y then equalsList a b else 0.
Proof.
  unfold equalsList, equalsSequence, len. cbn [seq combine equalsLoop length].
  rewrite !Nat2Z.inj_succ.
  destruct (Z.eqb_spec (Z.succ (Z.of_nat (length a))) (Z.succ (Z.of_nat (length b)))),
    (Z.eqb_spec (Z.of_nat (length a)) (Z.of_nat (length b))); try lia; simpl;
    now destruct (x =? y).
Qed.

(** [lessList] decides the lexicographic order. *)
Lemma lessList_lexLess a b : lessList a b = 1 <-> lexLess a b.
Proof.
  revert b. induction a as [|x a IH]; intros [|y b].
  - rewrite lessList_nil_l. split; [done|].
    intros [(i & ? & ? & H & _)|(c & Hc & E)]; [done|]. now destruct c.
  - rewrite lessList_nil_l. split; [|done].
    intros _. right. now exists (y :: b).
  - rewrite lessList_nil_r. split; [done|].
    intros [(i & ? & ? & _ & H & _)|(c & Hc & E)]; [done|]. done.
  - rewrite lessList_cons.
    destruct (Z.gtb_spec x y) as [Hgt|Hle].
    + split; [done|].
      intros [(i & x' & y' & Hx & Hy & Hlt & Ht)|(c & Hc & E)].
      * destruct i as [|i]; simpl in *; [simplify_eq; lia|]. simplify_eq. lia.
      * simpl in E. simplify_eq. lia.
    + destruct (Z.ltb_spec x y) as [Hlt|Hge].
      * split; [|done]. intros _. left. exists O, x, y. simpl. auto.
      * assert (x = y) as -> by lia. rewrite IH. split.
        -- intros [(i & x' & y' & Hx & Hy & Hlt & Ht)|(c & Hc & E)].
           ++ left. exists (S i), x', y'. simpl. rewrite Ht. auto.
           ++ right. exists c. simpl. now rewrite E.
        -- intros [(i & x' & y' & Hx & Hy & Hlt & Ht)|(c & Hc & E)].
           ++ destruct i as [|i]; simpl in *; [simplify_eq; lia|].
              left. exists i, x', y'. simplify_eq. auto.
           ++ right. exists c. simpl in E. simplify_eq. auto.
Qed.

(** [equalsList] decides equality. *)
Lemma equalsList_eq a b : equalsList a b = 1 <-> a = b.
Proof.
  revert b. induction a as [|x a IH]; intros [|y b].
  - now rewrite equalsList_nil_l.
  - now rewrite equalsList_nil_l.
  - now rewrite equalsList_nil_r.
  - rewrite equalsList_cons. destruct (Z.eqb_spec x y) as [->|Hne].
    + rewrite IH. split; congruence.
    + split; [done | congruence].
Qed.

(** Of the three comparisons exactly one yields 1, and the others 0. *)
Lemma comparison_trichotomy a b :
  let l := lessList a b in
  let e := equalsList a b in
  let g := lessList b a in
  (l = 1 /\ e = 0 /\ g = 0) \/ (l = 0 /\ e = 1 /\ g = 0) \/ (l = 0 /\ e = 0 /\ g = 1).
Proof.
  revert b. induction a as [|x a IH]; intros [|y b]; cbv zeta.
  - rewrite lessList_nil_l, equalsList_nil_l. auto.
  - rewrite lessList_nil_l, lessList_nil_r, equalsList_nil_l. auto.
  - rewrite lessList_nil_l, lessList_nil_r, equalsList_nil_r. auto.
  - rewrite !lessList_cons, equalsList_cons.
    destruct (Z.gtb_spec x y), (Z.ltb_spec x y), (Z.gtb_spec y x),
      (Z.ltb_spec y x), (Z.eqb_spec x y); try lia; auto.
Qed.

(** ** The environment *)

Lemma lookupRec_unbound vl n :
  Forall (fun r => c_str (name r) <> c_str n) vl -> lookupRec vl n = IntV 0.
Proof.
  induction 1 as [|r vl Hr _ IH]; simpl; [done|].
  unfold streq. now apply String.eqb_neq in Hr as ->.
Qed.

(** ** The driver *)

Section Driver.

Variable svalBits : nat -> Z.

Lemma mainLoop_statement f fp m tok fp1 stmt fp2 m1 :
  parseToken fp = Ok (Some tok) fp1 ->
  parseStmt f tok fp1 = Ok stmt fp2 ->
  execute svalBits f stmt m = Ok tt m1 ->
  mainLoop svalBits (S f) fp m = mainLoop svalBits f fp2 m1.
Proof.
  intros Ht Hp He. cbn [mainLoop]. rewrite Ht, Hp.
  now rewrite (bind_Ok _ _ _ _ _ He).
Qed.

Lemma mainLoop_end f fp fp1 m m1 :
  parseToken fp = Ok None fp1 ->
  freeEnvironment m = Ok tt m1 ->
  mainLoop svalBits (S f) fp m = Ok EXIT_SUCCESS m1.
Proof.
  intros Ht Hf. cbn [mainLoop]. rewrite Ht.
  now rewrite (bind_Ok _ _ _ _ _ Hf).
Qed.

Lemma mainLoop_failure f fp tok fp1 stmt fp2 m e m1 :
  parseToken fp = Ok (Some tok) fp1 ->
  parseStmt f tok fp1 = Ok stmt fp2 ->
  execute svalBits f stmt m = Exit e m1 ->
  mainLoop svalBits (S f) fp m = Exit e m1.
Proof.
  intros Ht Hp He. cbn [mainLoop]. rewrite Ht, Hp.
  now rewrite (bind_Exit _ _ _ _ _ He).
Qed.

End Driver.

(** * The claims about evaluation *)

Section EvaluationClaims.

Variable svalBits : nat -> Z.

(** C1 (as the code has it).  The program [print 2 + 3 * 4;] is parsed
    with all operators at one level, as [(2 + 3) * 4]: with enough fuel the
    run writes exactly [20] to the standard output and [main] returns 0. *)
Theorem C1_print_flat_precedence (k : nat) :
  interpret svalBits (6 + k) "print 2 + 3 * 4;" =
  Ok EXIT_SUCCESS (mkMachine makeEnvironment [] "20").
Proof. vm_compute. reflexivity. Qed.

(** C2 (what the code does on the failing input).  The program
    [print [1] * [2];] multiplies two sequences.  No type mismatch is
    reported, whatever the pointer of the right operand is: the first test
    of [evalMul] takes the repetition branch, and the repetition count is
    the [ival] member of the right operand (the bits of its pointer).  When
    that count is at most [MAX_CAP], the run prints so many bytes 1 and
    [main] returns 0; when it is larger, the copy loop doubles the capacity
    beyond [INT_MAX] and the run ends there. *)
Theorem C2_seq_times_seq_is_not_rejected (k : nat) :
  match interpret svalBits (8 + k) "print [1] * [2];" with
  | Ok status m =>
      status = EXIT_SUCCESS /\
      svalBits 1 <= MAX_CAP /\
      stdout m =
      String.concat EmptyString
        (map byte (concat (replicate (Z.to_nat (svalBits 1)) [1])))
  | Exit f _ => f = Overflow /\ MAX_CAP < svalBits 1
  | OutOfFuel => False
  end.
Proof.
  set (e := Mul (SequenceInitializer [LiteralInt 1])
                (SequenceInitializer [LiteralInt 2])).
  set (body := concat (replicate (Z.to_nat (svalBits 1)) [1])).
  set (m0 := mkMachine makeEnvironment [] EmptyString).
  set (m2 := mkMachine makeEnvironment
               [Some (mkSequence [1] INIT_CAP 0); Some (mkSequence [2] INIT_CAP 0)]
               EmptyString).
  assert (Heval : eval svalBits e m0 = repeatSeq (SeqV 0) (svalBits 1) m2)
    by reflexivity.
  assert (Hlen : Z.of_nat (length body) = Z.max 0 (svalBits 1)).
  { subst body. rewrite length_concat_replicate. cbn [length]. lia. }
  assert (Hmax : 0 < MAX_CAP) by reflexivity.
  assert (Htok : parseToken (mkInput "print [1] * [2];" 1) =
                 Ok (Some "print") (mkInput " [1] * [2];" 1))
    by (vm_compute; reflexivity).
  assert (Hstmt : parseStmt (S (6 + k)) "print" (mkInput " [1] * [2];" 1) =
                  Ok (PrintStmt e) (mkInput EmptyString 1))
    by (vm_compute; reflexivity).
  pose proof (repeatSeq_outcome m2 0 (mkSequence [1] INIT_CAP 0) (svalBits 1)
                [SeqV 0] eq_refl) as Hrep.
  cbn [ref seq] in Hrep. fold body in Hrep. rewrite canAppend_empty in Hrep.
  specialize (Hrep ltac:(lia) ltac:(simpl; auto)).
  unfold interpret. change (8 + k)%nat with (S (S (6 + k))). fold m0.
  destruct (Z.leb_spec (Z.of_nat (length body)) MAX_CAP) as [Hfit|Hbig].
  - destruct (outcome_Ok _ _ _ Hrep) as (v & m3 & E3 & Hv & He & Ho & Hb & Hr & _);
      [discriminate|].
    change (length (heap m2)) with 2%nat in Hv, Hr. subst v.
    assert (Hexec : execute svalBits (S (6 + k)) (PrintStmt e) m0 =
                    Ok tt (mkMachine (env m3) (<[2%nat := None]> (heap m3))
                             (String.concat EmptyString (map byte body)))).
    { cbn [execute]. rewrite (bind_Ok _ _ _ _ _ (eq_trans Heval E3)).
      erewrite executePrint_live;
        [ | exact Hr | rewrite ref_fold_push_back; cbn [ref]; lia ].
      rewrite seq_fold_push_back, ref_fold_push_back, Ho. reflexivity. }
    rewrite (mainLoop_statement svalBits _ _ _ _ _ _ _ _ Htok Hstmt Hexec).
    erewrite (mainLoop_end svalBits _ _ (mkInput EmptyString 1));
      [ | reflexivity | unfold freeEnvironment; cbn [env]; rewrite He; reflexivity ].
    cbn [stdout]. repeat split. lia.
  - destruct (outcome_Exit _ _ _ Hrep) as [m3 E3].
    { intros v m3 (_ & _ & _ & _ & _ & Hc). rewrite canAppend_empty in Hc.
      apply Z.leb_le in Hc. lia. }
    assert (Hexec : execute svalBits (S (6 + k)) (PrintStmt e) m0 = Exit Overflow m3).
    { cbn [execute]. now rewrite (bind_Exit _ _ _ _ _ (eq_trans Heval E3)). }
    rewrite (mainLoop_failure svalBits _ _ _ _ _ _ _ _ _ Htok Hstmt Hexec).
    split; [reflexivity|lia].
Qed.

(** C3 (what the code does on the failing input).  In
    [a = [1,2,3]; a[0] = [9]; print a[0];] the right-hand side of the
    indexed assignment is a sequence.  No type mismatch is reported: the
    [ival] member of the sequence value is stored in [a[0]] and printed,
    the block of [[9]] is never released, and [main] returns 0. *)
Theorem C3_indexed_assignment_accepts_sequence (k : nat) :
  interpret svalBits (9 + k) "a = [1,2,3]; a[0] = [9]; print a[0];" =
  Ok EXIT_SUCCESS
     (mkMachine (mkEnvironment [mkVarRec "a" (SeqV 0)] INIT_CAP)
                [None; Some (mkSequence [9] INIT_CAP 0)]
                (decimal (svalBits 1))).
Proof. reflexivity. Qed.

(** C4 (what the code does on the failing input).  The program
    [print [1] == [1];] ends normally, having printed 1, but the blocks of
    both sequences are still allocated, with reference count 0:
    [evalEquals] never releases its operands. *)
Theorem C4_equals_leaks_operands (k : nat) :
  interpret svalBits (8 + k) "print [1] == [1];" =
  Ok EXIT_SUCCESS
     (mkMachine makeEnvironment
                [Some (mkSequence [1] INIT_CAP 0); Some (mkSequence [1] INIT_CAP 0)]
                "1").
Proof. vm_compute. reflexivity. Qed.

(** C6.  Let two expressions evaluate, without changing the machine, to the
    sequences [a] and [b].  Then [<] yields 1 exactly when [a] is before [b]
    in the lexicographic order (first differing element, or strict prefix),
    [==] yields 1 exactly when the elements are equal, and exactly one of
    [a < b], [a == b], [b < a] evaluates to 1 while the other two evaluate
    to 0. *)
Theorem C6_sequence_order e1 e2 m p1 p2 a b :
  eval svalBits e1 m = Ok (SeqV p1) m ->
  eval svalBits e2 m = Ok (SeqV p2) m ->
  heap m !! p1 = Some (Some a) ->
  heap m !! p2 = Some (Some b) ->
  exists l e g,
    eval svalBits (Less e1 e2) m = Ok (IntV l) m /\
    eval svalBits (Equals e1 e2) m = Ok (IntV e) m /\
    eval svalBits (Less e2 e1) m = Ok (IntV g) m /\
    (l = 1 <-> lexLess (seq a) (seq b)) /\
    (e = 1 <-> seq a = seq b) /\
    (g = 1 <-> lexLess (seq b) (seq a)) /\
    ((l = 1 /\ e = 0 /\ g = 0) \/ (l = 0 /\ e = 1 /\ g = 0)
     \/ (l = 0 /\ e = 0 /\ g = 1)).
Proof.
  intros E1 E2 H1 H2.
  exists (lessList (seq a) (seq b)), (equalsList (seq a) (seq b)),
    (lessList (seq b) (seq a)).
  repeat split.
  - cbn [eval]. rewrite (bind_Ok _ _ _ _ _ E1), (bind_Ok _ _ _ _ _ E2).
    unfold evalLess. cbn [vtype sameType negb isIntType sval]. rewrite !bind_ret.
    now rewrite (bind_Ok _ _ _ _ _ (getSeq_live _ _ _ H1)),
      (bind_Ok _ _ _ _ _ (getSeq_live _ _ _ H2)).
  - cbn [eval]. rewrite (bind_Ok _ _ _ _ _ E1), (bind_Ok _ _ _ _ _ E2).
    unfold evalEquals. cbn [vtype sameType negb isIntType isSeqType sval andb orb].
    rewrite !bind_ret.
    now rewrite (bind_Ok _ _ _ _ _ (getSeq_live _ _ _ H1)),
      (bind_Ok _ _ _ _ _ (getSeq_live _ _ _ H2)).
  - cbn [eval]. rewrite (bind_Ok _ _ _ _ _ E2), (bind_Ok _ _ _ _ _ E1).
    unfold evalLess. cbn [vtype sameType negb isIntType sval]. rewrite !bind_ret.
    now rewrite (bind_Ok _ _ _ _ _ (getSeq_live _ _ _ H2)),
      (bind_Ok _ _ _ _ _ (getSeq_live _ _ _ H1)).
  - apply lessList_lexLess.
  - apply lessList_lexLess.
  - apply equalsList_eq.
  - apply equalsList_eq.
  - apply lessList_lexLess.
  - apply lessList_lexLess.
  - apply comparison_trichotomy.
Qed.


(** C8.  If no record of the environment carries the name, then
    [lookupVariable] returns the integer 0, and evaluating the variable
    succeeds with that value. *)
Theorem C8_unbound_variable_reads_zero m n :
  Forall (fun r => c_str (name r) <> c_str n) (vlist (env m)) ->
  lookupVariable (env m) n = IntV 0 /\
  eval svalBits (VariableExpr n) m = Ok (IntV 0) m.
Proof.
  intros H. pose proof (lookupRec_unbound _ _ H) as E.
  split; [exact E|]. cbn [eval]. unfold evalVariable, lookup, lookupVariable.
  now rewrite E.
Qed.

(** C10.  Evaluating a variable returns what [lookupVariable] finds and
    leaves the machine as it was: the records of the environment, every
    block of the heap with its reference count, and the output. *)
Theorem C10_variable_read_is_pure m n :
  exists v m',
    eval svalBits (VariableExpr n) m = Ok v m' /\
    v = lookupVariable (env m) n /\
    env m' = env m /\ heap m' = heap m /\ stdout m' = stdout m.
Proof. exists (lookupVariable (env m) n), m. now repeat split. Qed.

End EvaluationClaims.

(** * The claims about the tokenizer and the parser *)

(** ** Runs of characters *)

Definition startsWith (p : ascii -> bool) (s : string) : bool :=
  match s with
  | EmptyString => false
  | String c _ => p c
  end.

Lemma scanWhile_run p cs rest len :
  all_chars p cs = true ->
  (len + String.length cs <= MAX_TOKEN)%nat ->
  startsWith p rest = false ->
  scanWhile p len (cs +:+ rest) = Some (cs, rest).
Proof.
  revert len. induction cs as [|c cs IH]; intros len Hall Hlen Hrest.
  - destruct rest as [|c0 r]; simpl in *; [done|]. now rewrite Hrest.
  - cbn [all_chars] in Hall. apply andb_prop in Hall as [Hc Hall].
    change (String c cs +:+ rest) with (String c (cs +:+ rest)).
    cbn [scanWhile String.length] in *. rewrite Hc.
    destruct (Nat.leb_spec MAX_TOKEN len) as [Hle|_]; [lia|].
    rewrite IH; [done | done | lia | done].
Qed.

Lemma isdigit_not_nul c : isdigit c = true -> Ascii.eqb c zero = false.
Proof.
  intros H. apply Ascii.eqb_neq. intros ->. discriminate.
Qed.

Lemma c_str_digits ds : all_chars isdigit ds = true -> c_str ds = ds.
Proof.
  induction ds as [|c ds IH]; [done|].
  cbn [all_chars c_str]. intros [Hc Hall]%andb_prop.
  now rewrite (isdigit_not_nul _ Hc), IH.
Qed.

(** ** A minus sign in front of a digit *)

Lemma parseToken_minus_digits ds rest line :
  all_chars isdigit ds = true ->
  (S (String.length ds) <= MAX_TOKEN)%nat ->
  startsWith isdigit rest = false ->
  parseToken (mkInput (String "-" (ds +:+ rest)) line) =
  Ok (Some (String "-" ds)) (mkInput rest line).
Proof.
  intros Hall Hlen Hrest. unfold parseToken.
  cbn [chars lineCount skipBlanks]. 
  change (Ascii.eqb "-" "#") with false. change (isspace "-") with false.
  cbv iota. change (isalpha "-" || Ascii.eqb "-" "_")%bool with false.
  change (Ascii.eqb "-" "-" || isdigit "-")%bool with true. cbv iota.
  now rewrite scanWhile_run.
Qed.

Lemma minus_digits_not_operator d ds :
  isdigit d = true ->
  isInfixOperator (String "-" (String d ds)) = false /\
  isTerminator (String "-" (String d ds)) = false /\
  streq (String "-" (String d ds)) "(" = false.
Proof.
  intros Hd. unfold isInfixOperator, isTerminator, streq.
  cbn [c_str]. change (Ascii.eqb "-" zero) with false. cbv iota.
  rewrite (isdigit_not_nul _ Hd). now vm_compute.
Qed.

(** C9.  When the tokenizer stands at a [-] that is followed by a run of
    digits [ds] (not longer than a token may be), it returns the single token
    [-ds]; that token is an integer literal for [parseTerm]; and where
    [parseExpr] looks for an operator after a left operand, the token is
    neither an operator nor a terminator, so the parser exits with a syntax
    error on that line instead of building a subtraction. *)
Theorem C9_minus_before_digit ds rest line :
  all_chars isdigit ds = true ->
  ds <> EmptyString ->
  (S (String.length ds) <= MAX_TOKEN)%nat ->
  startsWith isdigit rest = false ->
  parseToken (mkInput (String "-" (ds +:+ rest)) line) =
    Ok (Some (String "-" ds)) (mkInput rest line) /\
  (forall fuel fp,
      parseTerm (S fuel) (String "-" ds) fp =
      Ok (LiteralInt (wrap32 (clampLong (- digitsValue 0 ds)))) fp) /\
  (forall fuel left,
      infixLoop (S fuel) left (mkInput (String "-" (ds +:+ rest)) line) =
      Exit (SyntaxError line) (mkInput rest line)).
Proof.
  intros Hall Hne Hlen Hrest.
  pose proof (parseToken_minus_digits ds rest line Hall Hlen Hrest) as Htok.
  destruct ds as [|d ds]; [done|].
  pose proof Hall as Hall'. cbn [all_chars] in Hall'.
  apply andb_prop in Hall' as [Hd Hds].
  destruct (minus_digits_not_operator d ds Hd) as (Hop & Hterm & Hparen).
  split; [exact Htok|]. split.
  - intros fuel fp. cbn [parseTerm]. rewrite Hparen.
    cbn [first]. change (Ascii.eqb "-" "-" || isdigit "-")%bool with true.
    cbv iota. cbn [c_str]. change (Ascii.eqb "-" zero) with false. cbv iota.
    rewrite (isdigit_not_nul _ Hd), (c_str_digits ds Hds).
    unfold scanInt. change (Ascii.eqb "-" "-") with true. cbv iota.
    rewrite Hall. reflexivity.
  - intros fuel left. cbn [infixLoop]. unfold bind at 1, expectToken.
    rewrite Htok. rewrite Hop, Hterm. reflexivity.
Qed.

(** ** Chains of infix operators *)

Inductive InfixOp : Type :=
| OpAdd | OpSub | OpMul | OpDiv | OpLess | OpEquals | OpAnd | OpOr | OpIndex.

Definition opToken (o : InfixOp) : string :=
  match o with
  | OpAdd => "+" | OpSub => "-" | OpMul => "*" | OpDiv => "/"
  | OpLess => "<" | OpEquals => "==" | OpAnd => "&&" | OpOr => "||"
  | OpIndex => "["
  end.

Definition applyOp (o : InfixOp) (left right : Expr) : Expr :=
  match o with
  | OpAdd => Add left right | OpSub => Sub left right
  | OpMul => Mul left right | OpDiv => Div left right
  | OpLess => Less left right | OpEquals => Equals left right
  | OpAnd => And left right | OpOr => Or left right
  | OpIndex => SequenceIndex left right
  end.

(** One more operator and operand of a chain: the operator, the text of the
    operand and the expression that the operand stands for. *)
Record Link : Type := mkLink { linkOp : InfixOp; linkText : string; linkExpr : Expr }.

(** [Operand d w r]: wherever the text [w] stands between two blanks,
    [parseTerm] (with fuel [d] or more) reads it as the expression [r] and
    stops in front of the second blank. *)
Definition Operand (d : nat) (w : string) (r : Expr) : Prop :=
  forall fuel rest line,
    (d <= fuel)%nat ->
    (let* tok := expectToken in parseTerm fuel tok)
      (mkInput (String " " (w +:+ String " " rest)) line) =
    Ok r (mkInput (String " " rest) line).

(** The text of a link in front of the text [k]: the operator and the
    operand, each after a blank, and for the index operator its closing
    bracket. *)
Definition linkBefore (l : Link) (k : string) : string :=
  String " " (opToken (linkOp l) +:+
    String " " (linkText l +:+
      match linkOp l with
      | OpIndex => String " " (String "]" k)
      | _ => k
      end)).

Definition chainBefore (links : list Link) (k : string) : string :=
  foldr linkBefore k links.

Definition applyLink (left : Expr) (l : Link) : Expr :=
  applyOp (linkOp l) left (linkExpr l).

Lemma expectToken_operator o rest line :
  expectToken (mkInput (String " " (opToken o +:+ String " " rest)) line) =
  Ok (opToken o) (mkInput (String " " rest) line).
Proof. destruct o; vm_compute; reflexivity. Qed.

Lemma isInfixOperator_opToken o : isInfixOperator (opToken o) = true.
Proof. destruct o; reflexivity. Qed.

Lemma makeBinary_opToken o left right :
  makeBinary (opToken o) left right =
  match o with
  | OpIndex => None
  | _ => Some (applyOp o left right)
  end.
Proof. destruct o; reflexivity. Qed.

Lemma requireToken_bracket rest line :
  requireToken "]" (mkInput (String " " (String "]" (String " " rest))) line) =
  Ok tt (mkInput (String " " rest) line).
Proof. vm_compute. reflexivity. Qed.

Lemma operand_then {B} d w r (k : Expr -> Input -> Res Input B) fuel rest line :
  Operand d w r ->
  (d <= fuel)%nat ->
  (let* tok := expectToken in let* right := parseTerm fuel tok in k right)
    (mkInput (String " " (w +:+ String " " rest)) line) =
  k r (mkInput (String " " rest) line).
Proof.
  intros H Hd. specialize (H fuel rest line Hd). unfold bind in *.
  destruct (expectToken _) as [tok fp| |]; [|done|done].
  destruct (parseTerm fuel tok fp) as [e fp'| |]; [|done|done].
  now simplify_eq.
Qed.

(** One turn of the loop of [parseExpr]. *)
Lemma infixLoop_link d l fuel left rest line :
  Operand d (linkText l) (linkExpr l) ->
  (d <= fuel)%nat ->
  infixLoop (S fuel) left (mkInput (linkBefore l (String " " rest)) line) =
  infixLoop fuel (applyLink left l) (mkInput (String " " rest) line).
Proof.
  intros Hop Hd. destruct l as [o w r]. unfold linkBefore, applyLink.
  cbn [linkOp linkText linkExpr] in *. cbn [infixLoop].
  rewrite (bind_Ok _ _ _ _ _ (expectToken_operator _ _ _)).
  rewrite isInfixOperator_opToken.
  destruct o; rewrite (operand_then d w r) by done; rewrite makeBinary_opToken;
    reflexivity.
Qed.

Lemma chainBefore_blank links tail :
  exists rest, chainBefore links (String " " tail) = String " " rest.
Proof. destruct links as [|l links]; simpl; eauto. Qed.

(** The whole loop, for a chain of any length. *)
Lemma infixLoop_chain d links :
  Forall (fun l => Operand d (linkText l) (linkExpr l)) links ->
  forall fuel left tail line,
    (d <= fuel)%nat ->
    infixLoop (length links + fuel) left
      (mkInput (chainBefore links (String " " tail)) line) =
    infixLoop fuel (fold_left applyLink links left) (mkInput (String " " tail) line).
Proof.
  induction 1 as [|l links Hl _ IH]; intros fuel left tail line Hfuel; [done|].
  cbn [length Nat.add chainBefore foldr fold_left] in *.
  destruct (chainBefore_blank links tail) as [rest Hrest].
  unfold chainBefore in Hrest, IH. rewrite Hrest.
  rewrite (infixLoop_link d); [ | done | lia ].
  rewrite <- Hrest. now apply IH.
Qed.

(** A token that is none of the nine operators does not pass
    [isInfixOperator]. *)
Lemma isInfixOperator_other t :
  (forall o, c_str t <> opToken o) -> isInfixOperator t = false.
Proof.
  intros H. unfold isInfixOperator, streq.
  repeat match goal with
         | |- context [String.eqb (c_str t) ?x] =>
             destruct (String.eqb_spec (c_str t) x) as [E|_];
             [ exfalso;
               first [ exact (H OpAdd E) | exact (H OpSub E) | exact (H OpMul E)
                     | exact (H OpDiv E) | exact (H OpLess E) | exact (H OpEquals E)
                     | exact (H OpAnd E) | exact (H OpOr E) | exact (H OpIndex E) ]
             | ]
         end.
  reflexivity.
Qed.

(** The tokens that pass [isTerminator] are the four terminators. *)
Lemma isTerminator_tokens t :
  isTerminator t = true <->
  c_str t = ";" \/ c_str t = ")" \/ c_str t = "]" \/ c_str t = ",".
Proof.
  unfold isTerminator, streq. rewrite !orb_true_iff, !String.eqb_eq.
  change (c_str ";") with ";". change (c_str ")") with ")".
  change (c_str "]") with "]". change (c_str ",") with ",". tauto.
Qed.

(** C5.  Let the first operand be parsed as [left], and let a chain of
    links follow it in the input: each link is any of the nine infix
    operators [+ - * / < == && || [] with an operand (for [[] also the
    closing bracket).  Whatever the operators are, [parseExpr] folds the
    chain from the left: each link takes everything parsed so far as its left
    operand.  The expression ends at the first token [t] that is none of the
    nine operators: if [t] is one of [;], [)], []], [,] the expression is
    returned and the first character of [t] is put back in front of the
    input; if [t] is any other token the parser exits with a syntax error. *)
Theorem C5_flat_left_associative d links fuel tok fp0 left tail line t fp' :
  Forall (fun l => Operand d (linkText l) (linkExpr l)) links ->
  (d <= fuel)%nat ->
  (1 <= fuel)%nat ->
  parseTerm (length links + fuel) tok fp0 =
    Ok left (mkInput (chainBefore links (String " " tail)) line) ->
  expectToken (mkInput (String " " tail) line) = Ok t fp' ->
  (forall o, c_str t <> opToken o) ->
  (c_str t = ";" \/ c_str t = ")" \/ c_str t = "]" \/ c_str t = "," ->
   parseExpr (S (length links + fuel)) tok fp0 =
   Ok (fold_left applyLink links left)
      (mkInput (ungetc (first t) (chars fp')) (lineCount fp'))) /\
  (c_str t <> ";" /\ c_str t <> ")" /\ c_str t <> "]" /\ c_str t <> "," ->
   parseExpr (S (length links + fuel)) tok fp0 =
   Exit (SyntaxError (lineCount fp')) fp').
Proof.
  intros Hops Hd Hfuel Hleft Ht Hnot.
  assert (Hrun : parseExpr (S (length links + fuel)) tok fp0 =
                 if isTerminator t
                 then Ok (fold_left applyLink links left)
                        (mkInput (ungetc (first t) (chars fp')) (lineCount fp'))
                 else Exit (SyntaxError (lineCount fp')) fp').
  { cbn [parseExpr]. rewrite (bind_Ok _ _ _ _ _ Hleft).
    rewrite (infixLoop_chain d links Hops fuel left tail line Hd).
    destruct fuel as [|fuel]; [lia|]. cbn [infixLoop].
    rewrite (bind_Ok _ _ _ _ _ Ht). rewrite (isInfixOperator_other t Hnot).
    now destruct (isTerminator t). }
  rewrite Hrun. split.
  - intros Hterm. apply isTerminator_tokens in Hterm. now rewrite Hterm.
  - intros Hother. destruct (isTerminator t) eqn:E; [|reflexivity].
    apply isTerminator_tokens in E. tauto.
Qed.

(** ** Identifiers as operands *)

Definition idchar (c : ascii) : bool := (isalnum c || Ascii.eqb c "_")%bool.

Lemma idstart_facts c :
  (isalpha c || Ascii.eqb c "_")%bool = true ->
  Ascii.eqb c "#" = false /\ isspace c = false /\ Ascii.eqb c "-" = false /\
  isdigit c = false /\ Ascii.eqb c SQUOTE = false /\ Ascii.eqb c "(" = false /\
  Ascii.eqb c zero = false.
Proof.
  destruct c as [[] [] [] [] [] [] [] []]; intros H; vm_compute in H;
    try discriminate H; vm_compute; auto 10.
Qed.

Lemma c_str_fixed c cs :
  c_str (String c cs) = String c cs -> Ascii.eqb c zero = false /\ c_str cs = cs.
Proof.
  cbn [c_str]. destruct (Ascii.eqb c zero); [done|]. intros H. split; congruence.
Qed.

(** Every legal identifier is read as a variable wherever it stands between
    blanks. *)
Lemma identifier_operand x :
  isIdentifier x = true -> c_str x = x -> Operand 1 x (VariableExpr x).
Proof.
  intros Hid Hx fuel rest line Hfuel.
  destruct x as [|c cs]; [discriminate Hid|].
  destruct (c_str_fixed c cs Hx) as [Hc0 Hcs].
  pose proof Hid as Hid'. unfold isIdentifier in Hid'. cbn [first] in Hid'.
  destruct (isalpha c || Ascii.eqb c "_")%bool eqn:Hstart; cycle 1.
  { apply orb_false_elim in Hstart as [Ha Hb]. rewrite Ha, Hb in Hid'.
    discriminate Hid'. }
  replace (negb (isalpha c) && negb (Ascii.eqb c "_"))%bool with false in Hid'
    by (symmetry; rewrite <- negb_orb, Hstart; reflexivity).
  rewrite Hcs in Hid'. fold idchar in Hid'.
  destruct (all_chars idchar cs) eqn:Hall; [|discriminate Hid'].
  cbn [negb] in Hid'.
  destruct (Nat.ltb_spec MAX_VAR_NAME (strlen (String c cs))) as [|Hlen];
    [discriminate Hid'|].
  unfold strlen in Hlen. rewrite Hx in Hlen. cbn [String.length] in Hlen.
  destruct (idstart_facts c Hstart) as (Hhash & Hsp & Hminus & Hdig & Hsq & Hpar & _).
  assert (Htok :
    expectToken (mkInput (String " " (String c cs +:+ String " " rest)) line) =
    Ok (String c cs) (mkInput (String " " rest) line)).
  { unfold expectToken, parseToken. cbn [chars lineCount].
    change (String c cs +:+ String " " rest) with (String c (cs +:+ String " " rest)).
    cbn [skipBlanks]. change (Ascii.eqb " " "#") with false.
    change (isspace " ") with true. change (Ascii.eqb " " NL) with false.
    cbv iota. rewrite Hhash, Hsp, Hstart.
    fold idchar. rewrite (scanWhile_run idchar cs (String " " rest) 1);
      [ reflexivity | done | unfold MAX_TOKEN, MAX_VAR_NAME in *; lia | reflexivity ]. }
  rewrite (bind_Ok _ _ _ _ _ Htok).
  destruct fuel as [|fuel]; [lia|]. cbn [parseTerm].
  assert (Hparen : streq (String c cs) "(" = false).
  { unfold streq. rewrite Hx. cbn. now rewrite Hpar. }
  rewrite Hparen. cbn [first]. rewrite Hminus, Hdig, Hsq, Hid, Hx. reflexivity.
Qed.

(** * The claims at concrete inputs *)

(** A machine in which [a] is bound to the sequence 1, 2, 3 and [b] to the
    sequence 4, 5. *)
Definition twoSequences : Machine :=
  mkMachine
    (mkEnvironment [mkVarRec "a" (SeqV 0); mkVarRec "b" (SeqV 1)] INIT_CAP)
    [Some (mkSequence [1; 2; 3] INIT_CAP 1); Some (mkSequence [4; 5] INIT_CAP 1)]
    EmptyString.

(** A platform on which the [ival] member of every sequence value reads 0. *)
Definition zeroBits : nat -> Z := fun _ => 0.

(** C1, as the specification states it, fails: on no platform and with no
    amount of fuel does the run of [print 2 + 3 * 4;] end with [14] on the
    standard output. *)
Lemma C1_output_is_not_14 :
  ~ (exists svalBits fuel m,
        interpret svalBits fuel "print 2 + 3 * 4;" = Ok EXIT_SUCCESS m /\
        stdout m = "14").
Proof.
  intros (svalBits & fuel & m & Hrun & Hout).
  do 6 (destruct fuel as [|fuel]; [vm_compute in Hrun; discriminate Hrun|]).
  vm_compute in Hrun. injection Hrun as <-. vm_compute in Hout.
  discriminate Hout.
Qed.

(** The chain [a + b * c ;] is read as [(a + b) * c], and the semicolon is
    left in the input; with a closing brace in its place the parser stops
    with a syntax error. *)
Lemma C5_flat_left_associative_witness :
  parseExpr 4 "a" (mkInput " + b * c ;" 1) =
    Ok (Mul (Add (VariableExpr "a") (VariableExpr "b")) (VariableExpr "c"))
       (mkInput ";" 1) /\
  parseExpr 4 "a" (mkInput " + b * c }" 1) =
    Exit (SyntaxError 1) (mkInput EmptyString 1).
Proof.
  split.
  - apply (C5_flat_left_associative 1
             [mkLink OpAdd "b" (VariableExpr "b"); mkLink OpMul "c" (VariableExpr "c")]
             1 "a" (mkInput " + b * c ;" 1) (VariableExpr "a") ";" 1 ";"
             (mkInput EmptyString 1)).
    + repeat constructor; apply identifier_operand; reflexivity.
    + lia.
    + lia.
    + reflexivity.
    + reflexivity.
    + intros o; destruct o; discriminate.
    + left. reflexivity.
  - apply (C5_flat_left_associative 1
             [mkLink OpAdd "b" (VariableExpr "b"); mkLink OpMul "c" (VariableExpr "c")]
             1 "a" (mkInput " + b * c }" 1) (VariableExpr "a") "}" 1 "}"
             (mkInput EmptyString 1)).
    + repeat constructor; apply identifier_operand; reflexivity.
    + lia.
    + lia.
    + reflexivity.
    + reflexivity.
    + intros o; destruct o; discriminate.
    + repeat split; discriminate.
Defined.

(** With [a] = 1, 2, 3 and [b] = 4, 5 only [a < b] yields 1. *)
Lemma C6_sequence_order_witness :
  exists l e g,
    eval zeroBits (Less (VariableExpr "a") (VariableExpr "b")) twoSequences
      = Ok (IntV l) twoSequences /\
    eval zeroBits (Equals (VariableExpr "a") (VariableExpr "b")) twoSequences
      = Ok (IntV e) twoSequences /\
    eval zeroBits (Less (VariableExpr "b") (VariableExpr "a")) twoSequences
      = Ok (IntV g) twoSequences /\
    (l = 1 <-> lexLess [1; 2; 3] [4; 5]) /\
    (e = 1 <-> [1; 2; 3] = [4; 5]) /\
    (g = 1 <-> lexLess [4; 5] [1; 2; 3]) /\
    ((l = 1 /\ e = 0 /\ g = 0) \/ (l = 0 /\ e = 1 /\ g = 0)
     \/ (l = 0 /\ e = 0 /\ g = 1)).
Proof.
  apply (C6_sequence_order zeroBits (VariableExpr "a") (VariableExpr "b")
           twoSequences 0 1
           (mkSequence [1; 2; 3] INIT_CAP 1) (mkSequence [4; 5] INIT_CAP 1));
    reflexivity.
Defined.


(** In the machine that binds only [a] and [b], reading [y] gives 0. *)
Lemma C8_unbound_variable_reads_zero_witness :
  lookupVariable (env twoSequences) "y" = IntV 0 /\
  eval zeroBits (VariableExpr "y") twoSequences = Ok (IntV 0) twoSequences.
Proof.
  apply (C8_unbound_variable_reads_zero zeroBits twoSequences "y").
  repeat constructor; discriminate.
Defined.

(** After a left operand, the text [-3;] is the token [-3], the literal -3
    for [parseTerm], and a syntax error for the loop of [parseExpr]. *)
Lemma C9_minus_before_digit_witness :
  parseToken (mkInput "-3;" 1) = Ok (Some "-3") (mkInput ";" 1) /\
  (forall fuel fp, parseTerm (S fuel) "-3" fp = Ok (LiteralInt (-3)) fp) /\
  (forall fuel left,
      infixLoop (S fuel) left (mkInput "-3;" 1) =
      Exit (SyntaxError 1) (mkInput ";" 1)).
Proof.
  apply (C9_minus_before_digit "3" ";" 1).
  - reflexivity.
  - discriminate.
  - vm_compute. lia.
  - reflexivity.
Defined.

(** * Further properties of the code *)

(** ** What evaluation leaves alone *)

(** A computation that touches nothing but the heap: however it ends, the
    environment and the standard output are what they were. *)
Definition heapOnly {A} (c : M A) : Prop :=
  forall m,
    match c m with
    | Ok _ m' | Exit _ m' => env m' = env m /\ stdout m' = stdout m
    | OutOfFuel => False
    end.

Lemma heapOnly_ret {A} (a : A) : heapOnly (ret a).
Proof. now intros m. Qed.

Lemma heapOnly_exit {A} f : heapOnly (exit f : M A).
Proof. now intros m. Qed.

Lemma heapOnly_bind {A B} (c : M A) (k : A -> M B) :
  heapOnly c -> (forall a, heapOnly (k a)) -> heapOnly (bind c k).
Proof.
  intros Hc Hk m. unfold bind. specialize (Hc m).
  destruct (c m) as [a m1|f m1|]; [|done|done].
  specialize (Hk a m1). destruct (k a m1) as [b m2|f m2|]; [| |done];
    destruct Hc, Hk; split; congruence.
Qed.

Lemma heapOnly_getSeq p : heapOnly (getSeq p).
Proof. intros m. unfold getSeq. now destruct (heap m !! p) as [[s|]|]. Qed.

Lemma heapOnly_putSeq p s : heapOnly (putSeq p s).
Proof. intros m. unfold putSeq. now destruct (heap m !! p) as [[s'|]|]. Qed.

Lemma heapOnly_makeSequence : heapOnly makeSequence.
Proof. now intros m. Qed.

Lemma heapOnly_freeSequence p : heapOnly (freeSequence p).
Proof. intros m. unfold freeSequence. now destruct (heap m !! p) as [[s'|]|]. Qed.

Lemma heapOnly_sval v : heapOnly (sval v).
Proof. destruct v; [apply heapOnly_exit | apply heapOnly_ret]. Qed.

Lemma heapOnly_lookup n : heapOnly (lookup n).
Proof. now intros m. Qed.

Ltac heapOnly_step :=
  first
    [ apply heapOnly_ret
    | apply heapOnly_exit
    | apply heapOnly_getSeq
    | apply heapOnly_putSeq
    | apply heapOnly_makeSequence
    | apply heapOnly_freeSequence
    | apply heapOnly_sval
    | apply heapOnly_lookup
    | assumption
    | apply heapOnly_bind; [ | intros ? ]
    | match goal with
      | |- heapOnly (if ?b then _ else _) => destruct b
      | |- heapOnly (match ?v with IntV _ => _ | SeqV _ => _ end) => destruct v
      end ].

Ltac heapOnly_auto := repeat heapOnly_step.

Lemma heapOnly_grabSequence p : heapOnly (grabSequence p).
Proof. unfold grabSequence. heapOnly_auto. Qed.

Lemma heapOnly_releaseSequence p : heapOnly (releaseSequence p).
Proof. unfold releaseSequence. heapOnly_auto. Qed.

Lemma heapOnly_grow p : heapOnly (grow p).
Proof. unfold grow. heapOnly_auto. Qed.

Lemma heapOnly_appendAll p xs : heapOnly (appendAll p xs).
Proof.
  induction xs as [|x xs IH]; cbn [appendAll]; [apply heapOnly_ret|].
  apply heapOnly_bind; [apply heapOnly_grow|]. intros _. heapOnly_auto.
Qed.

Lemma heapOnly_requireIntType v : heapOnly (requireIntType v).
Proof. unfold requireIntType, reportTypeMismatch. heapOnly_auto. Qed.

Lemma heapOnly_requireSeqType v : heapOnly (requireSeqType v).
Proof. unfold requireSeqType, reportTypeMismatch. heapOnly_auto. Qed.

Ltac heapOnly_ops :=
  repeat first
    [ apply heapOnly_grabSequence
    | apply heapOnly_releaseSequence
    | apply heapOnly_grow
    | apply heapOnly_appendAll
    | apply heapOnly_requireIntType
    | apply heapOnly_requireSeqType
    | heapOnly_step ].

(** Induction on expressions that reaches the elements of an initializer. *)
Section ExprInduction.

Variable P : Expr -> Prop.
Hypothesis HLit : forall v, P (LiteralInt v).
Hypothesis HAdd : forall a b, P a -> P b -> P (Add a b).
Hypothesis HSub : forall a b, P a -> P b -> P (Sub a b).
Hypothesis HMul : forall a b, P a -> P b -> P (Mul a b).
Hypothesis HDiv : forall a b, P a -> P b -> P (Div a b).
Hypothesis HAnd : forall a b, P a -> P b -> P (And a b).
Hypothesis HOr : forall a b, P a -> P b -> P (Or a b).
Hypothesis HLess : forall a b, P a -> P b -> P (Less a b).
Hypothesis HEquals : forall a b, P a -> P b -> P (Equals a b).
Hypothesis HSeq : forall l, Forall P l -> P (SequenceInitializer l).
Hypothesis HLen : forall a, P a -> P (LenExpr a).
Hypothesis HVar : forall n, P (VariableExpr n).
Hypothesis HIndex : forall a b, P a -> P b -> P (SequenceIndex a b).

Fixpoint Expr_nested_ind (e : Expr) : P e :=
  match e with
  | LiteralInt v => HLit v
  | Add a b => HAdd a b (Expr_nested_ind a) (Expr_nested_ind b)
  | Sub a b => HSub a b (Expr_nested_ind a) (Expr_nested_ind b)
  | Mul a b => HMul a b (Expr_nested_ind a) (Expr_nested_ind b)
  | Div a b => HDiv a b (Expr_nested_ind a) (Expr_nested_ind b)
  | And a b => HAnd a b (Expr_nested_ind a) (Expr_nested_ind b)
  | Or a b => HOr a b (Expr_nested_ind a) (Expr_nested_ind b)
  | Less a b => HLess a b (Expr_nested_ind a) (Expr_nested_ind b)
  | Equals a b => HEquals a b (Expr_nested_ind a) (Expr_nested_ind b)
  | SequenceInitializer l =>
      HSeq l ((fix elements (l : list Expr) : Forall P l :=
                 match l with
                 | [] => @List.Forall_nil _ P
                 | x :: rest =>
                     @List.Forall_cons _ P x rest (Expr_nested_ind x) (elements rest)
                 end) l)
  | LenExpr a => HLen a (Expr_nested_ind a)
  | VariableExpr n => HVar n
  | SequenceIndex a b => HIndex a b (Expr_nested_ind a) (Expr_nested_ind b)
  end.

End ExprInduction.

Section Frame.

Variable svalBits : nat -> Z.

Lemma heapOnly_eval e : heapOnly (eval svalBits e).
Proof.
  induction e as [v|a b IHa IHb|a b IHa IHb|a b IHa IHb|a b IHa IHb
                 |a b IHa IHb|a b IHa IHb|a b IHa IHb|a b IHa IHb
                 |l IHl|a IHa|n|a b IHa IHb] using Expr_nested_ind;
    cbn [eval];
    try (unfold evalAdd, addSeqSeq, addSeqInt, addIntSeq, evalSub, evalMul,
           repeatSeq, evalDiv, evalLess, evalEquals, evalLen, evalSequenceIndex,
           evalVariable, reportTypeMismatch, reportIndexOutOfBounds;
         heapOnly_ops; fail).
  apply heapOnly_bind; [apply heapOnly_makeSequence|]. intros p.
  apply heapOnly_bind; [|intros; apply heapOnly_ret].
  induction IHl as [|x rest Hx _ IH]; heapOnly_ops.
Qed.

(** X1.  Evaluating an expression always ends, with a value or with an
    error exit, and in both cases it has changed neither the environment nor
    the standard output. *)
Theorem X1_eval_keeps_environment_and_output e m :
  match eval svalBits e m with
  | Ok _ m' | Exit _ m' => env m' = env m /\ stdout m' = stdout m
  | OutOfFuel => False
  end.
Proof. apply heapOnly_eval. Qed.

End Frame.

(** ** The environment as a map *)

Lemma c_str_idempotent s : c_str (c_str s) = c_str s.
Proof.
  induction s as [|c s IH]; [done|]. cbn [c_str].
  destruct (Ascii.eqb c zero) eqn:E; [done|]. cbn [c_str]. now rewrite E, IH.
Qed.

Lemma streq_true a b : streq a b = true <-> c_str a = c_str b.
Proof. apply String.eqb_eq. Qed.

Lemma streq_false a b : streq a b = false <-> c_str a <> c_str b.
Proof. apply String.eqb_neq. Qed.

(** The names held by an environment, as C strings. *)
Definition names (e : Environment) : list string :=
  map (fun r => c_str (name r)) (vlist e).

Lemma findPos_miss vl n :
  vl !! findPos vl n = None -> Forall (fun r => c_str (name r) <> c_str n) vl.
Proof.
  induction vl as [|r vl IH]; cbn [findPos]; [constructor|].
  destruct (streq (name r) n) eqn:E; [done|]. cbn. intros H.
  constructor; [now apply streq_false | auto].
Qed.

Lemma findPos_hit vl n r :
  vl !! findPos vl n = Some r -> c_str (name r) = c_str n.
Proof.
  induction vl as [|r' vl IH]; cbn [findPos]; [done|].
  destruct (streq (name r') n) eqn:E; cbn.
  - intros [= ->]. now apply streq_true.
  - exact IH.
Qed.

Lemma lookupRec_append vl r n :
  Forall (fun r => c_str (name r) <> c_str n) vl ->
  lookupRec (vl ++ [r]) n = if streq (name r) n then val r else IntV 0.
Proof.
  induction 1 as [|r' vl Hr _ IH]; cbn [app lookupRec]; [done|].
  now apply streq_false in Hr as ->.
Qed.

Lemma lookupRec_append_other vl r n :
  c_str (name r) <> c_str n -> lookupRec (vl ++ [r]) n = lookupRec vl n.
Proof.
  intros Hr. induction vl as [|r' vl IH]; cbn [app lookupRec].
  - now apply streq_false in Hr as ->.
  - now rewrite IH.
Qed.

Lemma lookupRec_overwrite vl n r v :
  vl !! findPos vl n = Some r ->
  lookupRec (<[findPos vl n := mkVarRec (name r) v]> vl) n = v.
Proof.
  induction vl as [|r' vl IH]; cbn [findPos]; [done|].
  destruct (streq (name r') n) eqn:E; cbn.
  - intros [= ->]. unfold streq in *. now rewrite E.
  - intros H. rewrite E. now apply IH.
Qed.

Lemma lookupRec_overwrite_other vl n n' r v :
  vl !! findPos vl n = Some r ->
  c_str n' <> c_str n ->
  lookupRec (<[findPos vl n := mkVarRec (name r) v]> vl) n' = lookupRec vl n'.
Proof.
  intros H Hne. revert H.
  induction vl as [|r' vl IH]; cbn [findPos]; [done|].
  destruct (streq (name r') n) eqn:E; cbn.
  - intros [= ->]. apply streq_true in E.
    assert (streq (name r) n' = false) as E' by (apply streq_false; congruence).
    unfold streq in *. now rewrite E'.
  - intros H. destruct (streq (name r') n'); [done|]. now apply IH.
Qed.

Lemma names_overwrite vl pos r v :
  vl !! pos = Some r ->
  map (fun r => c_str (name r)) (<[pos := mkVarRec (name r) v]> vl) =
  map (fun r => c_str (name r)) vl.
Proof.
  revert pos. induction vl as [|r' vl IH]; intros [|pos]; cbn; try done.
  - now intros [= ->].
  - intros H. now rewrite IH.
Qed.

(** The two ways in which [setVariable] can succeed: a new record at the
    end, or a new value in the record found. *)
Lemma setVariable_cases n v m m' :
  setVariable n v m = Ok tt m' ->
  stdout m' = stdout m /\
  ((vlist (env m) !! findPos (vlist (env m)) n = None /\
    vlist (env m') = vlist (env m) ++ [mkVarRec (c_str n) v] /\
    capacity (env m') =
      (if Z.of_nat (length (vlist (env m))) >=? capacity (env m)
       then capacity (env m) * DOUBLE_CAP else capacity (env m)) /\
    heap m' = heap m)
   \/
   (exists r,
      vlist (env m) !! findPos (vlist (env m)) n = Some r /\
      vlist (env m') =
        <[findPos (vlist (env m)) n := mkVarRec (name r) v]> (vlist (env m)) /\
      capacity (env m') = capacity (env m))).
Proof.
  unfold setVariable.
  destruct (vlist (env m) !! findPos (vlist (env m)) n) as [r|] eqn:E.
  - unfold bind.
    set (c := match val r with
              | SeqV old => releaseSequence old
              | IntV _ => ret tt
              end).
    assert (Hrel : heapOnly c).
    { subst c. destruct (val r); [apply heapOnly_ret | apply heapOnly_releaseSequence]. }
    specialize (Hrel m). destruct (c m) as [[] m1|f m1|]; [|done|done].
    destruct Hrel as [He Ho]. intros [= <-].
    cbn. rewrite He. split; [done|]. right. exists r. auto.
  - intros [= <-]. cbn. split; [done|]. left. auto.
Qed.

Lemma setVariable_lookup n v m m' :
  setVariable n v m = Ok tt m' -> lookupVariable (env m') n = v.
Proof.
  intros H. destruct (setVariable_cases _ _ _ _ H) as [_ [(E & Hv & _)|(r & E & Hv & _)]];
    unfold lookupVariable; rewrite Hv.
  - rewrite lookupRec_append by now apply findPos_miss.
    cbn [name val]. unfold streq. now rewrite c_str_idempotent, String.eqb_refl.
  - now apply lookupRec_overwrite.
Qed.

(** X2.  After a successful [setVariable] the name reads back as the value
    just stored. *)
Theorem X2_lookup_after_set n v m m' :
  setVariable n v m = Ok tt m' -> lookupVariable (env m') n = v.
Proof. apply setVariable_lookup. Qed.

(** X3.  A successful [setVariable] changes what one name reads as and no
    other. *)
Theorem X3_set_leaves_other_names n n' v m m' :
  setVariable n v m = Ok tt m' ->
  c_str n' <> c_str n ->
  lookupVariable (env m') n' = lookupVariable (env m) n'.
Proof.
  intros H Hne.
  destruct (setVariable_cases _ _ _ _ H) as [_ [(E & Hv & _)|(r & E & Hv & _)]];
    unfold lookupVariable; rewrite Hv.
  - apply lookupRec_append_other. cbn [name]. rewrite c_str_idempotent. congruence.
  - now apply lookupRec_overwrite_other.
Qed.

(** The invariants of the environment: one record per name, and no more
    records than the array has room for. *)
Definition wellFormedEnv (e : Environment) : Prop :=
  NoDup (names e) /\
  Z.of_nat (length (vlist e)) <= capacity e /\
  0 < capacity e.

Lemma setVariable_wellFormed n v m m' :
  setVariable n v m = Ok tt m' ->
  wellFormedEnv (env m) -> wellFormedEnv (env m').
Proof.
  intros H (Hnd & Hlen & Hcap). unfold wellFormedEnv, names in *.
  destruct (setVariable_cases _ _ _ _ H)
    as [_ [(E & Hv & Hc & _)|(r & E & Hv & Hc)]]; rewrite Hv, Hc.
  - rewrite map_app, length_app. cbn [map length name].
    rewrite c_str_idempotent. split.
    + apply NoDup_app. split; [done|]. split; [|apply NoDup_singleton].
      intros x Hx Hin. apply list_elem_of_singleton in Hin as ->.
      apply list_elem_of_In, in_map_iff in Hx as (r & Hr & Hin).
      apply findPos_miss in E. rewrite Forall_forall in E.
      apply (E r); [now apply list_elem_of_In | done].
    + unfold DOUBLE_CAP.
      destruct (Z.geb_spec (Z.of_nat (length (vlist (env m)))) (capacity (env m)));
        lia.
  - rewrite length_insert. rewrite (names_overwrite _ _ _ _ E). auto.
Qed.

(** X4.  [setVariable] keeps the environment well formed: it never adds a
    second record for a name, and it doubles the capacity before it would
    write past the end of the array. *)
Theorem X4_setVariable_keeps_environment_well_formed n v m m' :
  setVariable n v m = Ok tt m' ->
  wellFormedEnv (env m) -> wellFormedEnv (env m').
Proof. apply setVariable_wellFormed. Qed.

(** ** The environment during a run *)

(** A computation that keeps the environment well formed, however it ends. *)
Definition envKeeps {A} (c : M A) : Prop :=
  forall m,
    wellFormedEnv (env m) ->
    match c m with
    | Ok _ m' | Exit _ m' => wellFormedEnv (env m')
    | OutOfFuel => True
    end.

Lemma envKeeps_heapOnly {A} (c : M A) : heapOnly c -> envKeeps c.
Proof.
  intros H m Hm. specialize (H m).
  destruct (c m) as [a m'|f m'|]; [| |done]; destruct H as [-> _]; done.
Qed.

Lemma envKeeps_bind {A B} (c : M A) (k : A -> M B) :
  envKeeps c -> (forall a, envKeeps (k a)) -> envKeeps (bind c k).
Proof.
  intros Hc Hk m Hm. unfold bind. specialize (Hc m Hm).
  destruct (c m) as [a m1|f m1|]; [|done|done]. now apply Hk.
Qed.

Lemma envKeeps_ret {A} (a : A) : envKeeps (ret a).
Proof. now intros m. Qed.

Lemma envKeeps_write text : envKeeps (write text).
Proof. now intros m. Qed.

Lemma envKeeps_setVariable n v : envKeeps (setVariable n v).
Proof.
  intros m Hm. destruct (setVariable n v m) as [[] m'|f m'|] eqn:E; [| |done].
  - now apply (setVariable_wellFormed n v m m').
  - unfold setVariable in E.
    destruct (vlist (env m) !! findPos (vlist (env m)) n) as [r|]; [|done].
    unfold bind in E.
    set (c := match val r with
              | SeqV old => releaseSequence old
              | IntV _ => ret tt
              end) in E.
    assert (Hrel : heapOnly c).
    { subst c. destruct (val r); [apply heapOnly_ret | apply heapOnly_releaseSequence]. }
    specialize (Hrel m). destruct (c m) as [[] m1|f1 m1|]; [done| |done].
    destruct Hrel as [He _]. injection E as <- <-. now rewrite He.
Qed.

Section RunInvariant.

Variable svalBits : nat -> Z.

Lemma envKeeps_eval e : envKeeps (eval svalBits e).
Proof. apply envKeeps_heapOnly, heapOnly_eval. Qed.

Lemma envKeeps_executePrint v : envKeeps (executePrint svalBits v).
Proof.
  unfold executePrint. destruct (isIntType v); [apply envKeeps_write|].
  apply envKeeps_bind; [apply envKeeps_heapOnly, heapOnly_sval|]. intros p.
  apply envKeeps_bind; [apply envKeeps_heapOnly, heapOnly_grabSequence|]. intros _.
  apply envKeeps_bind; [apply envKeeps_heapOnly, heapOnly_getSeq|]. intros s.
  apply envKeeps_bind; [apply envKeeps_write|]. intros _.
  apply envKeeps_heapOnly, heapOnly_releaseSequence.
Qed.

Lemma heapOnly_executePush sq v : heapOnly (executePush svalBits sq v).
Proof. unfold executePush. heapOnly_ops. Qed.

Lemma envKeeps_executeAssignment n iexpr expr :
  envKeeps (executeAssignment svalBits n iexpr expr).
Proof.
  unfold executeAssignment.
  apply envKeeps_bind; [apply envKeeps_eval|]. intros result.
  destruct iexpr as [ie|].
  - apply envKeeps_heapOnly.
    apply heapOnly_bind; [apply heapOnly_eval|]. intros i.
    unfold reportIndexOutOfBounds. heapOnly_ops.
  - apply envKeeps_bind; [|intros; apply envKeeps_setVariable].
    apply envKeeps_heapOnly. destruct result; heapOnly_ops.
Qed.

Lemma envKeeps_execute fuel stmt : envKeeps (execute svalBits fuel stmt).
Proof.
  revert stmt. induction fuel as [|fuel IH]; intros stmt; [now intros m|].
  destruct stmt as [e|l|c b|c b|s v|n i e]; cbn [execute].
  - apply envKeeps_bind; [apply envKeeps_eval|]. intros v.
    apply envKeeps_executePrint.
  - induction l as [|s l IHl]; [apply envKeeps_ret|].
    apply envKeeps_bind; [apply IH|]. intros _. exact IHl.
  - apply envKeeps_bind; [apply envKeeps_eval|]. intros r.
    apply envKeeps_bind; [apply envKeeps_heapOnly, heapOnly_requireIntType|].
    intros _. destruct (negb _); [apply IH | apply envKeeps_ret].
  - apply envKeeps_bind; [apply envKeeps_eval|]. intros r.
    apply envKeeps_bind; [apply envKeeps_heapOnly, heapOnly_requireIntType|].
    intros _. destruct (negb _); [|apply envKeeps_ret].
    apply envKeeps_bind; [apply IH|]. intros _. apply IH.
  - apply envKeeps_bind; [apply envKeeps_eval|]. intros sq.
    apply envKeeps_bind; [apply envKeeps_eval|]. intros x.
    apply envKeeps_heapOnly, heapOnly_executePush.
  - apply envKeeps_executeAssignment.
Qed.

Lemma envKeeps_freeEnvironment : envKeeps freeEnvironment.
Proof.
  apply envKeeps_heapOnly. intros m. unfold freeEnvironment.
  generalize (vlist (env m)). intros vl. revert m.
  change (heapOnly (releaseAll vl)).
  induction vl as [|r vl IH]; cbn [releaseAll]; [apply heapOnly_ret|].
  apply heapOnly_bind; [|intros; exact IH]. destruct (val r); heapOnly_ops.
Qed.

Lemma envKeeps_mainLoop fuel fp : envKeeps (mainLoop svalBits fuel fp).
Proof.
  revert fp. induction fuel as [|fuel IH]; intros fp; [now intros m|].
  intros m Hm. cbn [mainLoop].
  destruct (parseToken fp) as [[tok|] fp1|f fp1|]; [| |done|done].
  - destruct (parseStmt fuel tok fp1) as [stmt fp2|f fp2|]; [|done|done].
    apply (envKeeps_bind (execute svalBits fuel stmt)
             (fun _ => mainLoop svalBits fuel fp2)); [|intros []; apply IH|done].
    apply envKeeps_execute.
  - apply (envKeeps_bind freeEnvironment (fun _ => ret EXIT_SUCCESS));
      [apply envKeeps_freeEnvironment|intros; apply envKeeps_ret|done].
Qed.

(** X5.  Executing a statement keeps the environment well formed: whether
    the statement completes or the run exits inside it, no name has two
    records and the records fit the capacity. *)
Theorem X5_execute_keeps_environment_well_formed fuel stmt m :
  wellFormedEnv (env m) ->
  match execute svalBits fuel stmt m with
  | Ok _ m' | Exit _ m' => wellFormedEnv (env m')
  | OutOfFuel => True
  end.
Proof. apply envKeeps_execute. Qed.

(** X6.  However a run of the interpreter ends (normally, or with a
    diagnostic from the tokenizer, the parser or the evaluator), the
    environment then holds at most one record per name and no more records
    than its capacity. *)
Theorem X6_run_keeps_environment_well_formed fuel program :
  match interpret svalBits fuel program with
  | Ok _ m | Exit _ m => wellFormedEnv (env m)
  | OutOfFuel => True
  end.
Proof.
  apply envKeeps_mainLoop. split; [apply NoDup_nil_2 | done].
Qed.

End RunInvariant.

(** ** Reading a sequence *)

(** What is left of a block after a reader has grabbed and released it: a
    temporary (count 0) is freed, a block that is held elsewhere is as it
    was. *)
Definition afterUse (s : Sequence) : option Sequence :=
  if ref s =? 0 then None else Some s.

Lemma grab_release_net s :
  0 <= ref s ->
  released (mkSequence (seq s) (cap s) (ref s + 1)) = afterUse s.
Proof.
  intros H. unfold released, afterUse. cbn [ref seq cap].
  destruct (Z.eqb_spec (ref s + 1) 1), (Z.eqb_spec (ref s) 0); try lia; [done|].
  replace (ref s + 1 - 1) with (ref s) by lia. now destruct s.
Qed.

Lemma afterUse_held m p s :
  heap m !! p = Some (Some s) -> 1 <= ref s ->
  setHeap (<[p := afterUse s]> (heap m)) m = m.
Proof.
  intros H Hr. unfold afterUse. destruct (Z.eqb_spec (ref s) 0); [lia|].
  rewrite list_insert_id by done. now destruct m.
Qed.

Section Readers.

Variable svalBits : nat -> Z.

Lemma evalLen_live m p s :
  heap m !! p = Some (Some s) -> 0 <= ref s ->
  evalLen (SeqV p) m = Ok (IntV (len s)) (setHeap (<[p := afterUse s]> (heap m)) m).
Proof.
  intros H R.
  assert (L : (p < length (heap m))%nat) by (eapply lookup_lt_Some; eauto).
  unfold evalLen. cbn [requireSeqType isSeqType vtype sameType negb sval].
  rewrite !bind_ret.
  step grabSequence_live. step getSeq_live. step_release.
  rewrite list_insert_insert_eq, grab_release_net by done. reflexivity.
Qed.

(** X7.  [len] of a live sequence yields the number of its elements.  If
    some holder has the sequence (count at least 1) the machine is left
    exactly as it was; a temporary (count 0) is freed by the read. *)
Theorem X7_len_of_sequence e m m1 p s :
  eval svalBits e m = Ok (SeqV p) m1 ->
  heap m1 !! p = Some (Some s) ->
  0 <= ref s ->
  exists m',
    eval svalBits (LenExpr e) m = Ok (IntV (Z.of_nat (length (seq s)))) m' /\
    (1 <= ref s -> m' = m1) /\
    (ref s = 0 -> heap m' = <[p := None]> (heap m1)).
Proof.
  intros E H R. eexists. split; [|split].
  - cbn [eval]. rewrite (bind_Ok _ _ _ _ _ E). now apply evalLen_live.
  - intros R1. now apply afterUse_held.
  - intros R0. cbn [heap setHeap]. unfold afterUse. now rewrite R0.
Qed.

Lemma evalSequenceIndex_live m p s i :
  heap m !! p = Some (Some s) -> 0 <= ref s ->
  evalSequenceIndex svalBits (SeqV p) (IntV i) m =
  if ((i <? 0) || (i >=? len s))%bool
  then Exit IndexOutOfBounds
         (setHeap (<[p := Some (mkSequence (seq s) (cap s) (ref s + 1))]> (heap m)) m)
  else Ok (IntV (nth (Z.to_nat i) (seq s) 0))
          (setHeap (<[p := afterUse s]> (heap m)) m).
Proof.
  intros H R.
  assert (L : (p < length (heap m))%nat) by (eapply lookup_lt_Some; eauto).
  unfold evalSequenceIndex.
  cbn [requireSeqType requireIntType isSeqType isIntType vtype sameType negb sval ival].
  rewrite !bind_ret.
  step grabSequence_live. step getSeq_live.
  change (len (mkSequence (seq s) (cap s) (ref s + 1))) with (len s).
  destruct ((i <? 0) || (i >=? len s))%bool; [reflexivity|].
  step_release.
  rewrite list_insert_insert_eq, grab_release_net by done. reflexivity.
Qed.

(** X8.  Indexing a live sequence with an integer [i]: when [0 <= i < len]
    the result is the element at [i] (and a sequence held elsewhere is left
    as it was); otherwise the run exits with "Index out of bounds". *)
Theorem X8_index_of_sequence e1 e2 m m1 m2 p s i :
  eval svalBits e1 m = Ok (SeqV p) m1 ->
  eval svalBits e2 m1 = Ok (IntV i) m2 ->
  heap m2 !! p = Some (Some s) ->
  0 <= ref s ->
  (0 <= i < len s ->
   exists m' x,
     eval svalBits (SequenceIndex e1 e2) m = Ok (IntV x) m' /\
     seq s !! Z.to_nat i = Some x /\
     (1 <= ref s -> m' = m2)) /\
  (~ 0 <= i < len s ->
   exists m', eval svalBits (SequenceIndex e1 e2) m = Exit IndexOutOfBounds m').
Proof.
  intros E1 E2 H R.
  assert (Hev : eval svalBits (SequenceIndex e1 e2) m =
                evalSequenceIndex svalBits (SeqV p) (IntV i) m2).
  { cbn [eval]. now rewrite (bind_Ok _ _ _ _ _ E1), (bind_Ok _ _ _ _ _ E2). }
  rewrite Hev, (evalSequenceIndex_live m2 p s i H R). split; intros Hi.
  - destruct (Z.ltb_spec i 0); [lia|]. destruct (Z.geb_spec i (len s)); [lia|].
    cbn [orb]. eexists _, _. split; [reflexivity|]. split.
    + destruct (lookup_lt_is_Some_2 (seq s) (Z.to_nat i)) as [x Hx];
        [unfold len in *; lia|].
      now rewrite (nth_lookup_Some _ _ 0 _ Hx).
    + intros R1. now apply afterUse_held.
  - destruct (Z.ltb_spec i 0); [cbn [orb]; eauto|].
    destruct (Z.geb_spec i (len s)); [cbn [orb]; eauto|lia].
Qed.

End Readers.

(** ** Building sequences *)

Section Builders.

Variable svalBits : nat -> Z.

(** X9.  Multiplying a live sequence and an integer [k], in either order,
    builds [max 0 k] times the length of the sequence many elements.  As long
    as these are at most [MAX_CAP], the result is a new block with count 0
    that holds [k] copies of the elements (none when [k] is zero or negative),
    in a buffer that has grown to hold them.  Beyond that the copy loop
    doubles the capacity past [INT_MAX] and the run ends there. *)
Theorem X9_repetition m p s k :
  heap m !! p = Some (Some s) ->
  0 <= ref s ->
  (Z.max 0 k * len s <= MAX_CAP ->
   exists m' r,
     evalMul svalBits (SeqV p) (IntV k) m = Ok (SeqV (length (heap m))) m' /\
     evalMul svalBits (IntV k) (SeqV p) m = Ok (SeqV (length (heap m))) m' /\
     heap m' !! length (heap m) = Some (Some r) /\
     seq r = concat (replicate (Z.to_nat k) (seq s)) /\
     len r = Z.max 0 k * len s /\
     ref r = 0 /\
     len r <= cap r) /\
  (MAX_CAP < Z.max 0 k * len s ->
   exists m',
     evalMul svalBits (SeqV p) (IntV k) m = Exit Overflow m' /\
     evalMul svalBits (IntV k) (SeqV p) m = Exit Overflow m').
Proof.
  intros H R.
  assert (Hlen : Z.of_nat (length (concat (replicate (Z.to_nat k) (seq s)))) =
                 Z.max 0 k * len s).
  { unfold len. rewrite length_concat_replicate. lia. }
  destruct (builds_cases _ _ _ _ (repeatSeq_outcome m p s k [SeqV p] H R
                                    ltac:(simpl; auto))) as [Hfit Hbig].
  rewrite Hlen in Hfit, Hbig. split; intros Hn.
  - destruct (Hfit Hn) as (m' & r & Hrun & Hr & Hseq & Href & Hcap).
    exists m', r. repeat split; trivial.
    unfold len in *. now rewrite Hseq.
  - destruct (Hbig Hn) as (m' & Hrun). exists m'. split; exact Hrun.
Qed.

(** X10.  Adding an integer to a live sequence builds one element more than
    the sequence has.  As long as the sequence has fewer than [MAX_CAP]
    elements, the result is a new block with count 0: the elements followed
    by the integer for [Seq + Int], the integer followed by the elements for
    [Int + Seq], in a buffer that has grown to hold them.  A sequence of
    [MAX_CAP] elements makes the copy loop double the capacity past
    [INT_MAX], and the run ends there. *)
Theorem X10_add_sequence_and_integer m p s i :
  heap m !! p = Some (Some s) ->
  0 <= ref s ->
  (len s < MAX_CAP ->
   (exists m' r,
      evalAdd svalBits (SeqV p) (IntV i) m = Ok (SeqV (length (heap m))) m' /\
      heap m' !! length (heap m) = Some (Some r) /\
      seq r = seq s ++ [i] /\ len r = len s + 1 /\ ref r = 0 /\
      len r <= cap r) /\
   (exists m' r,
      evalAdd svalBits (IntV i) (SeqV p) m = Ok (SeqV (length (heap m))) m' /\
      heap m' !! length (heap m) = Some (Some r) /\
      seq r = i :: seq s /\ len r = len s + 1 /\ ref r = 0 /\
      len r <= cap r)) /\
  (MAX_CAP <= len s ->
   (exists m', evalAdd svalBits (SeqV p) (IntV i) m = Exit Overflow m') /\
   (exists m', evalAdd svalBits (IntV i) (SeqV p) m = Exit Overflow m')).
Proof.
  intros H R.
  destruct (builds_cases _ _ _ _ (addSeqInt_outcome svalBits m p s (IntV i) [SeqV p]
                                    H R ltac:(simpl; auto))) as [Hfit1 Hbig1].
  destruct (builds_cases _ _ _ _ (addIntSeq_outcome svalBits m p s (IntV i) [SeqV p]
                                    H R ltac:(simpl; auto))) as [Hfit2 Hbig2].
  cbn [ival] in *. rewrite length_app in Hfit1, Hbig1.
  cbn [length] in *. unfold len in *.
  split; intros Hn; split.
  - destruct Hfit1 as (m' & r & Hrun & Hr & Hseq & Href & Hcap); [lia|].
    exists m', r. repeat split; trivial.
    rewrite Hseq, length_app. cbn [length]. lia.
  - destruct Hfit2 as (m' & r & Hrun & Hr & Hseq & Href & Hcap); [lia|].
    exists m', r. repeat split; trivial.
    rewrite Hseq. cbn [length]. lia.
  - apply Hbig1. lia.
  - apply Hbig2. lia.
Qed.

End Builders.

(** ** Sequence initializers *)

(** The loop of [evalSequence], as it stands inside [eval]. *)
Definition initializerLoop (svalBits : nat -> Z) (p : nat) : list Expr -> M unit :=
  fix loop (l : list Expr) : M unit :=
    match l with
    | [] => ret tt
    | x :: rest =>
        run grow p then
        let* v := eval svalBits x in
        run requireIntType v then
        let* s' := getSeq p in
        run putSeq p (store s' (ival svalBits v)) then
        loop rest
    end.

Lemma eval_SequenceInitializer svalBits elist :
  eval svalBits (SequenceInitializer elist) =
  (let* p := makeSequence in
   run initializerLoop svalBits p elist then
   ret (SeqV p)).
Proof. reflexivity. Qed.

Section Initializers.

Variable svalBits : nat -> Z.

Lemma initializerLoop_literals xs :
  forall m p s,
    heap m !! p = Some (Some s) -> canAppend xs s = true ->
    initializerLoop svalBits p (map LiteralInt xs) m =
    Ok tt (setHeap (<[p := Some (fold_left push_back xs s)]> (heap m)) m).
Proof.
  induction xs as [|x xs IH]; intros m p s H Hc.
  - cbn. now rewrite setHeap_same.
  - cbn [canAppend] in Hc. apply andb_prop in Hc as [Hg Hc].
    assert (L : (p < length (heap m))%nat) by (eapply lookup_lt_Some; eauto).
    cbn [map initializerLoop fold_left].
    rewrite (bind_Ok _ _ _ _ _ (grow_live _ _ _ H Hg)).
    cbn [eval]. rewrite bind_ret. cbn [requireIntType isIntType vtype sameType negb].
    rewrite bind_ret.
    step getSeq_live. step putSeq_live.
    erewrite IH; [|heap_lookup|exact Hc]. machine_simpl.
    now rewrite !list_insert_insert_eq.
Qed.

Lemma initializerLoop_overflow xs :
  forall m p s,
    heap m !! p = Some (Some s) -> canAppend xs s = false ->
    exists m', initializerLoop svalBits p (map LiteralInt xs) m = Exit Overflow m'.
Proof.
  induction xs as [|x xs IH]; intros m p s H Hc; [discriminate Hc|].
  cbn [canAppend] in Hc.
  assert (L : (p < length (heap m))%nat) by (eapply lookup_lt_Some; eauto).
  cbn [map initializerLoop]. destruct (canGrow s) eqn:Hg.
  - cbn [andb] in Hc.
    rewrite (bind_Ok _ _ _ _ _ (grow_live _ _ _ H Hg)).
    cbn [eval]. rewrite bind_ret. cbn [requireIntType isIntType vtype sameType negb].
    rewrite bind_ret.
    step getSeq_live. step putSeq_live.
    rewrite list_insert_insert_eq.
    eapply IH; [|exact Hc]. heap_lookup.
  - exists m. now rewrite (bind_Exit _ _ _ _ _ (grow_overflow _ _ _ H Hg)).
Qed.

Lemma eval_initializer_literals xs m :
  canAppend xs (mkSequence [] INIT_CAP 0) = true ->
  eval svalBits (SequenceInitializer (map LiteralInt xs)) m =
  Ok (SeqV (length (heap m)))
     (setHeap (heap m ++ [Some (fold_left push_back xs (mkSequence [] INIT_CAP 0))]) m).
Proof.
  intros Hc. rewrite eval_SequenceInitializer.
  unfold bind at 1, makeSequence at 1.
  erewrite bind_Ok;
    [ | apply initializerLoop_literals with (s := mkSequence [] INIT_CAP 0);
        [heap_lookup|exact Hc] ].
  machine_simpl. cbn [ret].
  rewrite insert_app_r_alt by lia. now rewrite Nat.sub_diag.
Qed.

(** X11.  A bracketed list of at most [MAX_CAP] integer literals evaluates
    to a new block with reference count 0 whose elements are the literals in
    order; the rest of the machine is untouched, and the capacity (5, doubled
    as often as needed) is never below the length.  A longer list makes the
    loop double the capacity past [INT_MAX], and the run ends there. *)
Theorem X11_initializer_of_literals xs m :
  (Z.of_nat (length xs) <= MAX_CAP ->
   exists r,
     eval svalBits (SequenceInitializer (map LiteralInt xs)) m =
     Ok (SeqV (length (heap m))) (setHeap (heap m ++ [Some r]) m) /\
     seq r = xs /\ ref r = 0 /\ len r <= cap r) /\
  (MAX_CAP < Z.of_nat (length xs) ->
   exists m',
     eval svalBits (SequenceInitializer (map LiteralInt xs)) m = Exit Overflow m').
Proof.
  split; intros Hn.
  - assert (Hc : canAppend xs (mkSequence [] INIT_CAP 0) = true)
      by (rewrite canAppend_empty; now apply Z.leb_le).
    exists (fold_left push_back xs (mkSequence [] INIT_CAP 0)).
    split; [|split; [|split]].
    + now apply eval_initializer_literals.
    + now rewrite seq_fold_push_back.
    + now rewrite ref_fold_push_back.
    + now apply fold_push_back_fits.
  - assert (Hc : canAppend xs (mkSequence [] INIT_CAP 0) = false)
      by (rewrite canAppend_empty; now apply Z.leb_gt).
    rewrite eval_SequenceInitializer. unfold bind at 1, makeSequence at 1.
    destruct (initializerLoop_overflow xs
                (setHeap (heap m ++ [Some (mkSequence [] INIT_CAP 0)]) m)
                (length (heap m)) (mkSequence [] INIT_CAP 0)) as [m' E];
      [heap_lookup|exact Hc|].
    exists m'. now rewrite (bind_Exit _ _ _ _ _ E).
Qed.

End Initializers.

(** ** Statements that change a sequence or a binding *)

Lemma lookupRec_findPos vl n :
  lookupRec vl n =
  match vl !! findPos vl n with
  | Some r => val r
  | None => IntV 0
  end.
Proof.
  induction vl as [|r vl IH]; cbn [lookupRec findPos]; [done|].
  now destruct (streq (name r) n).
Qed.

Section Updates.

Variable svalBits : nat -> Z.

Lemma canGrow_ref s r :
  canGrow (mkSequence (seq s) (cap s) r) = canGrow s.
Proof. reflexivity. Qed.

(** [push] on a live sequence: the growth test, the store, and the release
    that frees a temporary. *)
Lemma executePush_outcome m p s i :
  heap m !! p = Some (Some s) -> 0 <= ref s ->
  outcome (executePush svalBits (SeqV p) (IntV i) m)
    (fun _ m' =>
       m' = setHeap
              (<[p := if ref s =? 0 then None else Some (push_back s i)]> (heap m)) m
       /\ canGrow s = true)
    (canGrow s = false).
Proof.
  intros H R.
  assert (L : (p < length (heap m))%nat) by (eapply lookup_lt_Some; eauto).
  unfold executePush.
  cbn [requireSeqType requireIntType isSeqType isIntType vtype sameType negb sval].
  rewrite !bind_ret.
  step grabSequence_live.
  destruct (canGrow s) eqn:Hg.
  - erewrite bind_Ok; [|eapply grow_live; [heap_lookup|now rewrite canGrow_ref]].
    machine_simpl. rewrite list_insert_insert_eq.
    step getSeq_live. step putSeq_live. rewrite list_insert_insert_eq.
    erewrite releaseSequence_live;
      [ | heap_lookup | unfold store, grown; cbn [seq cap ref];
                        destruct (_ >=? _); cbn [ref]; lia ].
    machine_simpl. rewrite list_insert_insert_eq.
    cbn [outcome]. split; [|reflexivity]. do 3 f_equal.
    unfold released, push_back, store, grown, len. cbn [seq cap ref ival].
    destruct (Z.of_nat (length (seq s)) >=? cap s); cbn [seq cap ref];
      destruct (Z.eqb_spec (ref s + 1) 1), (Z.eqb_spec (ref s) 0); try lia;
      try done; do 2 f_equal; lia.
  - erewrite bind_Exit; [|eapply grow_overflow; [heap_lookup|now rewrite canGrow_ref]].
    now split.
Qed.

(** X12.  [push] on a sequence that some holder has (count at least 1) and
    that has room left, or whose capacity can still be doubled, appends the
    integer in place: the block gets one more element at its end, keeps its
    count, and stays within its capacity if it was; no other block, no
    binding and no output changes.  On a full sequence whose capacity cannot
    be doubled within [INT_MAX] the run ends at the doubling. *)
Theorem X12_push_appends_in_place e1 e2 fuel m m1 m2 p s v :
  eval svalBits e1 m = Ok (SeqV p) m1 ->
  eval svalBits e2 m1 = Ok (IntV v) m2 ->
  heap m2 !! p = Some (Some s) ->
  1 <= ref s ->
  (len s < cap s \/ cap s * DOUBLE_CAP <= INT_MAX ->
   exists s',
     execute svalBits (S fuel) (PushStmt e1 e2) m =
       Ok tt (setHeap (<[p := Some s']> (heap m2)) m2) /\
     seq s' = seq s ++ [v] /\
     ref s' = ref s /\
     (len s <= cap s -> 0 < cap s -> len s' <= cap s')) /\
  (cap s <= len s /\ INT_MAX < cap s * DOUBLE_CAP ->
   exists m', execute svalBits (S fuel) (PushStmt e1 e2) m = Exit Overflow m').
Proof.
  intros E1 E2 H R.
  assert (Hrun : execute svalBits (S fuel) (PushStmt e1 e2) m =
                 executePush svalBits (SeqV p) (IntV v) m2).
  { cbn [execute]. now rewrite (bind_Ok _ _ _ _ _ E1), (bind_Ok _ _ _ _ _ E2). }
  rewrite Hrun.
  pose proof (executePush_outcome m2 p s v H ltac:(lia)) as Hpush.
  assert (Hgrow : canGrow s = true <->
                  len s < cap s \/ cap s * DOUBLE_CAP <= INT_MAX).
  { unfold canGrow. now rewrite orb_true_iff, Z.ltb_lt, Z.leb_le. }
  split.
  - intros Hfit. apply Hgrow in Hfit.
    destruct (outcome_Ok _ _ _ Hpush) as ([] & m' & E & -> & _); [congruence|].
    exists (push_back s v). split; [|split; [|split]].
    + rewrite E. destruct (Z.eqb_spec (ref s) 0); [lia|reflexivity].
    + unfold push_back, store, grown. now destruct (_ >=? _).
    + unfold push_back, store, grown. now destruct (_ >=? _).
    + intros Hlen Hcap. apply Hgrow in Hfit.
      unfold push_back, store, grown, len, DOUBLE_CAP in *.
      destruct (Z.geb_spec (Z.of_nat (length (seq s))) (cap s));
        cbn [seq cap]; rewrite length_app; cbn [length]; lia.
  - intros [Hfull Hbig]. apply (outcome_Exit _ _ _ Hpush).
    intros [] m' [_ Hg]. apply Hgrow in Hg. lia.
Qed.

(** X13.  An assignment [name[idx] = rhs] with integer [rhs] and an index
    inside the sequence bound to [name] overwrites that one element in
    place: afterwards the element at the index is the new value, all other
    elements, the length, the capacity and the count are as before, and so
    are all other blocks, the environment and the output. *)
Theorem X13_indexed_assignment_overwrites_one_element
    n ie expr fuel m m1 m2 p s i v :
  eval svalBits expr m = Ok (IntV v) m1 ->
  eval svalBits ie m1 = Ok (IntV i) m2 ->
  lookupVariable (env m2) n = SeqV p ->
  heap m2 !! p = Some (Some s) ->
  0 <= i < len s ->
  exists s',
    execute svalBits (S fuel) (AssignmentStmt n (Some ie) expr) m =
      Ok tt (setHeap (<[p := Some s']> (heap m2)) m2) /\
    seq s' !! Z.to_nat i = Some v /\
    (forall j, j <> Z.to_nat i -> seq s' !! j = seq s !! j) /\
    length (seq s') = length (seq s) /\
    cap s' = cap s /\ ref s' = ref s.
Proof.
  intros E1 E2 Hn H Hi.
  exists (mkSequence (<[Z.to_nat i := v]> (seq s)) (cap s) (ref s)).
  split; [|split; [|split; [|split; [|split]]]]; cbn [seq cap ref]; trivial.
  - cbn [execute]. unfold executeAssignment.
    rewrite (bind_Ok _ _ _ _ _ E1), (bind_Ok _ _ _ _ _ E2).
    cbn [requireIntType isIntType vtype sameType negb ival]. rewrite bind_ret.
    unfold bind at 1, lookup at 1. rewrite Hn.
    cbn [requireSeqType isSeqType vtype sameType negb sval]. rewrite !bind_ret.
    step getSeq_live.
    destruct (Z.ltb_spec i 0); [lia|]. destruct (Z.geb_spec i (len s)); [lia|].
    cbn [orb]. now apply putSeq_live with s.
  - apply list_lookup_insert_eq. unfold len in Hi. lia.
  - intros j Hj. now apply list_lookup_insert_ne.
  - apply length_insert.
Qed.

(** X14.  An indexed assignment whose index is outside the sequence exits
    with "Index out of bounds", and one whose variable holds no sequence (in
    particular a variable never assigned, which reads as 0) exits with "Type
    mismatch"; in both cases nothing was written. *)
Theorem X14_indexed_assignment_failures n ie expr fuel m m1 m2 r i :
  eval svalBits expr m = Ok r m1 ->
  eval svalBits ie m1 = Ok (IntV i) m2 ->
  (forall x, lookupVariable (env m2) n = IntV x ->
     execute svalBits (S fuel) (AssignmentStmt n (Some ie) expr) m =
     Exit TypeMismatch m2) /\
  (forall p s, lookupVariable (env m2) n = SeqV p ->
     heap m2 !! p = Some (Some s) ->
     ~ 0 <= i < len s ->
     execute svalBits (S fuel) (AssignmentStmt n (Some ie) expr) m =
     Exit IndexOutOfBounds m2).
Proof.
  intros E1 E2.
  assert (Hstart :
    execute svalBits (S fuel) (AssignmentStmt n (Some ie) expr) m =
    (let* s := lookup n in
     run requireSeqType s then
     let* p := sval s in
     let* sq := getSeq p in
     if ((i <? 0) || (i >=? len sq))%bool then reportIndexOutOfBounds
     else putSeq p (mkSequence (<[Z.to_nat i := ival svalBits r]> (seq sq))
                               (cap sq) (ref sq))) m2).
  { cbn [execute]. unfold executeAssignment.
    rewrite (bind_Ok _ _ _ _ _ E1), (bind_Ok _ _ _ _ _ E2).
    cbn [requireIntType isIntType vtype sameType negb ival]. now rewrite bind_ret. }
  rewrite Hstart. split.
  - intros x Hx. unfold bind at 1, lookup at 1. now rewrite Hx.
  - intros p s Hp H Hi. unfold bind at 1, lookup at 1. rewrite Hp.
    cbn [requireSeqType isSeqType vtype sameType negb sval]. rewrite !bind_ret.
    step getSeq_live.
    destruct (Z.ltb_spec i 0); [reflexivity|].
    destruct (Z.geb_spec i (len s)); [reflexivity|lia].
Qed.

(** X15.  Assigning a live sequence to a variable that holds no sequence
    (a new name, or one bound to an integer) binds the name to that very
    block and raises the count of the block by one; no block is freed and
    nothing is printed. *)
Theorem X15_assignment_takes_a_reference n expr fuel m m1 p s x :
  eval svalBits expr m = Ok (SeqV p) m1 ->
  heap m1 !! p = Some (Some s) ->
  lookupVariable (env m1) n = IntV x ->
  exists m',
    execute svalBits (S fuel) (AssignmentStmt n None expr) m = Ok tt m' /\
    lookupVariable (env m') n = SeqV p /\
    heap m' = <[p := Some (mkSequence (seq s) (cap s) (ref s + 1))]> (heap m1) /\
    stdout m' = stdout m1.
Proof.
  intros E H Hn.
  unfold lookupVariable in Hn. rewrite lookupRec_findPos in Hn.
  assert (Hgrab := grabSequence_live m1 p s H).
  set (m2 := setHeap (<[p := Some (mkSequence (seq s) (cap s) (ref s + 1))]> (heap m1)) m1)
    in *.
  assert (Hset : exists m', setVariable n (SeqV p) m2 = Ok tt m' /\
                            heap m' = heap m2 /\ stdout m' = stdout m2).
  { unfold setVariable. change (env m2) with (env m1).
    destruct (vlist (env m1) !! findPos (vlist (env m1)) n) as [r|] eqn:Er.
    - rewrite Hn. rewrite bind_ret. eexists. split; [reflexivity|]. done.
    - eexists. split; [reflexivity|]. done. }
  destruct Hset as (m' & Hset & Hh & Ho).
  exists m'. split; [|split; [|split]].
  - cbn [execute]. unfold executeAssignment.
    rewrite (bind_Ok _ _ _ _ _ E). now rewrite (bind_Ok _ _ _ _ _ Hgrab).
  - now apply (setVariable_lookup n (SeqV p) m2 m').
  - exact Hh.
  - exact Ho.
Qed.

(** X16.  Assigning a live sequence to a variable that is bound to another
    live sequence with count at least 1 rebinds the name, raises the count of
    the new block by one, and lowers the count of the old block by one,
    freeing it when that was its only holder. *)
Theorem X16_reassignment_releases_old_sequence n expr fuel m m1 p s q sq :
  eval svalBits expr m = Ok (SeqV p) m1 ->
  heap m1 !! p = Some (Some s) ->
  lookupVariable (env m1) n = SeqV q ->
  heap m1 !! q = Some (Some sq) ->
  q <> p ->
  1 <= ref sq ->
  exists m',
    execute svalBits (S fuel) (AssignmentStmt n None expr) m = Ok tt m' /\
    lookupVariable (env m') n = SeqV p /\
    heap m' !! p = Some (Some (mkSequence (seq s) (cap s) (ref s + 1))) /\
    heap m' !! q =
      Some (if ref sq =? 1 then None
            else Some (mkSequence (seq sq) (cap sq) (ref sq - 1))) /\
    (forall j, j <> p -> j <> q -> heap m' !! j = heap m1 !! j).
Proof.
  intros E H Hn Hq Hne R.
  assert (Lp : (p < length (heap m1))%nat) by (eapply lookup_lt_Some; eauto).
  assert (Lq : (q < length (heap m1))%nat) by (eapply lookup_lt_Some; eauto).
  unfold lookupVariable in Hn. rewrite lookupRec_findPos in Hn.
  assert (Hgrab := grabSequence_live m1 p s H).
  set (h2 := <[p := Some (mkSequence (seq s) (cap s) (ref s + 1))]> (heap m1)) in *.
  destruct (vlist (env m1) !! findPos (vlist (env m1)) n) as [r|] eqn:Er;
    [|discriminate Hn].
  assert (Hrel : releaseSequence q (setHeap h2 m1) =
                 Ok tt (setHeap (<[q := released sq]> h2) m1)).
  { erewrite releaseSequence_live; [reflexivity | | done].
    subst h2. cbn [heap setHeap]. now rewrite list_lookup_insert_ne. }
  eexists. split; [|split; [|split; [|split]]].
  - cbn [execute]. unfold executeAssignment.
    rewrite (bind_Ok _ _ _ _ _ E), (bind_Ok _ _ _ _ _ Hgrab).
    unfold setVariable. cbn [env setHeap]. rewrite Er, Hn.
    rewrite (bind_Ok _ _ _ _ _ Hrel). reflexivity.
  - unfold lookupVariable. cbn [env setEnv setHeap vlist].
    now apply lookupRec_overwrite.
  - cbn [heap setEnv setHeap]. subst h2.
    rewrite list_lookup_insert_ne by done. now apply list_lookup_insert_eq.
  - cbn [heap setEnv setHeap]. subst h2. unfold released.
    now rewrite list_lookup_insert_eq by now rewrite length_insert.
  - intros j Hjp Hjq. cbn [heap setEnv setHeap]. subst h2.
    now rewrite !list_lookup_insert_ne.
Qed.

End Updates.

(** ** Tokens *)

Lemma scanWhile_length p len s tok rest :
  scanWhile p len s = Some (tok, rest) ->
  (len <= MAX_TOKEN)%nat ->
  (len + String.length tok <= MAX_TOKEN)%nat.
Proof.
  revert len tok rest. induction s as [|c s IH]; intros len tok rest.
  - cbn. intros [= <- <-]. cbn. lia.
  - cbn [scanWhile]. destruct (p c); [|intros [= <- <-]; cbn; lia].
    destruct (Nat.leb_spec MAX_TOKEN len) as [|Hlt]; [done|].
    destruct (scanWhile p (S len) s) as [[tok' rest']|] eqn:E; [|done].
    intros [= <- <-] _. cbn [String.length].
    specialize (IH (S len) tok' rest' E). lia.
Qed.

Lemma scanQuoted_length quote escape len s line tok rest :
  scanQuoted quote escape len s line = inr (tok, rest) ->
  (1 <= String.length tok /\ len + String.length tok <= MAX_TOKEN)%nat.
Proof.
  revert escape len tok rest. induction s as [|c s IH]; intros escape len tok rest.
  - done.
  - cbn [scanQuoted]. destruct (negb (Ascii.eqb c quote) || escape)%bool.
    + destruct (quoteStep escape c line) as [f| |c']; [done| |].
      * apply IH.
      * destruct (Nat.leb_spec MAX_TOKEN len) as [|Hlt]; [done|].
        destruct (scanQuoted quote false (S len) s line) as [f|[tok' rest']] eqn:E;
          [done|].
        intros [= <- <-]. cbn [String.length].
        specialize (IH false (S len) tok' rest' E). lia.
    + destruct (Nat.leb_spec MAX_TOKEN len) as [|Hlt]; [done|].
      destruct (_ && _)%bool; [done|]. intros [= <- <-]. cbn. lia.
Qed.

(** X17.  Every token that [parseToken] returns has at least one and at
    most [MAX_TOKEN] (1023) characters, so with its terminator it fits the
    buffer of [MAX_TOKEN + 1] characters that the callers provide. *)
Theorem X17_token_fits_buffer fp tok fp' :
  parseToken fp = Ok (Some tok) fp' ->
  (1 <= String.length tok <= MAX_TOKEN)%nat.
Proof.
  unfold parseToken.
  destruct (skipBlanks false (chars fp) (lineCount fp)) as [[[ch|] rest] line];
    [|done].
  destruct (isalpha ch || Ascii.eqb ch "_")%bool.
  { destruct (scanWhile _ 1 rest) as [[t r]|] eqn:E; [|done].
    intros [= <- _]. cbn [String.length].
    apply scanWhile_length in E; unfold MAX_TOKEN in *; lia. }
  destruct (Ascii.eqb ch "-" || isdigit ch)%bool.
  { destruct (scanWhile _ 1 rest) as [[t r]|] eqn:E; [|done].
    intros [= <- _]. cbn [String.length].
    apply scanWhile_length in E; unfold MAX_TOKEN in *; lia. }
  destruct (Ascii.eqb ch DQUOTE || Ascii.eqb ch SQUOTE)%bool.
  { destruct (scanQuoted ch false 1 rest line) as [f|[t r]] eqn:E; [done|].
    intros [= <- _]. cbn [String.length].
    apply scanQuoted_length in E. unfold MAX_TOKEN in *. lia. }
  unfold scanSymbol. destruct rest as [|ch2 rest].
  { intros [= <- _]. cbn. unfold MAX_TOKEN. lia. }
  destruct (_ || _)%bool; intros [= <- _]; cbn; unfold MAX_TOKEN; lia.
Qed.

(** ** Blanks and comments *)

(** The number of newline characters in a text. *)
Fixpoint newlines (s : string) : nat :=
  match s with
  | EmptyString => O
  | String c r => ((if Ascii.eqb c NL then 1 else 0) + newlines r)%nat
  end.

Lemma skipBlanks_blanks ws rest line :
  all_chars isspace ws = true ->
  skipBlanks false (ws +:+ rest) line = skipBlanks false rest (line + newlines ws).
Proof.
  revert line. induction ws as [|c ws IH]; intros line Hws.
  - cbn. now rewrite Nat.add_0_r.
  - cbn [all_chars] in Hws. apply andb_prop in Hws as [Hc Hws].
    change (String c ws +:+ rest) with (String c (ws +:+ rest)).
    cbn [skipBlanks newlines].
    assert (Ascii.eqb c "#" = false) as ->.
    { apply Ascii.eqb_neq. intros ->. discriminate Hc. }
    rewrite Hc, IH by done. destruct (Ascii.eqb c NL); f_equal; lia.
Qed.

Lemma skipBlanks_comment cs rest line :
  newlines cs = O ->
  skipBlanks true (cs +:+ String NL rest) line = skipBlanks false rest (S line).
Proof.
  induction cs as [|c cs IH]; intros Hcs; [reflexivity|].
  change (String c cs +:+ String NL rest) with (String c (cs +:+ String NL rest)).
  cbn [skipBlanks newlines] in *.
  destruct (Ascii.eqb c NL); [discriminate Hcs|]. now apply IH.
Qed.

Lemma skipBlanks_comment_eof cs line :
  newlines cs = O -> skipBlanks true cs line = (None, EmptyString, line).
Proof.
  induction cs as [|c cs IH]; intros Hcs; [reflexivity|].
  cbn [skipBlanks newlines] in *.
  destruct (Ascii.eqb c NL); [discriminate Hcs|]. now apply IH.
Qed.

(** X18.  Whitespace in front of a token is skipped, and the line counter
    advances by the number of newlines skipped: the tokenizer returns what it
    would return on the rest of the input from that later line. *)
Theorem X18_leading_whitespace_is_skipped ws rest line :
  all_chars isspace ws = true ->
  parseToken (mkInput (ws +:+ rest) line) =
  parseToken (mkInput rest (line + newlines ws)).
Proof.
  intros Hws. unfold parseToken. cbn [chars lineCount].
  now rewrite skipBlanks_blanks.
Qed.

(** X19.  A comment runs from [#] to the end of its line: the tokenizer
    returns what it would return on the text after the newline, one line
    further; and a comment that the input ends in yields the end of input. *)
Theorem X19_comment_is_skipped cs rest line :
  newlines cs = O ->
  parseToken (mkInput (String "#" (cs +:+ String NL rest)) line) =
    parseToken (mkInput rest (S line)) /\
  parseToken (mkInput (String "#" cs) line) = Ok None (mkInput EmptyString line).
Proof.
  intros Hcs. unfold parseToken. cbn [chars lineCount skipBlanks].
  change (Ascii.eqb "#" "#") with true. cbv iota.
  now rewrite skipBlanks_comment, skipBlanks_comment_eof.
Qed.

Lemma append_empty s : s +:+ EmptyString = s.
Proof.
  induction s as [|c s IH]; [done|].
  change (String c s +:+ EmptyString) with (String c (s +:+ EmptyString)).
  now rewrite IH.
Qed.

(** X20.  A program that consists of whitespace only runs to completion: it
    prints nothing, allocates nothing, binds nothing and [main] returns 0. *)
Theorem X20_blank_program svalBits fuel ws :
  all_chars isspace ws = true ->
  interpret svalBits (S fuel) ws =
  Ok EXIT_SUCCESS (mkMachine makeEnvironment [] EmptyString).
Proof.
  intros Hws. unfold interpret. cbn [mainLoop]. unfold parseToken.
  cbn [chars lineCount].
  pose proof (skipBlanks_blanks ws EmptyString 1 Hws) as H.
  rewrite append_empty in H. rewrite H. reflexivity.
Qed.

(** ** Integer literals *)

Lemma digit_facts c :
  isdigit c = true ->
  isalpha c = false /\ Ascii.eqb c "_" = false /\ Ascii.eqb c "#" = false /\
  isspace c = false /\ Ascii.eqb c "-" = false /\ Ascii.eqb c zero = false /\
  Ascii.eqb c "(" = false /\ 0 <= Z.of_N (code c) - 48 <= 9.
Proof.
  destruct c as [[] [] [] [] [] [] [] []]; intros H; vm_compute in H;
    try discriminate H; vm_compute; repeat split; congruence.
Qed.

Lemma uint_all_digits d : all_chars isdigit (NilEmpty.string_of_uint d) = true.
Proof. induction d; cbn [NilEmpty.string_of_uint all_chars]; try done; now rewrite IHd. Qed.

Lemma digitsValue_acc d acc :
  digitsValue (Z.pos acc) (NilEmpty.string_of_uint d) = Z.pos (Pos.of_uint_acc d acc).
Proof.
  revert acc.
  induction d; intros acc; cbn [NilEmpty.string_of_uint digitsValue Pos.of_uint_acc];
    [done|..];
    match goal with
    | |- digitsValue ?a _ = Z.pos (Pos.of_uint_acc _ ?b) =>
        replace a with (Z.pos b) by (vm_compute (Z.of_N (code _) - 48); lia)
    end; apply IHd.
Qed.

Lemma digitsValue_uint d :
  digitsValue 0 (NilEmpty.string_of_uint d) = Z.of_N (Pos.of_uint d).
Proof.
  induction d; cbn [NilEmpty.string_of_uint digitsValue Pos.of_uint]; [done|exact IHd|..];
    match goal with
    | |- digitsValue ?a _ = Z.of_N (N.pos (Pos.of_uint_acc _ ?b)) =>
        change a with (Z.pos b)
    end; apply digitsValue_acc.
Qed.

Lemma decimal_pos p :
  decimal (Z.pos p) = NilEmpty.string_of_uint (Pos.to_uint p).
Proof.
  unfold decimal. cbn [Z.to_int NilZero.string_of_int NilZero.string_of_uint].
  pose proof (DecimalPos.Unsigned.to_uint_nonnil p). now destruct (Pos.to_uint p).
Qed.

Lemma decimal_neg p :
  decimal (Z.neg p) = String "-" (NilEmpty.string_of_uint (Pos.to_uint p)).
Proof.
  unfold decimal. cbn [Z.to_int NilZero.string_of_int NilZero.string_of_uint].
  pose proof (DecimalPos.Unsigned.to_uint_nonnil p). now destruct (Pos.to_uint p).
Qed.

Lemma uint_nonempty d : d <> Decimal.Nil -> NilEmpty.string_of_uint d <> EmptyString.
Proof. now destruct d. Qed.

Lemma digitsValue_to_uint p :
  digitsValue 0 (NilEmpty.string_of_uint (Pos.to_uint p)) = Z.pos p.
Proof. now rewrite digitsValue_uint, DecimalPos.Unsigned.of_to. Qed.

(** Reading back what [printf( "%d" )] writes. *)
Lemma scanInt_decimal z : scanInt (decimal z) = Some (wrap32 (clampLong z)).
Proof.
  destruct z as [|p|p].
  - reflexivity.
  - rewrite decimal_pos. pose proof (uint_all_digits (Pos.to_uint p)) as Hd.
    pose proof (digitsValue_to_uint p) as Hv.
    pose proof (uint_nonempty _ (DecimalPos.Unsigned.to_uint_nonnil p)) as Hne.
    destruct (NilEmpty.string_of_uint (Pos.to_uint p)) as [|c ds] eqn:E; [done|].
    unfold scanInt. pose proof Hd as Hd'. cbn [all_chars] in Hd'.
    apply andb_prop in Hd' as [Hc _].
    destruct (digit_facts c Hc) as (_ & _ & _ & _ & -> & _).
    now rewrite Hd, Hv.
  - rewrite decimal_neg. unfold scanInt. change (Ascii.eqb "-" "-") with true.
    cbv iota. rewrite uint_all_digits.
    pose proof (uint_nonempty _ (DecimalPos.Unsigned.to_uint_nonnil p)) as Hne.
    apply String.eqb_neq in Hne as ->. cbn [andb negb].
    now rewrite digitsValue_to_uint.
Qed.

Lemma wrap32_small z : - 2 ^ 31 <= z < 2 ^ 31 -> wrap32 (clampLong z) = z.
Proof.
  intros H. unfold wrap32, clampLong.
  rewrite Z.min_r, Z.max_r by lia. rewrite Z.mod_small by lia. lia.
Qed.

Lemma digitsValue_lower ds acc :
  all_chars isdigit ds = true ->
  0 <= acc ->
  acc * 10 ^ Z.of_nat (String.length ds) <= digitsValue acc ds.
Proof.
  revert acc. induction ds as [|c ds IH]; intros acc Hd Hacc.
  - cbn. lia.
  - cbn [all_chars] in Hd. apply andb_prop in Hd as [Hc Hd].
    destruct (digit_facts c Hc) as (_ & _ & _ & _ & _ & _ & _ & Hv).
    cbn [digitsValue String.length]. rewrite Nat2Z.inj_succ, Z.pow_succ_r by lia.
    etransitivity; [|apply IH; [done|lia]].
    apply Z.le_trans with (10 * acc * 10 ^ Z.of_nat (String.length ds)); [lia|].
    apply Z.mul_le_mono_nonneg_r; [apply Z.pow_nonneg|]; lia.
Qed.

Lemma nzhead_no_leading_zero d :
  match Decimal.nzhead d with
  | Decimal.D0 _ => False
  | _ => True
  end.
Proof. induction d; cbn; auto. Qed.

Lemma to_uint_no_leading_zero p :
  match Pos.to_uint p with
  | Decimal.D0 _ | Decimal.Nil => False
  | _ => True
  end.
Proof.
  pose proof (DecimalPos.Unsigned.to_of (Pos.to_uint p)) as H.
  rewrite DecimalPos.Unsigned.of_to in H. cbn [N.to_uint] in H.
  pose proof (DecimalPos.Unsigned.to_uint_nonzero p) as Hz.
  pose proof (DecimalPos.Unsigned.to_uint_nonnil p) as Hn.
  pose proof (nzhead_no_leading_zero (Pos.to_uint p)) as Hh.
  unfold Decimal.unorm in H.
  destruct (Decimal.nzhead (Pos.to_uint p)) eqn:E; rewrite H; done.
Qed.

(** The number of decimal digits of a positive number below [10 ^ n]. *)
Lemma to_uint_length p n :
  Z.pos p < 10 ^ Z.of_nat n ->
  (String.length (NilEmpty.string_of_uint (Pos.to_uint p)) <= n)%nat.
Proof.
  intros Hp. pose proof (digitsValue_to_uint p) as Hv.
  pose proof (uint_all_digits (Pos.to_uint p)) as Hd.
  pose proof (to_uint_no_leading_zero p) as Hz.
  assert (Hlow : forall d s c,
            NilEmpty.string_of_uint (Pos.to_uint p) = String c s ->
            Z.of_N (code c) - 48 = d -> 1 <= d ->
            10 ^ Z.of_nat (String.length s) <= Z.pos p).
  { intros d s c Es Hc Hd1. rewrite Es in Hv, Hd. cbn [all_chars] in Hd.
    apply andb_prop in Hd as [_ Hd]. cbn [digitsValue] in Hv. rewrite Hc in Hv.
    rewrite <- Hv. etransitivity; [|apply digitsValue_lower; [done|lia]].
    replace (10 * 0 + d) with d by lia.
    pose proof (Z.pow_nonneg 10 (Z.of_nat (String.length s))). nia. }
  assert (Hlen : forall s c,
            NilEmpty.string_of_uint (Pos.to_uint p) = String c s ->
            10 ^ Z.of_nat (String.length s) <= Z.pos p ->
            (String.length (String c s) <= n)%nat).
  { intros s c _ Hle. cbn [String.length].
    destruct (Nat.le_gt_cases n (String.length s)) as [Hge|]; [|lia].
    assert (10 ^ Z.of_nat n <= 10 ^ Z.of_nat (String.length s))
      by (apply Z.pow_le_mono_r; lia). lia. }
  destruct (Pos.to_uint p) eqn:E; try done;
    cbn [NilEmpty.string_of_uint] in *;
    (eapply Hlen; [reflexivity|]; eapply Hlow; [reflexivity|vm_compute; reflexivity|lia]).
Qed.

Lemma decimal_length z :
  - 2 ^ 31 <= z < 2 ^ 31 -> (String.length (decimal z) <= 11)%nat.
Proof.
  intros H. destruct z as [|p|p].
  - cbn. lia.
  - rewrite decimal_pos. etransitivity; [apply (to_uint_length p 10); lia|lia].
  - rewrite decimal_neg. cbn [String.length].
    pose proof (to_uint_length p 10). lia.
Qed.

Lemma decimal_all_digits_nonneg z :
  0 <= z ->
  exists c ds, decimal z = String c ds /\ isdigit c = true /\
               all_chars isdigit ds = true.
Proof.
  intros H. destruct z as [|p|p]; [now exists "0"%char, EmptyString| |lia].
  rewrite decimal_pos. pose proof (uint_all_digits (Pos.to_uint p)) as Hd.
  pose proof (uint_nonempty _ (DecimalPos.Unsigned.to_uint_nonnil p)) as Hne.
  destruct (NilEmpty.string_of_uint (Pos.to_uint p)) as [|c ds]; [done|].
  cbn [all_chars] in Hd. apply andb_prop in Hd as [Hc Hd]. eauto.
Qed.

(** The decimal text of a number is one token when no digit follows it. *)
Lemma parseToken_decimal z rest line :
  (String.length (decimal z) <= MAX_TOKEN)%nat ->
  startsWith isdigit rest = false ->
  parseToken (mkInput (decimal z +:+ rest) line) =
  Ok (Some (decimal z)) (mkInput rest line).
Proof.
  intros Hlen Hrest. destruct (Z.neg_nonneg_cases z) as [Hneg|Hpos].
  - destruct z as [|p|p]; try lia. rewrite decimal_neg in *.
    apply parseToken_minus_digits; [apply uint_all_digits|exact Hlen|done].
  - destruct (decimal_all_digits_nonneg z Hpos) as (c & ds & E & Hc & Hds).
    rewrite E in *. cbn [String.length] in Hlen.
    destruct (digit_facts c Hc) as (Ha & Hu & Hh & Hs & Hm & _).
    unfold parseToken. cbn [chars lineCount].
    change (String c ds +:+ rest) with (String c (ds +:+ rest)).
    cbn [skipBlanks]. rewrite Hh, Hs, Ha, Hu, Hm, Hc. cbn [orb].
    now rewrite scanWhile_run.
Qed.

Lemma c_str_decimal z : c_str (decimal z) = decimal z.
Proof.
  destruct z as [|p|p]; [done| |].
  - rewrite decimal_pos. apply c_str_digits, uint_all_digits.
  - rewrite decimal_neg. cbn [c_str]. change (Ascii.eqb "-" zero) with false.
    cbv iota. f_equal. apply c_str_digits, uint_all_digits.
Qed.

Lemma parseTerm_decimal z fuel fp :
  parseTerm (S fuel) (decimal z) fp = Ok (LiteralInt (wrap32 (clampLong z))) fp.
Proof.
  cbn [parseTerm].
  assert (Hfirst : streq (decimal z) "(" = false /\
                   (Ascii.eqb (first (decimal z)) "-"
                    || isdigit (first (decimal z)))%bool = true).
  { destruct (Z.neg_nonneg_cases z) as [Hneg|Hpos].
    - destruct z as [|p|p]; try lia. rewrite decimal_neg.
      split; [|reflexivity]. unfold streq. cbn [c_str].
      change (Ascii.eqb "-" zero) with false. reflexivity.
    - destruct (decimal_all_digits_nonneg z Hpos) as (c & ds & E & Hc & Hds).
      rewrite E. cbn [first]. rewrite Hc, orb_true_r. split; [|done].
      destruct (digit_facts c Hc) as (_ & _ & _ & _ & _ & H0 & Hp & _).
      unfold streq. cbn [c_str]. rewrite H0. cbn. now rewrite Hp. }
  destruct Hfirst as [-> ->]. now rewrite c_str_decimal, scanInt_decimal.
Qed.

Lemma parseStmt_print fuel fp :
  parseStmt (S fuel) "print" fp =
  (let* tok' := expectToken in
   let* arg := parseExpr fuel tok' in
   run requireToken ";" then
   ret (PrintStmt arg)) fp.
Proof. reflexivity. Qed.

Lemma parseToken_blank rest line :
  parseToken (mkInput (String " " rest) line) = parseToken (mkInput rest line).
Proof. reflexivity. Qed.

Lemma infixLoop_semicolon fuel left rest line :
  infixLoop (S fuel) left (mkInput (String ";" rest) line) =
  Ok left (mkInput (String ";" rest) line).
Proof. destruct rest; reflexivity. Qed.

Lemma requireToken_semicolon rest line :
  requireToken ";" (mkInput (String ";" rest) line) = Ok tt (mkInput rest line).
Proof. destruct rest; reflexivity. Qed.

(** Every integer literal is an operand that stands for its value. *)
Lemma literal_operand z :
  - 2 ^ 31 <= z < 2 ^ 31 -> Operand 1 (decimal z) (LiteralInt z).
Proof.
  intros Hz fuel rest line Hfuel. destruct fuel as [|fuel]; [lia|].
  unfold bind, expectToken. rewrite parseToken_blank, parseToken_decimal;
    [ | pose proof (decimal_length z Hz); unfold MAX_TOKEN; lia | reflexivity ].
  now rewrite parseTerm_decimal, wrap32_small.
Qed.

(** X21.  For every integer [z] of the [int] range, the program that
    prints the decimal literal of [z] writes exactly that literal again, and
    [main] returns 0: what [printf( "%d" )] writes is what the tokenizer and
    [sscanf( "%d" )] read back, negative numbers included. *)
Theorem X21_print_integer_literal svalBits k z :
  - 2 ^ 31 <= z < 2 ^ 31 ->
  interpret svalBits (4 + k) ("print " +:+ decimal z +:+ ";") =
  Ok EXIT_SUCCESS (mkMachine makeEnvironment [] (decimal z)).
Proof.
  intros Hz. unfold interpret. change (4 + k)%nat with (S (S (S (S k)))).
  rewrite (mainLoop_statement svalBits _ _ _ "print"
             (mkInput (String " " (decimal z +:+ ";")) 1)
             (PrintStmt (LiteralInt z)) (mkInput EmptyString 1)
             (mkMachine makeEnvironment [] (decimal z))).
  - apply (mainLoop_end svalBits _ _ (mkInput EmptyString 1)); reflexivity.
  - reflexivity.
  - rewrite parseStmt_print. unfold bind at 1, expectToken.
    rewrite parseToken_blank, parseToken_decimal;
      [ | pose proof (decimal_length z Hz); unfold MAX_TOKEN; lia | reflexivity ].
    cbn [parseExpr]. unfold bind at 1. unfold bind at 1.
    rewrite parseTerm_decimal, wrap32_small by done.
    rewrite infixLoop_semicolon.
    now rewrite (bind_Ok _ _ _ _ _ (requireToken_semicolon _ _)).
  - reflexivity.
Qed.

(** ** String literals *)

(** The characters that stand for themselves inside a double-quoted string
    and are lowered to an element: not the quote, the backslash or the
    newline, and not the byte 255 (which the lowering loop takes for [EOF]). *)
Definition plainChar (c : ascii) : bool :=
  (negb (Ascii.eqb c DQUOTE) && negb (Ascii.eqb c BACKSLASH)
   && negb (Ascii.eqb c NL) && negb (char_to_int c =? -1))%bool.

Lemma plainChar_facts c :
  plainChar c = true ->
  Ascii.eqb c DQUOTE = false /\ Ascii.eqb c BACKSLASH = false /\
  Ascii.eqb c NL = false /\ (char_to_int c =? -1) = false.
Proof.
  unfold plainChar. intros H.
  repeat (apply andb_prop in H as [H ?]).
  repeat split; now apply negb_true_iff.
Qed.

Lemma scanQuoted_plain body rest len line :
  all_chars plainChar body = true ->
  (len + String.length body < MAX_TOKEN)%nat ->
  scanQuoted DQUOTE false len (body +:+ String DQUOTE rest) line =
  inr (body +:+ String DQUOTE EmptyString, rest).
Proof.
  revert len. induction body as [|c body IH]; intros len Hb Hlen.
  - change (EmptyString +:+ String DQUOTE rest) with (String DQUOTE rest).
    cbn [scanQuoted]. change (negb (Ascii.eqb DQUOTE DQUOTE) || false)%bool with false.
    cbv iota. cbn [String.length] in Hlen.
    destruct (Nat.leb_spec MAX_TOKEN len); [lia|]. reflexivity.
  - cbn [all_chars] in Hb. apply andb_prop in Hb as [Hc Hb].
    destruct (plainChar_facts c Hc) as (Hq & Hbs & Hnl & _).
    change (String c body +:+ String DQUOTE rest)
      with (String c (body +:+ String DQUOTE rest)).
    change (String c body +:+ String DQUOTE EmptyString)
      with (String c (body +:+ String DQUOTE EmptyString)).
    cbn [scanQuoted String.length] in *. rewrite Hq. cbn [negb orb].
    unfold quoteStep. rewrite Hnl, Hbs. cbn [negb andb].
    destruct (Nat.leb_spec MAX_TOKEN len); [lia|].
    rewrite IH; [reflexivity | done | lia].
Qed.

Lemma lowerString_plain body tail fp :
  all_chars plainChar body = true ->
  lowerString (body +:+ String DQUOTE tail) fp =
  Ok (map LiteralInt (map char_to_int (list_ascii_of_string body))) fp.
Proof.
  induction body as [|c body IH]; intros Hb.
  - reflexivity.
  - cbn [all_chars] in Hb. apply andb_prop in Hb as [Hc Hb].
    destruct (plainChar_facts c Hc) as (Hq & _ & _ & H255).
    change (String c body +:+ String DQUOTE tail)
      with (String c (body +:+ String DQUOTE tail)).
    cbn [lowerString list_ascii_of_string map]. rewrite Hq, H255.
    now rewrite (bind_Ok _ _ _ _ _ (IH Hb)).
Qed.

Lemma byte_char_to_int c : byte (char_to_int c) = String c EmptyString.
Proof. destruct c as [[] [] [] [] [] [] [] []]; reflexivity. Qed.

Lemma concat_bytes cs :
  String.concat EmptyString (map byte (map char_to_int cs)) = string_of_list_ascii cs.
Proof.
  induction cs as [|c cs IH]; [reflexivity|].
  cbn [map String.concat string_of_list_ascii]. rewrite byte_char_to_int.
  destruct cs as [|c' cs]; [reflexivity|].
  cbn [map] in *. now rewrite IH.
Qed.

Lemma parseTerm_string fuel x fp :
  parseTerm (S fuel) (String DQUOTE x) fp =
  (let* elist := lowerString x in ret (SequenceInitializer elist)) fp.
Proof. reflexivity. Qed.

Lemma parseToken_string body rest line :
  all_chars plainChar body = true ->
  (String.length body + 2 <= MAX_TOKEN)%nat ->
  parseToken (mkInput (String DQUOTE (body +:+ String DQUOTE rest)) line) =
  Ok (Some (String DQUOTE (body +:+ String DQUOTE EmptyString))) (mkInput rest line).
Proof.
  intros Hb Hlen. unfold parseToken. cbn [chars lineCount skipBlanks].
  change (Ascii.eqb DQUOTE "#") with false. change (isspace DQUOTE) with false.
  cbv iota. change (isalpha DQUOTE || Ascii.eqb DQUOTE "_")%bool with false.
  change (Ascii.eqb DQUOTE "-" || isdigit DQUOTE)%bool with false.
  change (Ascii.eqb DQUOTE DQUOTE || Ascii.eqb DQUOTE SQUOTE)%bool with true.
  cbv iota. rewrite scanQuoted_plain; [reflexivity | done | lia].
Qed.

(** X22.  Printing a string literal reproduces its text.  For every text
    made of characters that need no escape (and short enough for a token),
    the program [print "text";] writes exactly the text to the standard
    output, frees the sequence it built for the literal, and [main]
    returns 0. *)
Theorem X22_print_string_literal svalBits k body :
  all_chars plainChar body = true ->
  (String.length body + 2 <= MAX_TOKEN)%nat ->
  interpret svalBits (4 + k)
    ("print " +:+ String DQUOTE (body +:+ String DQUOTE ";")) =
  Ok EXIT_SUCCESS (mkMachine makeEnvironment [None] body).
Proof.
  intros Hb Hlen. unfold interpret. change (4 + k)%nat with (S (S (S (S k)))).
  set (xs := map char_to_int (list_ascii_of_string body)).
  rewrite (mainLoop_statement svalBits _ _ _ "print"
             (mkInput (String " " (String DQUOTE (body +:+ String DQUOTE ";"))) 1)
             (PrintStmt (SequenceInitializer (map LiteralInt xs)))
             (mkInput EmptyString 1)
             (mkMachine makeEnvironment [None] body)).
  - apply (mainLoop_end svalBits _ _ (mkInput EmptyString 1)); reflexivity.
  - reflexivity.
  - rewrite parseStmt_print. unfold bind at 1, expectToken.
    rewrite parseToken_blank, parseToken_string by done.
    cbn [parseExpr]. unfold bind at 1. unfold bind at 1.
    rewrite parseTerm_string. unfold bind at 1.
    rewrite lowerString_plain by done. cbn [ret]. fold xs.
    rewrite infixLoop_semicolon.
    now rewrite (bind_Ok _ _ _ _ _ (requireToken_semicolon _ _)).
  - assert (Hc : canAppend xs (mkSequence [] INIT_CAP 0) = true).
    { rewrite canAppend_empty. apply Z.leb_le. subst xs. rewrite length_map.
      assert (Hl : forall b, length (list_ascii_of_string b) = String.length b)
        by (induction b as [|c b IHb]; cbn; congruence).
      assert (Hmax : Z.of_nat MAX_TOKEN <= MAX_CAP) by (vm_compute; discriminate).
      rewrite Hl. lia. }
    cbn [execute].
    rewrite (bind_Ok _ _ _ _ _ (eval_initializer_literals svalBits xs _ Hc)).
    erewrite (executePrint_live svalBits _ O);
      [ | reflexivity | rewrite ref_fold_push_back; cbn [ref]; lia ].
    rewrite seq_fold_push_back, ref_fold_push_back. cbn [seq ref app].
    subst xs. rewrite concat_bytes, string_of_list_ascii_of_string. reflexivity.
Qed.

(** ** Parentheses *)

Lemma append_assoc a b c : (a +:+ b) +:+ c = a +:+ (b +:+ c).
Proof.
  induction a as [|x a IH]; [done|].
  change ((String x a +:+ b) +:+ c) with (String x ((a +:+ b) +:+ c)).
  change (String x a +:+ (b +:+ c)) with (String x (a +:+ (b +:+ c))).
  now rewrite IH.
Qed.

Lemma linkBefore_append l k tail : linkBefore l k +:+ tail = linkBefore l (k +:+ tail).
Proof.
  unfold linkBefore.
  change (String " " ?x +:+ tail) with (String " " (x +:+ tail)).
  rewrite append_assoc.
  change (String " " ?x +:+ tail) with (String " " (x +:+ tail)).
  rewrite append_assoc. now destruct (linkOp l).
Qed.

Lemma chainBefore_append links k tail :
  chainBefore links k +:+ tail = chainBefore links (k +:+ tail).
Proof.
  induction links as [|l links IH]; [done|].
  unfold chainBefore in *. cbn [foldr]. now rewrite linkBefore_append, IH.
Qed.

(** The text of a parenthesised chain: the first operand and the links,
    between an opening and a closing parenthesis, with blanks in between. *)
Definition parenthesised (w0 : string) (links : list Link) : string :=
  String "(" (String " " (w0 +:+ chainBefore links (String " " (String ")" EmptyString)))).

Lemma operand_then_expr {B} d w r (k : Expr -> Input -> Res Input B) fuel rest line :
  Operand d w r ->
  (d <= fuel)%nat ->
  (let* tok := expectToken in let* e := parseExpr (S fuel) tok in k e)
    (mkInput (String " " (w +:+ String " " rest)) line) =
  (let* e := infixLoop fuel r in k e) (mkInput (String " " rest) line).
Proof.
  intros H Hd. specialize (H fuel rest line Hd). unfold bind in *.
  destruct (expectToken _) as [tok fp| |]; [|done|done].
  cbn [parseExpr]. unfold bind.
  destruct (parseTerm fuel tok fp) as [e fp'| |]; [|done|done].
  now simplify_eq.
Qed.

Lemma infixLoop_closing fuel left rest line :
  infixLoop (S fuel) left (mkInput (String " " (String ")" (String " " rest))) line) =
  Ok left (mkInput (String ")" (String " " rest)) line).
Proof. reflexivity. Qed.

Lemma parseTerm_open fuel fp :
  parseTerm (S fuel) "(" fp =
  (let* tok' := expectToken in
   let* expr := parseExpr fuel tok' in
   run requireToken ")" then
   ret expr) fp.
Proof. reflexivity. Qed.

(** X23.  Parentheses group.  If [w0] is an operand for [left] and every
    link has an operand, then the parenthesised chain is itself an operand,
    and it stands for the chain folded from the left.  With C5 this is how
    [a * ( b + c )] gets the sum as its right operand. *)
Theorem X23_parentheses_group d w0 left links :
  Operand d w0 left ->
  Forall (fun l => Operand d (linkText l) (linkExpr l)) links ->
  Operand (length links + d + 3) (parenthesised w0 links)
    (fold_left applyLink links left).
Proof.
  intros H0 Hlinks fuel rest line Hfuel.
  replace fuel with (S (S (length links + S (fuel - 3 - length links)))) by lia.
  set (f := S (fuel - 3 - length links)).
  unfold parenthesised.
  change (String "(" ?x +:+ String " " rest) with (String "(" (x +:+ String " " rest)).
  change (String " " ?x +:+ String " " rest) with (String " " (x +:+ String " " rest)).
  rewrite append_assoc, chainBefore_append.
  change (String " " (String ")" EmptyString) +:+ String " " rest)
    with (String " " (String ")" (String " " rest))).
  assert (Hopen : forall x,
            expectToken (mkInput (String " " (String "(" (String " " x))) line) =
            Ok "(" (mkInput (String " " x) line)) by reflexivity.
  rewrite (bind_Ok _ _ _ _ _ (Hopen _)). rewrite parseTerm_open.
  destruct (chainBefore_blank links (String ")" (String " " rest))) as [tail Htail].
  rewrite Htail.
  rewrite (operand_then_expr d w0 left) by (done || lia).
  rewrite <- Htail.
  unfold bind at 1.
  rewrite (infixLoop_chain d links Hlinks f left _ line) by (subst f; lia).
  subst f. rewrite infixLoop_closing. reflexivity.
Qed.

(** ** Reference counts *)

(** What the value [v] contributes to the number of references to the
    block [p]. *)
Definition contrib (v : Value) (p : nat) : Z :=
  match v with
  | SeqV q => if Nat.eqb q p then 1 else 0
  | IntV _ => 0
  end.

(** The number of variables of the environment that hold the block [p]. *)
Fixpoint holders (vl : list VarRec) (p : nat) : Z :=
  match vl with
  | [] => 0
  | r :: rest => contrib (val r) p + holders rest p
  end.

(** The reference counts are exact: a block that a variable holds is live,
    and the count of every live block is the number of variables that hold
    it. *)
Definition counted (m : Machine) : Prop :=
  (forall p, 0 < holders (vlist (env m)) p ->
     exists s, heap m !! p = Some (Some s)) /\
  (forall p s, heap m !! p = Some (Some s) ->
     ref s = holders (vlist (env m)) p).

(** A value an operator can work on: a sequence is live and its count is
    not negative. *)
Definition operand (h : list (option Sequence)) (v : Value) : Prop :=
  match v with
  | IntV _ => True
  | SeqV p => exists s, h !! p = Some (Some s) /\ 0 <= ref s
  end.

(** The ways in which the evaluator stops a run: its three reports, and
    the two [int] operations that the process does not survive. *)
Definition evalError (f : Failure) : Prop :=
  f = TypeMismatch \/ f = DivideByZero \/ f = IndexOutOfBounds \/ f = Overflow.

Lemma holders_nonneg vl p : 0 <= holders vl p.
Proof.
  induction vl as [|r rest IH]; cbn [holders]; [lia|].
  unfold contrib. destruct (val r) as [|q]; [lia|]. destruct (Nat.eqb q p); lia.
Qed.

Lemma contrib_same p : contrib (SeqV p) p = 1.
Proof. unfold contrib. now rewrite Nat.eqb_refl. Qed.

Lemma contrib_other q p : q <> p -> contrib (SeqV q) p = 0.
Proof. intros H. unfold contrib. now apply Nat.eqb_neq in H as ->. Qed.

Lemma holders_app vl r p :
  holders (vl ++ [r]) p = holders vl p + contrib (val r) p.
Proof. induction vl as [|x rest IH]; cbn [holders app]; lia. Qed.

Lemma holders_insert vl pos r r' p :
  vl !! pos = Some r ->
  holders (<[pos := r']> vl) p = holders vl p - contrib (val r) p + contrib (val r') p.
Proof.
  revert pos. induction vl as [|x rest IH]; intros [|pos] H; simplify_eq/=;
    [lia|]. rewrite (IH pos H). lia.
Qed.

Lemma holders_lookup vl pos r p :
  vl !! pos = Some r -> val r = SeqV p -> 1 <= holders vl p.
Proof.
  revert pos. induction vl as [|x rest IH]; intros [|pos] H Hv; simplify_eq/=.
  - rewrite Hv, contrib_same. pose proof (holders_nonneg rest p). lia.
  - specialize (IH pos H Hv). unfold contrib.
    destruct (val x) as [|q]; [lia|]. destruct (Nat.eqb q p); lia.
Qed.

Lemma lookupRec_holders vl n p : lookupRec vl n = SeqV p -> 1 <= holders vl p.
Proof.
  rewrite lookupRec_findPos. destruct (vl !! findPos vl n) as [r|] eqn:E; [|done].
  intros Hv. eapply holders_lookup; eauto.
Qed.

Section Operators.

Variable svalBits : nat -> Z.

(** What an operator leaves behind: the environment as it was, and either
    an integer with the operands spent, or the new sequence it has built. *)
Definition opPost (ops : list Value) (m : Machine) (r : Res Machine Value)
  : Prop :=
  match r with
  | Ok v m' =>
      env m' = env m /\
      ((isIntType v = true /\ length (heap m') = length (heap m) /\
        forall q, (q < length (heap m))%nat -> spent ops (heap m) (heap m') q)
       \/
       (v = SeqV (length (heap m)) /\ built ops (heap m) (heap m')))
  | Exit f _ => evalError f
  | OutOfFuel => False
  end.

Lemma opPost_same ops m i : opPost ops m (Ok (IntV i) m).
Proof. split; [done|]. left. repeat split. intros q _. now left. Qed.

Lemma opPost_builds ops xs m r E :
  outcome r (builds ops xs m) E -> opPost ops m r.
Proof.
  destruct r as [v m'|f m'|]; [|intros [-> _]; unfold opPost, evalError; auto|done].
  intros (-> & He & _ & Hb & _). split; [done|]. now right.
Qed.

Lemma spent_afterUse ops h p s :
  h !! p = Some (Some s) -> In (SeqV p) ops ->
  forall q, spent ops h (<[p := afterUse s]> h) q.
Proof.
  intros H Hin q.
  assert (L : (p < length h)%nat) by (eapply lookup_lt_Some; eauto).
  destruct (decide (q = p)) as [->|Hne].
  - unfold afterUse. destruct (Z.eqb_spec (ref s) 0) as [Hz|Hz].
    + right. split; [done|]. split; [|eauto]. now rewrite list_lookup_insert_eq.
    + left. now rewrite list_lookup_insert_eq.
  - left. now rewrite list_lookup_insert_ne.
Qed.

Lemma evalAdd_post v1 v2 m :
  operand (heap m) v1 -> operand (heap m) v2 ->
  opPost [v1; v2] m (evalAdd svalBits v1 v2 m).
Proof.
  destruct v1 as [i1|p1], v2 as [i2|p2]; intros O1 O2; unfold evalAdd;
    cbn [isIntType isSeqType vtype sameType andb].
  - apply opPost_same.
  - destruct O2 as (s2 & H2 & R2).
    eapply opPost_builds.
    apply (addIntSeq_outcome svalBits m p2 s2 (IntV i1) _ H2 R2). simpl; auto.
  - destruct O1 as (s1 & H1 & R1).
    eapply opPost_builds.
    apply (addSeqInt_outcome svalBits m p1 s1 (IntV i2) _ H1 R1). simpl; auto.
  - destruct O1 as (s1 & H1 & R1), O2 as (s2 & H2 & R2).
    eapply opPost_builds.
    apply (addSeqSeq_outcome m p1 p2 s1 s2 _ H1 H2 R1 R2); simpl; auto.
Qed.

Lemma evalSub_post v1 v2 m :
  operand (heap m) v1 -> operand (heap m) v2 ->
  opPost [v1; v2] m (evalSub svalBits v1 v2 m).
Proof.
  destruct v1 as [i1|p1], v2 as [i2|p2]; intros _ _;
    first [ apply opPost_same | cbn; unfold evalError; auto ].
Qed.

Lemma evalMul_post v1 v2 m :
  operand (heap m) v1 -> operand (heap m) v2 ->
  opPost [v1; v2] m (evalMul svalBits v1 v2 m).
Proof.
  destruct v1 as [i1|p1]; intros O1 O2; unfold evalMul;
    cbn [isIntType isSeqType vtype sameType andb].
  - destruct v2 as [i2|p2]; cbn [isIntType isSeqType vtype sameType andb].
    + apply opPost_same.
    + destruct O2 as (s2 & H2 & R2).
      eapply opPost_builds.
      apply (repeatSeq_outcome m p2 s2 (ival svalBits (IntV i1)) _ H2 R2).
      simpl; auto.
  - destruct O1 as (s1 & H1 & R1).
    eapply opPost_builds.
    apply (repeatSeq_outcome m p1 s1 (ival svalBits v2) _ H1 R1). simpl; auto.
Qed.

Lemma evalDiv_post v1 v2 m :
  operand (heap m) v1 -> operand (heap m) v2 ->
  opPost [v1; v2] m (evalDiv svalBits v1 v2 m).
Proof.
  destruct v1 as [i1|p1], v2 as [i2|p2]; intros _ _;
    try (cbn; unfold evalError; auto; fail).
  unfold evalDiv. cbn [requireIntType isIntType vtype sameType negb].
  rewrite !bind_ret. cbn [ival]. destruct (i2 =? 0).
  - cbn. unfold evalError. auto.
  - destruct (_ && _)%bool.
    + cbn. unfold evalError. auto.
    + apply opPost_same.
Qed.

Lemma evalLess_post v1 v2 m :
  operand (heap m) v1 -> operand (heap m) v2 ->
  opPost [v1; v2] m (evalLess svalBits v1 v2 m).
Proof.
  destruct v1 as [i1|p1], v2 as [i2|p2]; intros O1 O2;
    try (cbn; unfold evalError; auto; fail).
  - apply opPost_same.
  - destruct O1 as (s1 & H1 & _), O2 as (s2 & H2 & _).
    unfold evalLess. cbn [isIntType vtype sameType negb sval]. rewrite !bind_ret.
    rewrite (bind_Ok _ _ _ _ _ (getSeq_live _ _ _ H1)).
    rewrite (bind_Ok _ _ _ _ _ (getSeq_live _ _ _ H2)).
    apply opPost_same.
Qed.

Lemma evalEquals_post v1 v2 m :
  operand (heap m) v1 -> operand (heap m) v2 ->
  opPost [v1; v2] m (evalEquals svalBits v1 v2 m).
Proof.
  destruct v1 as [i1|p1], v2 as [i2|p2]; intros O1 O2;
    try apply opPost_same.
  destruct O1 as (s1 & H1 & _), O2 as (s2 & H2 & _).
  unfold evalEquals. cbn [isIntType isSeqType vtype sameType andb orb sval].
  rewrite !bind_ret.
  rewrite (bind_Ok _ _ _ _ _ (getSeq_live _ _ _ H1)).
  rewrite (bind_Ok _ _ _ _ _ (getSeq_live _ _ _ H2)).
  apply opPost_same.
Qed.

Lemma evalSequenceIndex_post v1 v2 m :
  operand (heap m) v1 -> operand (heap m) v2 ->
  opPost [v1; v2] m (evalSequenceIndex svalBits v1 v2 m).
Proof.
  destruct v1 as [i1|p1], v2 as [i2|p2]; intros O1 O2;
    try (cbn; unfold evalError; auto; fail).
  destruct O1 as (s1 & H1 & R1).
  rewrite (evalSequenceIndex_live svalBits m p1 s1 i2 H1 R1).
  destruct (_ || _)%bool.
  - cbn. unfold evalError. auto.
  - split; [done|]. left. machine_simpl. rewrite length_insert.
    repeat split. intros q _. apply spent_afterUse; simpl; auto.
Qed.

Lemma evalLen_post v m :
  operand (heap m) v -> opPost [v] m (evalLen v m).
Proof.
  destruct v as [i|p]; intros O; [cbn; unfold evalError; auto|].
  destruct O as (s & H & R). rewrite (evalLen_live m p s H R).
  split; [done|]. left. machine_simpl. rewrite length_insert.
  repeat split. intros q _. apply spent_afterUse; simpl; auto.
Qed.

End Operators.

(** ** Expressions and the heap *)

(** [extends h h']: the heap [h'] is [h], unchanged, followed by new blocks,
    and every new block that is live has count zero. *)
Definition extends (h h' : list (option Sequence)) : Prop :=
  (length h <= length h')%nat /\
  (forall q, (q < length h)%nat -> h' !! q = h !! q) /\
  (forall q s, (length h <= q)%nat -> h' !! q = Some (Some s) -> ref s = 0).

(** A value an enclosing expression can use: a sequence is live, and is
    either held (its count is positive) or a temporary made since the heap
    had [b] blocks. *)
Definition usable (b : nat) (h : list (option Sequence)) (v : Value) : Prop :=
  match v with
  | IntV _ => True
  | SeqV p => exists s, h !! p = Some (Some s) /\ (1 <= ref s \/ (b <= p)%nat)
  end.

Definition evalPost (m : Machine) (r : Res Machine Value) : Prop :=
  match r with
  | Ok v m' =>
      env m' = env m /\ extends (heap m) (heap m') /\
      usable (length (heap m)) (heap m') v
  | Exit f _ => evalError f
  | OutOfFuel => False
  end.

Definition evalSafe (c : M Value) : Prop :=
  forall m, counted m -> evalPost m (c m).

Lemma extends_refl h : extends h h.
Proof.
  split; [lia|]. split; [done|]. intros q s Hq H.
  apply lookup_lt_Some in H. lia.
Qed.

Lemma extends_trans h1 h2 h3 : extends h1 h2 -> extends h2 h3 -> extends h1 h3.
Proof.
  intros (L1 & F1 & N1) (L2 & F2 & N2). split; [lia|]. split.
  - intros q Hq. rewrite F2 by lia. now apply F1.
  - intros q s Hq H. destruct (decide (q < length h2)%nat) as [Hlt|Hge].
    + rewrite F2 in H by done. eauto.
    + apply (N2 q s); [lia|done].
Qed.

Lemma extends_app h s : ref s = 0 -> extends h (h ++ [Some s]).
Proof.
  intros Hs. split; [rewrite length_app; lia|]. split.
  - intros q Hq. now rewrite lookup_app_l.
  - intros q s' Hq H.
    destruct (decide (q = length h)) as [->|Hne].
    + rewrite list_lookup_middle in H by done. now simplify_eq.
    + apply lookup_lt_Some in H. rewrite length_app in H. simpl in H. lia.
Qed.

(** Rewriting a block that is new with respect to [h]. *)
Lemma extends_insert h h' p s :
  extends h h' -> (length h <= p)%nat -> ref s = 0 ->
  extends h (<[p := Some s]> h').
Proof.
  intros (L & F & N) Hp Hs. split; [rewrite length_insert; lia|]. split.
  - intros q Hq. rewrite list_lookup_insert_ne by lia. now apply F.
  - intros q s' Hq H. destruct (decide (q = p)) as [->|Hne].
    + assert (Hl : (p < length h')%nat).
      { apply lookup_lt_Some in H. now rewrite length_insert in H. }
      rewrite list_lookup_insert_eq in H by done. now simplify_eq.
    + rewrite list_lookup_insert_ne in H by done. eauto.
Qed.

Lemma counted_extends m m' :
  counted m -> env m' = env m -> extends (heap m) (heap m') -> counted m'.
Proof.
  intros [Hlive Hcount] He (L & F & N). unfold counted. rewrite He. split.
  - intros p Hp. destruct (Hlive p Hp) as [s Hs].
    exists s. rewrite F; [done|]. eapply lookup_lt_Some; eauto.
  - intros p s Hs. destruct (decide (p < length (heap m))%nat) as [Hlt|Hge].
    + rewrite F in Hs by done. eauto.
    + rewrite (N p s) by (lia || done).
      pose proof (holders_nonneg (vlist (env m)) p) as Hn.
      destruct (decide (0 < holders (vlist (env m)) p)) as [Hpos|]; [|lia].
      destruct (Hlive p Hpos) as [s' Hs']. apply lookup_lt_Some in Hs'. lia.
Qed.

Lemma usable_extends b h h' v : usable b h v -> extends h h' -> usable b h' v.
Proof.
  destruct v as [i|p]; [done|]. intros (s & Hs & Hr) (L & F & N).
  exists s. split; [|done]. rewrite F; [done|]. eapply lookup_lt_Some; eauto.
Qed.

Lemma usable_mono b b' h v : (b' <= b)%nat -> usable b h v -> usable b' h v.
Proof.
  destruct v as [i|p]; [done|]. intros Hb (s & Hs & Hr).
  exists s. split; [done|]. lia.
Qed.

Lemma usable_operand b m v : counted m -> usable b (heap m) v -> operand (heap m) v.
Proof.
  destruct v as [i|p]; [done|]. intros [_ Hcount] (s & Hs & _).
  exists s. split; [done|]. rewrite (Hcount p s Hs). apply holders_nonneg.
Qed.

(** An operator applied to usable values, at the end of an evaluation that
    began in [m0]. *)
Lemma op_after ops m0 m r :
  env m = env m0 -> extends (heap m0) (heap m) ->
  Forall (usable (length (heap m0)) (heap m)) ops ->
  opPost ops m r -> evalPost m0 r.
Proof.
  intros He (L & F & N) Hops. destruct r as [v m'|f m'|]; [|done|done].
  intros [He' Hcase].
  assert (Hold : forall q, (q < length (heap m0))%nat ->
                   spent ops (heap m) (heap m') q -> heap m' !! q = heap m0 !! q).
  { intros q Hq [Heq|(Hin & _ & s & Hs & Hz)]; [rewrite Heq; now apply F|].
    rewrite Forall_forall in Hops. apply list_elem_of_In in Hin.
    destruct (Hops _ Hin) as (s' & Hs' & Hr). simplify_eq. lia. }
  assert (Hnew : forall q s, (length (heap m0) <= q < length (heap m))%nat ->
                   spent ops (heap m) (heap m') q ->
                   heap m' !! q = Some (Some s) -> ref s = 0).
  { intros q s Hq [Heq|(_ & Hnone & _)] Hs; [|congruence].
    rewrite Heq in Hs. apply (N q s); [lia|done]. }
  split; [congruence|].
  destruct Hcase as [(Hint & Hlen & Hsp)|(-> & Hlen & (r & Hr & Hz) & Hsp)].
  - split; [|destruct v; [done|discriminate]].
    split; [lia|]. split.
    + intros q Hq. apply Hold; [done|]. apply Hsp. lia.
    + intros q s Hq Hs. assert ((q < length (heap m))%nat).
      { apply lookup_lt_Some in Hs. lia. }
      apply (Hnew q s); [lia| |done]. now apply Hsp.
  - split.
    + split; [lia|]. split.
      * intros q Hq. apply Hold; [done|]. apply Hsp. lia.
      * intros q s Hq Hs.
        destruct (decide (q < length (heap m))%nat) as [Hlt|Hge].
        -- apply (Hnew q s); [lia| |done]. now apply Hsp.
        -- assert (q = length (heap m)) as ->.
           { apply lookup_lt_Some in Hs. lia. }
           congruence.
    + exists r. split; [done|]. right. lia.
Qed.

Lemma evalPost_then m v1 m1 r :
  evalPost m (Ok v1 m1) -> evalPost m1 r ->
  match r with
  | Ok v m' => evalPost m (Ok v m')
  | _ => evalPost m r
  end.
Proof.
  intros (He1 & X1 & _). destruct r as [v m'|f m'|]; [|done|done].
  intros (He2 & X2 & U). split; [congruence|]. split.
  - eapply extends_trans; eauto.
  - eapply usable_mono; [|exact U]. apply X1.
Qed.

Section Expressions.

Variable svalBits : nat -> Z.

Lemma binary_safe (c1 c2 : M Value) (op : Value -> Value -> M Value) :
  evalSafe c1 -> evalSafe c2 ->
  (forall v1 v2 m, operand (heap m) v1 -> operand (heap m) v2 ->
     opPost [v1; v2] m (op v1 v2 m)) ->
  evalSafe (let* v1 := c1 in let* v2 := c2 in op v1 v2).
Proof.
  intros H1 H2 Hop m Hc. unfold bind.
  specialize (H1 m Hc). destruct (c1 m) as [v1 m1|f m1|]; [|done|done].
  destruct H1 as (He1 & X1 & U1).
  assert (Hc1 : counted m1) by (eapply counted_extends; eauto).
  specialize (H2 m1 Hc1). destruct (c2 m1) as [v2 m2|f m2|]; [|done|done].
  destruct H2 as (He2 & X2 & U2).
  assert (Hc2 : counted m2) by (eapply counted_extends; eauto).
  assert (U1' : usable (length (heap m)) (heap m2) v1)
    by (eapply usable_extends; eauto).
  assert (U2' : usable (length (heap m)) (heap m2) v2)
    by (eapply usable_mono; [|exact U2]; apply X1).
  apply (op_after [v1; v2] m m2).
  - congruence.
  - eapply extends_trans; eauto.
  - repeat constructor; done.
  - apply Hop; eapply usable_operand; eauto.
Qed.

Lemma unary_safe (c : M Value) (op : Value -> M Value) :
  evalSafe c ->
  (forall v m, operand (heap m) v -> opPost [v] m (op v m)) ->
  evalSafe (let* v := c in op v).
Proof.
  intros H1 Hop m Hc. unfold bind.
  specialize (H1 m Hc). destruct (c m) as [v1 m1|f m1|]; [|done|done].
  destruct H1 as (He1 & X1 & U1).
  assert (Hc1 : counted m1) by (eapply counted_extends; eauto).
  apply (op_after [v1] m m1); [done|done|repeat constructor; done|].
  apply Hop. eapply usable_operand; eauto.
Qed.

(** The second operand of [&&] and [||], which has to be an integer. *)
Lemma second_safe (c : M Value) :
  evalSafe c ->
  evalSafe (let* v2 := c in run requireIntType v2 then ret v2).
Proof.
  intros H m Hc. unfold bind. specialize (H m Hc).
  destruct (c m) as [[i|p] m1|f m1|]; [done| |done|done].
  cbn. unfold evalError. auto.
Qed.

Lemma first_safe (c1 c2 : M Value) (stop : Z -> bool) :
  evalSafe c1 -> evalSafe c2 ->
  evalSafe (let* v1 := c1 in
            run requireIntType v1 then
            if stop (ival svalBits v1) then ret v1 else c2).
Proof.
  intros H1 H2 m Hc. unfold bind at 1. specialize (H1 m Hc).
  destruct (c1 m) as [[i|p] m1|f m1|] eqn:E1; [| |done|done].
  - cbn [requireIntType isIntType vtype sameType negb]. rewrite bind_ret.
    cbn [ival]. destruct (stop i); [exact H1|].
    assert (Hc1 : counted m1) by (destruct H1 as (? & ? & _); eapply counted_extends; eauto).
    pose proof (evalPost_then m (IntV i) m1 (c2 m1) H1 (H2 m1 Hc1)) as Hthen.
    destruct (c2 m1); done.
  - cbn. unfold evalError. auto.
Qed.

Lemma initializerLoop_safe p l m0 :
  Forall (fun x => evalSafe (eval svalBits x)) l ->
  counted m0 -> p = length (heap m0) ->
  forall m,
    env m = env m0 -> extends (heap m0) (heap m) ->
    (exists s, heap m !! p = Some (Some s)) ->
    match initializerLoop svalBits p l m with
    | Ok _ m' =>
        env m' = env m0 /\ extends (heap m0) (heap m') /\
        exists s, heap m' !! p = Some (Some s)
    | Exit f _ => evalError f
    | OutOfFuel => False
    end.
Proof.
  intros Hl Hc0 ->. induction Hl as [|x rest Hx _ IH]; intros m He X (s & Hs).
  - cbn. eauto.
  - cbn [initializerLoop].
    assert (Hz : ref s = 0).
    { destruct X as (_ & _ & N). apply (N (length (heap m0)) s); [lia|done]. }
    assert (L : (length (heap m0) < length (heap m))%nat)
      by (eapply lookup_lt_Some; eauto).
    destruct (canGrow s) eqn:Hg; cycle 1.
    { rewrite (bind_Exit _ _ _ _ _ (grow_overflow _ _ _ Hs Hg)).
      unfold evalError. auto. }
    rewrite (bind_Ok _ _ _ _ _ (grow_live _ _ _ Hs Hg)).
    set (m1 := setHeap _ m).
    assert (Hg0 : ref (grown s) = 0).
    { unfold grown. now destruct (_ >=? _). }
    assert (X1 : extends (heap m0) (heap m1)).
    { apply extends_insert; [done|lia|done]. }
    assert (Hc1 : counted m1) by (eapply counted_extends; eauto).
    unfold bind at 1. specialize (Hx m1 Hc1).
    destruct (eval svalBits x m1) as [[i|q] m2|f m2|]; [| |done|done].
    + destruct Hx as (He2 & X2 & _).
      cbn [requireIntType isIntType vtype sameType negb]. rewrite bind_ret.
      assert (Hs2 : heap m2 !! length (heap m0) = Some (Some (grown s))).
      { destruct X2 as (_ & F & _). rewrite F.
        - subst m1. heap_lookup.
        - subst m1. machine_simpl. rewrite length_insert.
          eapply lookup_lt_Some; eauto. }
      assert (L2 : (length (heap m0) < length (heap m2))%nat)
        by (eapply lookup_lt_Some; eauto).
      step getSeq_live. step putSeq_live. apply IH.
      * machine_simpl. rewrite He2. exact He.
      * apply extends_insert; [eapply extends_trans; eauto|lia|].
        unfold store. cbn [ref]. exact Hg0.
      * eexists. heap_lookup.
    + cbn. unfold evalError. auto.
Qed.

Lemma eval_safe e : evalSafe (eval svalBits e).
Proof.
  induction e as [v|a b IHa IHb|a b IHa IHb|a b IHa IHb|a b IHa IHb
                 |a b IHa IHb|a b IHa IHb|a b IHa IHb|a b IHa IHb
                 |l IHl|a IHa|n|a b IHa IHb] using Expr_nested_ind;
    try rewrite eval_SequenceInitializer; cbn [eval].
  - intros m _. split; [done|]. split; [apply extends_refl|done].
  - apply binary_safe; auto using evalAdd_post.
  - apply binary_safe; auto using evalSub_post.
  - apply binary_safe; auto using evalMul_post.
  - apply binary_safe; auto using evalDiv_post.
  - apply (first_safe _ _ (fun i => i =? 0)); [done|]. now apply second_safe.
  - apply (first_safe _ _ (fun i => negb (i =? 0))); [done|]. now apply second_safe.
  - apply binary_safe; auto using evalLess_post.
  - apply binary_safe; auto using evalEquals_post.
  - intros m Hc. unfold bind at 1, makeSequence at 1.
    set (m1 := setHeap _ m).
    assert (H : match initializerLoop svalBits (length (heap m)) l m1 with
                | Ok _ m' =>
                    env m' = env m /\ extends (heap m) (heap m') /\
                    exists s, heap m' !! length (heap m) = Some (Some s)
                | Exit f _ => evalError f
                | OutOfFuel => False
                end).
    { apply initializerLoop_safe; [done..| |].
      - now apply extends_app.
      - eexists. subst m1. heap_lookup. }
    unfold bind at 1. destruct (initializerLoop _ _ _ m1) as [[] m2|f m2|];
      [|done|done].
    destruct H as (He & X & s & Hs).
    cbn. split; [done|]. split; [done|]. exists s. split; [done|]. right. lia.
  - apply unary_safe; auto using evalLen_post.
  - intros m Hc. cbn. split; [done|]. split; [apply extends_refl|].
    destruct (lookupVariable (env m) n) as [i|p] eqn:E; [done|].
    apply lookupRec_holders in E. destruct Hc as [Hlive Hcount].
    destruct (Hlive p) as [s Hs]; [lia|].
    exists s. split; [done|]. left. rewrite (Hcount p s Hs). done.
  - apply binary_safe; auto using evalSequenceIndex_post.
Qed.

End Expressions.

(** ** Statements and the reference counts *)

Lemma contrib_nonneg v p : 0 <= contrib v p <= 1.
Proof. destruct v as [i|q]; cbn; [lia|]. destruct (Nat.eqb q p); lia. Qed.

Lemma counted_same m m' :
  counted m -> env m' = env m -> heap m' = heap m -> counted m'.
Proof. unfold counted. now intros H -> ->. Qed.

(** Rewriting a live block without changing its count. *)
Lemma counted_insert_same m m' p s s' :
  counted m -> env m' = env m -> heap m !! p = Some (Some s) ->
  ref s' = ref s -> heap m' = <[p := Some s']> (heap m) -> counted m'.
Proof.
  intros [Hlive Hcount] He Hs Hr Hh. unfold counted. rewrite He, Hh.
  assert (L : (p < length (heap m))%nat) by (eapply lookup_lt_Some; eauto).
  split.
  - intros q Hq. destruct (decide (q = p)) as [->|Hne].
    + exists s'. now rewrite list_lookup_insert_eq.
    + rewrite list_lookup_insert_ne by done. auto.
  - intros q x Hx. destruct (decide (q = p)) as [->|Hne].
    + rewrite list_lookup_insert_eq in Hx by done. simplify_eq.
      rewrite Hr. auto.
    + rewrite list_lookup_insert_ne in Hx by done. auto.
Qed.

(** Freeing a block with count zero. *)
Lemma counted_insert_free m m' p s :
  counted m -> env m' = env m -> heap m !! p = Some (Some s) ->
  ref s = 0 -> heap m' = <[p := None]> (heap m) -> counted m'.
Proof.
  intros [Hlive Hcount] He Hs Hr Hh. unfold counted. rewrite He, Hh.
  assert (L : (p < length (heap m))%nat) by (eapply lookup_lt_Some; eauto).
  split.
  - intros q Hq. destruct (decide (q = p)) as [->|Hne].
    + rewrite <- (Hcount p s Hs) in Hq. lia.
    + rewrite list_lookup_insert_ne by done. auto.
  - intros q x Hx. destruct (decide (q = p)) as [->|Hne].
    + rewrite list_lookup_insert_eq in Hx by done. discriminate.
    + rewrite list_lookup_insert_ne in Hx by done. auto.
Qed.

(** The counts are exact once the value [v] is stored in one more
    variable. *)
Definition countedWith (v : Value) (m : Machine) : Prop :=
  (forall p, 0 < holders (vlist (env m)) p + contrib v p ->
     exists s, heap m !! p = Some (Some s)) /\
  (forall p s, heap m !! p = Some (Some s) ->
     ref s = holders (vlist (env m)) p + contrib v p).

Lemma countedWith_int m i : counted m -> countedWith (IntV i) m.
Proof.
  intros [Hlive Hcount]. split.
  - intros p Hp. apply Hlive. cbn in Hp. lia.
  - intros p s Hs. cbn. rewrite (Hcount p s Hs). lia.
Qed.

Lemma countedWith_grab m p s :
  counted m -> heap m !! p = Some (Some s) ->
  countedWith (SeqV p)
    (setHeap (<[p := Some (mkSequence (seq s) (cap s) (ref s + 1))]> (heap m)) m).
Proof.
  intros [Hlive Hcount] Hs.
  assert (L : (p < length (heap m))%nat) by (eapply lookup_lt_Some; eauto).
  split; machine_simpl.
  - intros q Hq. destruct (decide (q = p)) as [->|Hne].
    + rewrite list_lookup_insert_eq by done. eauto.
    + rewrite list_lookup_insert_ne by done. apply Hlive.
      rewrite contrib_other in Hq by done. lia.
  - intros q x Hx. destruct (decide (q = p)) as [->|Hne].
    + rewrite list_lookup_insert_eq in Hx by done. simplify_eq. cbn [ref].
      rewrite contrib_same, (Hcount p s Hs). lia.
    + rewrite list_lookup_insert_ne in Hx by done.
      rewrite contrib_other by done. rewrite (Hcount q x Hx). lia.
Qed.

Lemma setVariable_counted n v m :
  countedWith v m -> exists m', setVariable n v m = Ok tt m' /\ counted m'.
Proof.
  intros [Hlive Hcount]. unfold setVariable. cbv zeta.
  destruct (vlist (env m) !! findPos (vlist (env m)) n) as [r|] eqn:E.
  - destruct (val r) as [i|q] eqn:Ev.
    + rewrite bind_ret. eexists. split; [reflexivity|].
      split; cbn [env heap setEnv vlist]; intros p;
        rewrite (holders_insert _ _ r _ _ E), Ev; cbn [val contrib].
      * intros Hp. apply Hlive. lia.
      * intros s Hs. rewrite (Hcount p s Hs). lia.
    + pose proof (holders_lookup _ _ _ _ E Ev) as Hq.
      pose proof (contrib_nonneg v q) as Hv.
      destruct (Hlive q) as [s Hs]; [lia|].
      pose proof (Hcount q s Hs) as Hr.
      assert (L : (q < length (heap m))%nat) by (eapply lookup_lt_Some; eauto).
      erewrite bind_Ok; [|apply (releaseSequence_live m q s Hs); lia].
      eexists. split; [reflexivity|].
      split; cbn [env heap setEnv setHeap vlist]; intros p;
        rewrite (holders_insert _ _ r _ _ E), Ev; cbn [val].
      * intros Hp. destruct (decide (p = q)) as [->|Hne].
        -- rewrite list_lookup_insert_eq by done. rewrite contrib_same in Hp.
           unfold released. destruct (Z.eqb_spec (ref s) 1); [lia|]. eauto.
        -- rewrite list_lookup_insert_ne by done. apply Hlive.
           rewrite contrib_other in Hp by done. lia.
      * intros x Hx. destruct (decide (p = q)) as [->|Hne].
        -- rewrite list_lookup_insert_eq in Hx by done. rewrite contrib_same.
           unfold released in Hx. destruct (Z.eqb_spec (ref s) 1); simplify_eq.
           cbn [ref]. lia.
        -- rewrite list_lookup_insert_ne in Hx by done.
           rewrite contrib_other by done. rewrite (Hcount p x Hx). lia.
  - eexists. split; [reflexivity|].
    split; cbn [env heap setEnv vlist]; intros p; rewrite holders_app; cbn [val]; auto.
Qed.

Definition stmtPost (r : Res Machine unit) : Prop :=
  match r with
  | Ok _ m' => counted m'
  | Exit f _ => evalError f
  | OutOfFuel => True
  end.

Definition stmtSafe (c : M unit) : Prop := forall m, counted m -> stmtPost (c m).

Section Statements.

Variable svalBits : nat -> Z.

(** A statement that begins by evaluating an expression. *)
Lemma after_eval e (k : Value -> M unit) :
  (forall v m b, counted m -> usable b (heap m) v -> stmtPost (k v m)) ->
  stmtSafe (let* v := eval svalBits e in k v).
Proof.
  intros Hk m Hc. unfold bind. pose proof (eval_safe svalBits e m Hc) as H.
  destruct (eval svalBits e m) as [v m1|f m1|]; [|done|done].
  destruct H as (He & X & U). eapply Hk; [|exact U].
  eapply counted_extends; eauto.
Qed.

(** The same with a second expression. *)
Lemma after_eval2 e1 e2 (k : Value -> Value -> M unit) :
  (forall v1 v2 m b, counted m -> usable b (heap m) v1 -> usable b (heap m) v2 ->
     stmtPost (k v1 v2 m)) ->
  stmtSafe (let* v1 := eval svalBits e1 in let* v2 := eval svalBits e2 in k v1 v2).
Proof.
  intros Hk m Hc. unfold bind. pose proof (eval_safe svalBits e1 m Hc) as H1.
  destruct (eval svalBits e1 m) as [v1 m1|f m1|]; [|done|done].
  destruct H1 as (He1 & X1 & U1).
  assert (Hc1 : counted m1) by (eapply counted_extends; eauto).
  pose proof (eval_safe svalBits e2 m1 Hc1) as H2.
  destruct (eval svalBits e2 m1) as [v2 m2|f m2|]; [|done|done].
  destruct H2 as (He2 & X2 & U2).
  apply (Hk v1 v2 m2 (length (heap m))).
  - eapply counted_extends; eauto.
  - eapply usable_extends; eauto.
  - eapply usable_mono; [|exact U2]. apply X1.
Qed.

Lemma executePrint_safe v m b :
  counted m -> usable b (heap m) v -> stmtPost (executePrint svalBits v m).
Proof.
  intros Hc U. destruct v as [i|p].
  - cbn. eapply counted_same; eauto.
  - destruct (usable_operand b m (SeqV p) Hc U) as (s & Hs & R).
    rewrite (executePrint_live svalBits m p s Hs R). cbn [stmtPost].
    destruct (Z.eqb_spec (ref s) 0) as [Hz|Hz].
    + eapply counted_insert_free; eauto.
    + eapply (counted_insert_same m _ p s s); eauto.
Qed.

Lemma executePush_safe v1 v2 m b :
  counted m -> usable b (heap m) v1 -> usable b (heap m) v2 ->
  stmtPost (executePush svalBits v1 v2 m).
Proof.
  intros Hc U1 _. destruct v1 as [i1|p]; [cbn; unfold evalError; auto|].
  destruct v2 as [i|p2]; [|cbn; unfold evalError; auto].
  destruct (usable_operand b m (SeqV p) Hc U1) as (s & Hs & R).
  pose proof (executePush_outcome svalBits m p s i Hs R) as H.
  destruct (executePush svalBits (SeqV p) (IntV i) m) as [[] m'|f m'|];
    [|destruct H as [-> _]; unfold stmtPost, evalError; auto|done].
  destruct H as [-> _]. cbn [stmtPost].
  destruct (Z.eqb_spec (ref s) 0) as [Hz|Hz].
  - eapply counted_insert_free; eauto.
  - eapply (counted_insert_same m _ p s (push_back s i)); eauto.
    unfold push_back, store, grown. destruct (_ >=? _); reflexivity.
Qed.

Lemma assignElement_safe n result i m :
  counted m ->
  stmtPost ((run requireIntType i then
             let index := ival svalBits i in
             let* s := lookup n in
             run requireSeqType s then
             let* p := sval s in
             let* sq := getSeq p in
             if ((index <? 0) || (index >=? len sq))%bool
             then reportIndexOutOfBounds
             else putSeq p (mkSequence
                              (<[Z.to_nat index := ival svalBits result]> (seq sq))
                              (cap sq) (ref sq))) m).
Proof.
  intros Hc. destruct i as [i|pi]; [|cbn; unfold evalError; auto].
  cbn [requireIntType isIntType vtype sameType negb]. rewrite bind_ret.
  cbv zeta. unfold bind at 1, lookup at 1.
  destruct (lookupVariable (env m) n) as [x|p] eqn:E; [cbn; unfold evalError; auto|].
  cbn [requireSeqType isSeqType vtype sameType negb sval]. rewrite !bind_ret.
  apply lookupRec_holders in E. destruct (proj1 Hc p) as [sq Hsq]; [lia|].
  rewrite (bind_Ok _ _ _ _ _ (getSeq_live _ _ _ Hsq)).
  destruct (_ || _)%bool; [cbn; unfold evalError; auto|].
  rewrite (putSeq_live _ _ _ _ Hsq). cbn [stmtPost].
  eapply (counted_insert_same m _ p sq);
    [exact Hc|reflexivity|exact Hsq| |reflexivity]. reflexivity.
Qed.

Lemma assignVariable_safe n result m b :
  counted m -> usable b (heap m) result ->
  stmtPost ((run (match result with
                  | SeqV p => grabSequence p
                  | IntV _ => ret tt
                  end) then
             setVariable n result) m).
Proof.
  intros Hc U. destruct result as [i|p].
  - rewrite bind_ret.
    destruct (setVariable_counted n (IntV i) m) as (m' & -> & Hc');
      [now apply countedWith_int|done].
  - destruct U as (s & Hs & _).
    rewrite (bind_Ok _ _ _ _ _ (grabSequence_live _ _ _ Hs)).
    destruct (setVariable_counted n (SeqV p) _ (countedWith_grab m p s Hc Hs))
      as (m' & -> & Hc'). done.
Qed.

Lemma executeAssignment_safe n iexpr expr :
  stmtSafe (executeAssignment svalBits n iexpr expr).
Proof.
  unfold executeAssignment. destruct iexpr as [ie|].
  - apply (after_eval2 expr ie
             (fun result i =>
                run requireIntType i then
                let index := ival svalBits i in
                let* s := lookup n in
                run requireSeqType s then
                let* p := sval s in
                let* sq := getSeq p in
                if ((index <? 0) || (index >=? len sq))%bool
                then reportIndexOutOfBounds
                else putSeq p (mkSequence
                                 (<[Z.to_nat index := ival svalBits result]> (seq sq))
                                 (cap sq) (ref sq)))).
    intros v1 v2 m b Hc _ _. now apply assignElement_safe.
  - apply after_eval. intros v m b Hc U. now apply (assignVariable_safe n v m b).
Qed.

Lemma condition_safe (body : M unit) v m :
  counted m -> stmtSafe body ->
  stmtPost ((run requireIntType v then
             if negb (ival svalBits v =? 0) then body else ret tt) m).
Proof.
  intros Hc Hb. destruct v as [i|p]; [|cbn; unfold evalError; auto].
  cbn [requireIntType isIntType vtype sameType negb]. rewrite bind_ret.
  destruct (negb _); [now apply Hb|done].
Qed.

Lemma then_safe (c1 c2 : M unit) : stmtSafe c1 -> stmtSafe c2 -> stmtSafe (run c1 then c2).
Proof.
  intros H1 H2 m Hc. unfold bind. specialize (H1 m Hc).
  destruct (c1 m) as [[] m1|f m1|]; [|done|done]. now apply H2.
Qed.

Lemma execute_safe fuel stmt : stmtSafe (execute svalBits fuel stmt).
Proof.
  revert stmt. induction fuel as [|fuel IH]; intros stmt; [now intros m _|].
  destruct stmt as [e|l|cond body|cond body|e1 e2|n iexpr expr]; cbn [execute].
  - apply after_eval. apply executePrint_safe.
  - induction l as [|s rest IHl]; [now intros m Hc|]. now apply then_safe.
  - apply after_eval. intros v m b Hc _. now apply condition_safe.
  - apply after_eval. intros v m b Hc _. apply condition_safe; [done|].
    now apply then_safe.
  - apply after_eval2. apply executePush_safe.
  - apply executeAssignment_safe.
Qed.

End Statements.

(** ** The end of the run *)

(** [freeEnvironment] on a list of variables whose blocks are live and
    counted: every block that a variable holds is freed and the others are
    left alone. *)
Lemma releaseAll_counted vl :
  forall m,
    (forall p, 0 < holders vl p ->
       exists s, heap m !! p = Some (Some s) /\ ref s = holders vl p) ->
    exists m',
      releaseAll vl m = Ok tt m' /\
      env m' = env m /\ stdout m' = stdout m /\
      forall p, heap m' !! p =
                if 0 <? holders vl p then Some None else heap m !! p.
Proof.
  induction vl as [|r rest IH]; intros m H.
  - exists m. cbn. auto.
  - cbn [releaseAll holders] in *. destruct (val r) as [i|q] eqn:Ev.
    + rewrite bind_ret. apply IH. intros p Hp. apply H. cbn. lia.
    + pose proof (holders_nonneg rest q) as Hk.
      destruct (H q) as (s & Hs & Hr); [rewrite contrib_same; lia|].
      rewrite contrib_same in Hr.
      assert (L : (q < length (heap m))%nat) by (eapply lookup_lt_Some; eauto).
      erewrite bind_Ok; [|apply (releaseSequence_live m q s Hs); lia].
      destruct (IH (setHeap (<[q := released s]> (heap m)) m))
        as (m' & E & He & Ho & Hh).
      { intros p Hp. machine_simpl. destruct (decide (p = q)) as [->|Hne].
        - rewrite list_lookup_insert_eq by done. unfold released.
          destruct (Z.eqb_spec (ref s) 1); [lia|].
          eexists. split; [reflexivity|]. cbn [ref]. lia.
        - rewrite list_lookup_insert_ne by done.
          destruct (H p) as (x & Hx & Hrx); [rewrite contrib_other by done; lia|].
          rewrite contrib_other in Hrx by done. exists x. split; [done|lia]. }
      exists m'. split; [done|]. split; [done|]. split; [done|].
      intros p. rewrite Hh. machine_simpl.
      destruct (decide (p = q)) as [->|Hne].
      * rewrite contrib_same. rewrite list_lookup_insert_eq by done.
        destruct (Z.ltb_spec 0 (holders rest q)), (Z.ltb_spec 0 (1 + holders rest q));
          try lia; [done|].
        unfold released. destruct (Z.eqb_spec (ref s) 1); [done|lia].
      * rewrite contrib_other by done. rewrite list_lookup_insert_ne by done.
        done.
Qed.

Lemma freeEnvironment_counted m :
  counted m ->
  exists m',
    freeEnvironment m = Ok tt m' /\
    env m' = env m /\ stdout m' = stdout m /\
    forall p, heap m' !! p =
              if 0 <? holders (vlist (env m)) p then Some None else heap m !! p.
Proof.
  intros [Hlive Hcount]. apply releaseAll_counted. intros p Hp.
  destruct (Hlive p Hp) as [s Hs]. exists s. split; [done|]. now apply Hcount.
Qed.

(** ** Failures of the parser *)

(** The failures that [parse.c] can end with. *)
Definition parseError (f : Failure) : Prop :=
  match f with
  | SyntaxError _ | TokenTooLong _ | InvalidStringLiteral _ | InvalidEscape _ _
  | InvalidSingleQuoted _ | Undefined => True
  | TypeMismatch | DivideByZero | IndexOutOfBounds | AssertFailed | Overflow => False
  end.

Definition parseOnly {A} (c : Input -> Res Input A) : Prop :=
  forall fp,
    match c fp with
    | Exit f _ => parseError f
    | _ => True
    end.

Lemma parseOnly_ret {A} (a : A) : parseOnly (ret a).
Proof. now intros fp. Qed.

Lemma parseOnly_syntaxError {A} : parseOnly (@syntaxError A).
Proof. now intros fp. Qed.

Lemma parseOnly_bind {A B} (c : Input -> Res Input A) (k : A -> Input -> Res Input B) :
  parseOnly c -> (forall a, parseOnly (k a)) -> parseOnly (bind c k).
Proof.
  intros Hc Hk fp. unfold bind. specialize (Hc fp).
  destruct (c fp) as [a fp'| |]; [apply Hk|done|done].
Qed.

Lemma scanQuoted_error quote escape len s line f :
  scanQuoted quote escape len s line = inl f -> parseError f.
Proof.
  revert escape len. induction s as [|ch rest IH]; intros escape len H.
  - now simplify_eq/=.
  - cbn [scanQuoted] in H. destruct (_ || _)%bool.
    + unfold quoteStep in H.
      repeat match type of H with
             | (if ?b then _ else _) = _ => destruct b
             | match (if ?b then _ else _) with _ => _ end = _ => destruct b
             end; try (now simplify_eq/=); eauto.
      all: destruct (scanQuoted quote false (S len) rest line) as [f'|[]] eqn:E;
        simplify_eq/=; eauto.
    + repeat match type of H with
             | (if ?b then _ else _) = _ => destruct b
             end; now simplify_eq/=.
Qed.

Lemma parseOnly_parseToken : parseOnly parseToken.
Proof.
  intros fp. unfold parseToken.
  destruct (skipBlanks _ _ _) as [[[ch|] rest] line]; [|done].
  repeat match goal with
         | |- context [if ?b then _ else _] => destruct b
         end.
  - now destruct (scanWhile _ _ _) as [[]|].
  - now destruct (scanWhile _ _ _) as [[]|].
  - destruct (scanQuoted _ _ _ _ _) as [f|[]] eqn:E; [|done].
    eapply scanQuoted_error; eauto.
  - now destruct (scanSymbol _ _).
Qed.

Lemma parseOnly_expectToken : parseOnly expectToken.
Proof.
  intros fp. unfold expectToken. pose proof (parseOnly_parseToken fp) as H.
  now destruct (parseToken fp) as [[tok|] fp'|f fp'|].
Qed.

Lemma parseOnly_requireToken target : parseOnly (requireToken target).
Proof.
  apply parseOnly_bind; [apply parseOnly_expectToken|]. intros tok.
  destruct (streq tok target); [apply parseOnly_ret|apply parseOnly_syntaxError].
Qed.

Lemma parseOnly_lowerString body : parseOnly (lowerString body).
Proof.
  induction body as [|c rest IH]; cbn [lowerString]; [now intros fp|].
  destruct (Ascii.eqb c DQUOTE); [apply parseOnly_ret|].
  destruct (_ =? _); [apply parseOnly_syntaxError|].
  apply parseOnly_bind; [done|]. intros. apply parseOnly_ret.
Qed.

Ltac parseOnly_step :=
  first
    [ apply parseOnly_ret
    | apply parseOnly_syntaxError
    | apply parseOnly_expectToken
    | apply parseOnly_requireToken
    | apply parseOnly_lowerString
    | solve [ auto ]
    | apply parseOnly_bind; [ | intros ? ]
    | match goal with
      | |- parseOnly (if ?b then _ else _) => destruct b
      | |- parseOnly (match ?x with Some _ => _ | None => _ end) => destruct x
      end
    | (intros ?; exact I) ].

Lemma parseOnly_expressions fuel :
  (forall tok, parseOnly (parseExpr fuel tok)) /\
  (forall tok, parseOnly (parseTerm fuel tok)) /\
  (forall left, parseOnly (infixLoop fuel left)) /\
  (forall acc tok, parseOnly (elistLoop fuel acc tok)).
Proof.
  induction fuel as [|fuel (IHe & IHt & IHi & IHl)].
  - repeat split; intros; intros fp; exact I.
  - repeat split; intros.
    + cbn [parseExpr]. repeat parseOnly_step.
    + cbn [parseTerm]. repeat parseOnly_step.
    + cbn [infixLoop]. repeat parseOnly_step.
    + cbn [elistLoop]. repeat parseOnly_step.
Qed.

Lemma parseOnly_blockLoop (ps : string -> Input -> Res Input Stmt) fuel acc :
  (forall tok, parseOnly (ps tok)) -> parseOnly (blockLoop ps fuel acc).
Proof.
  intros Hps. revert acc. induction fuel as [|fuel IH]; intros acc.
  - intros fp. exact I.
  - cbn [blockLoop]. repeat parseOnly_step.
Qed.

Lemma parseOnly_parseStmt fuel tok : parseOnly (parseStmt fuel tok).
Proof.
  revert tok. induction fuel as [|fuel IH]; intros tok.
  - intros fp. exact I.
  - pose proof (parseOnly_expressions fuel) as (IHe & _).
    pose proof (fun acc => parseOnly_blockLoop (parseStmt fuel) fuel acc IH) as IHb.
    cbn [parseStmt]. repeat parseOnly_step.
Qed.

(** ** The whole run *)

(** The parser's part of the loop of [main]: the statements of the program
    in order, each read with the fuel that [mainLoop] gives it.  What the
    parser reads does not depend on what the statements do. *)
Fixpoint parseProgram (fuel : nat) (fp : Input) {struct fuel}
  : Res Input (list Stmt) :=
  match fuel with
  | O => OutOfFuel
  | S fuel =>
      match parseToken fp with
      | Ok (Some tok) fp1 =>
          match parseStmt fuel tok fp1 with
          | Ok stmt fp2 =>
              (let* rest := parseProgram fuel in ret (stmt :: rest)) fp2
          | Exit f fp' => Exit f fp'
          | OutOfFuel => OutOfFuel
          end
      | Ok None fp' => Ok [] fp'
      | Exit f fp' => Exit f fp'
      | OutOfFuel => OutOfFuel
      end
  end.

Lemma parseProgram_error fuel :
  forall fp f fp', parseProgram fuel fp = Exit f fp' -> parseError f.
Proof.
  induction fuel as [|fuel IH]; intros fp f fp' H; [discriminate H|].
  cbn [parseProgram] in H. pose proof (parseOnly_parseToken fp) as Htok.
  destruct (parseToken fp) as [[tok|] fp1|f1 fp1|]; simplify_eq; [|done].
  pose proof (parseOnly_parseStmt fuel tok fp1) as Hstmt.
  destruct (parseStmt fuel tok fp1) as [stmt fp2|f2 fp2|]; simplify_eq; [|done].
  unfold bind in H.
  destruct (parseProgram fuel fp2) as [rest fp3|f3 fp3|] eqn:E; simplify_eq.
  eapply IH; eauto.
Qed.

(** How a run on the input [fp] can end: with the status of [main] once
    every block a variable holds is freed, with an error of the evaluation,
    or with the failure that the parser meets on this input. *)
Definition runPost (fuel : nat) (fp : Input) (r : Res Machine Z) : Prop :=
  match r with
  | Ok status m' =>
      status = EXIT_SUCCESS /\
      (forall p, 0 < holders (vlist (env m')) p -> heap m' !! p = Some None) /\
      (forall p s, heap m' !! p = Some (Some s) -> ref s = 0)
  | Exit f _ => evalError f \/ exists fp', parseProgram fuel fp = Exit f fp'
  | OutOfFuel => True
  end.

Section Runs.

Variable svalBits : nat -> Z.

Lemma mainLoop_safe fuel :
  forall fp m, counted m -> runPost fuel fp (mainLoop svalBits fuel fp m).
Proof.
  induction fuel as [|fuel IH]; intros fp m Hc; [exact I|].
  unfold runPost. cbn [mainLoop parseProgram].
  destruct (parseToken fp) as [[tok|] fp1|f fp1|]; [| |right; now eexists|exact I].
  - destruct (parseStmt fuel tok fp1) as [stmt fp2|f fp2|];
      [|right; now eexists|exact I].
    unfold bind at 1. pose proof (execute_safe svalBits fuel stmt m Hc) as Hex.
    destruct (execute svalBits fuel stmt m) as [[] m1|f m1|];
      [|now left|exact I].
    specialize (IH fp2 m1 Hex).
    destruct (mainLoop svalBits fuel fp2 m1) as [status m'|f m'|];
      [exact IH| |exact I].
    destruct IH as [IH|[fp' IH]]; [now left|]. right. exists fp'.
    unfold bind. now rewrite IH.
  - destruct (freeEnvironment_counted m Hc) as (m' & E & He & _ & Hh).
    unfold bind. rewrite E. cbn. split; [done|]. rewrite He. split.
    + intros p Hp. rewrite Hh. now apply Z.ltb_lt in Hp as ->.
    + intros p s Hs. rewrite Hh in Hs.
      destruct (Z.ltb_spec 0 (holders (vlist (env m)) p)); [done|].
      rewrite (proj2 Hc p s Hs). pose proof (holders_nonneg (vlist (env m)) p). lia.
Qed.

End Runs.

Section ReferenceCounting.

Variable svalBits : nat -> Z.

(** X24.  From a state whose reference counts are exact, evaluating an
    expression leaves every block that existed before exactly as it was: it
    neither frees nor rewrites a sequence that was there, it never reaches a
    freed block or the assertion of [releaseSequence], and the counts are
    exact afterwards.  A sequence it returns is live.  The only ways to stop
    early are the three reports of the evaluator and the two [int]
    operations that the process does not survive: [INT_MIN / -1] and the
    doubling of a capacity past [INT_MAX]. *)
Theorem X24_eval_leaves_existing_sequences e m :
  counted m ->
  match eval svalBits e m with
  | Ok v m' =>
      (forall q, (q < length (heap m))%nat -> heap m' !! q = heap m !! q) /\
      counted m' /\
      (forall p, v = SeqV p -> exists s, heap m' !! p = Some (Some s))
  | Exit f _ =>
      f = TypeMismatch \/ f = DivideByZero \/ f = IndexOutOfBounds \/ f = Overflow
  | OutOfFuel => False
  end.
Proof.
  intros Hc. pose proof (eval_safe svalBits e m Hc) as H.
  destruct (eval svalBits e m) as [v m'|f m'|]; [|exact H|exact H].
  destruct H as (He & X & U). split; [apply X|]. split.
  - eapply counted_extends; eauto.
  - intros p ->. destruct U as (s & Hs & _). eauto.
Qed.

(** X25.  Executing a statement keeps the reference counts exact: when it
    completes, every block held by a variable is live and the count of every
    live block is the number of variables that hold it.  It never reaches a
    freed block or the assertion; it can only stop with one of the three
    reports of the evaluator or at one of the two [int] operations that the
    process does not survive. *)
Theorem X25_execute_keeps_counts_exact fuel stmt m :
  counted m ->
  match execute svalBits fuel stmt m with
  | Ok _ m' => counted m'
  | Exit f _ =>
      f = TypeMismatch \/ f = DivideByZero \/ f = IndexOutOfBounds \/ f = Overflow
  | OutOfFuel => True
  end.
Proof. intros Hc. exact (execute_safe svalBits fuel stmt m Hc). Qed.

(** X26.  With exact counts, [freeEnvironment] succeeds, frees every block
    that some variable holds and leaves all other blocks untouched. *)
Theorem X26_freeEnvironment_frees_held_sequences m :
  counted m ->
  exists m',
    freeEnvironment m = Ok tt m' /\
    env m' = env m /\ stdout m' = stdout m /\
    forall p, heap m' !! p =
              if 0 <? holders (vlist (env m)) p then Some None else heap m !! p.
Proof. apply freeEnvironment_counted. Qed.

(** X27.  Every run: if it ends normally, the status is [EXIT_SUCCESS],
    every sequence that a variable held has been freed, and whatever is still
    allocated has count zero (temporaries that were never released).  If it
    stops early, then either the evaluator stopped it (with one of its three
    reports, or at [INT_MIN / -1] or a capacity beyond [INT_MAX]), or the
    failure is the one that the parser meets on this very text.  So the
    assertion of [releaseSequence] never fails in any run, and on a text
    that the parser reads to its end the run never reaches a freed block. *)
Theorem X27_run_releases_what_variables_hold fuel program :
  match interpret svalBits fuel program with
  | Ok status m' =>
      status = EXIT_SUCCESS /\
      (forall p, 0 < holders (vlist (env m')) p -> heap m' !! p = Some None) /\
      (forall p s, heap m' !! p = Some (Some s) -> ref s = 0)
  | Exit f _ =>
      f <> AssertFailed /\
      ((f = TypeMismatch \/ f = DivideByZero \/ f = IndexOutOfBounds \/ f = Overflow)
       \/ exists fp', parseProgram fuel (mkInput program 1) = Exit f fp')
  | OutOfFuel => True
  end.
Proof.
  unfold interpret.
  assert (Hc : counted (mkMachine makeEnvironment [] EmptyString)).
  { split; [cbn; lia|]. intros p s Hs. cbn in Hs.
    rewrite ?lookup_nil in Hs. discriminate. }
  pose proof (mainLoop_safe svalBits fuel (mkInput program 1) _ Hc) as H.
  destruct (mainLoop _ _ _ _) as [status m'|f m'|]; [exact H| |exact I].
  split; [|exact H]. intros ->. destruct H as [[H|[H|[H|H]]]|[fp' H]]; try done.
  now apply parseProgram_error in H.
Qed.

(** X28.  [&&] and [||] evaluate the right operand only when the left one
    does not decide, and their value is the value of the operand evaluated
    last, not a normalised 0 or 1. *)
Theorem X28_short_circuit e1 e2 m a m1 :
  eval svalBits e1 m = Ok (IntV a) m1 ->
  (a = 0 -> eval svalBits (And e1 e2) m = Ok (IntV 0) m1) /\
  (a <> 0 -> eval svalBits (Or e1 e2) m = Ok (IntV a) m1) /\
  (forall b m2, eval svalBits e2 m1 = Ok (IntV b) m2 ->
     (a <> 0 -> eval svalBits (And e1 e2) m = Ok (IntV b) m2) /\
     (a = 0 -> eval svalBits (Or e1 e2) m = Ok (IntV b) m2)).
Proof.
  intros E1. cbn [eval].
  rewrite !(bind_Ok _ _ _ _ _ E1).
  cbn [requireIntType isIntType vtype sameType negb ival]. rewrite !bind_ret.
  split; [|split].
  - intros ->. reflexivity.
  - intros Ha. apply Z.eqb_neq in Ha. now rewrite Ha.
  - intros b m2 E2. split; intros Ha.
    + apply Z.eqb_neq in Ha. rewrite Ha.
      rewrite (bind_Ok _ _ _ _ _ E2). reflexivity.
    + subst a. cbn [Z.eqb negb]. rewrite (bind_Ok _ _ _ _ _ E2). reflexivity.
Qed.

End ReferenceCounting.

(** ** Bracketed initializers *)

(** The token [tok], already read, with the input [fp] behind it, is the
    start of an operand for [r] that ends in front of [out]. *)
Definition Pending (d : nat) (tok : string) (fp : Input) (r : Expr) (out : Input)
  : Prop :=
  forall fuel, (d <= fuel)%nat -> parseTerm fuel tok fp = Ok r out.

(** The text that closes an initializer, and the text of one more element
    with the comma in front of it. *)
Definition closing (tail : string) : string :=
  String " " (String "]" (String " " tail)).

Definition elementBefore (el : string * Expr) (k : string) : string :=
  String " " (String "," (String " " (fst el +:+ k))).

Definition elementsBefore (more : list (string * Expr)) (k : string) : string :=
  foldr elementBefore k more.

(** The text of an initializer with the first element [w0] and the further
    elements [more]. *)
Definition bracketed (w0 : string) (more : list (string * Expr)) : string :=
  String "[" (String " "
    (w0 +:+ elementsBefore more (String " " (String "]" EmptyString)))).

Lemma operand_pending d w r rest line :
  Operand d w r ->
  exists tok fp,
    expectToken (mkInput (String " " (w +:+ String " " rest)) line) = Ok tok fp /\
    Pending d tok fp r (mkInput (String " " rest) line).
Proof.
  intros H. pose proof (H d rest line (Nat.le_refl d)) as Hd. unfold bind in Hd.
  destruct (expectToken _) as [tok fp| |] eqn:E; [|done|done].
  exists tok, fp. split; [done|]. intros fuel Hfuel.
  specialize (H fuel rest line Hfuel). unfold bind in H. now rewrite E in H.
Qed.

Lemma parseTerm_not_closing fuel tok fp r out :
  parseTerm fuel tok fp = Ok r out -> streq tok "]" = false.
Proof.
  intros H. destruct (streq tok "]") eqn:E; [|done]. exfalso.
  destruct fuel as [|fuel]; [discriminate H|].
  apply streq_true in E. destruct tok as [|c t]; [discriminate E|].
  cbn [c_str] in E. destruct (Ascii.eqb c zero) eqn:Hc; [discriminate E|].
  change (c_str "]") with "]" in E. injection E as -> Et.
  cbn [parseTerm] in H. unfold streq, isIdentifier in H.
  cbn [c_str first] in H. rewrite Et in H. vm_compute in H. discriminate H.
Qed.

Lemma pending_not_closing d tok fp r out :
  Pending d tok fp r out -> streq tok "]" = false.
Proof. intros H. eapply parseTerm_not_closing. apply (H d). lia. Qed.

Lemma parseTerm_bracket fuel fp :
  parseTerm (S fuel) "[" fp =
  (let* currentToken := expectToken in
   let* elist := elistLoop fuel [] currentToken in
   ret (SequenceInitializer elist)) fp.
Proof. reflexivity. Qed.

Lemma elistLoop_S fuel acc currentToken :
  elistLoop (S fuel) acc currentToken =
  if ((length acc <=? MAX_TOKEN)%nat && negb (streq currentToken "]"))%bool then
    let* newExpr := parseExpr fuel currentToken in
    if (MAX_TOKEN <=? length acc)%nat then exit Undefined
    else
      let* currentToken := expectToken in
      if (negb (streq currentToken "]") && negb (streq currentToken ","))%bool
      then syntaxError
      else if negb (streq currentToken "]") then
        let* currentToken := expectToken in
        elistLoop fuel (newExpr :: acc) currentToken
      else elistLoop fuel (newExpr :: acc) currentToken
  else ret (rev acc).
Proof. reflexivity. Qed.

Lemma parseExpr_S fuel tok :
  parseExpr (S fuel) tok = (let* left := parseTerm fuel tok in infixLoop fuel left).
Proof. reflexivity. Qed.

Lemma elistLoop_closing fuel acc fp : elistLoop (S fuel) acc "]" fp = Ok (rev acc) fp.
Proof.
  rewrite elistLoop_S. change (streq "]" "]") with true. cbn [negb].
  now rewrite andb_false_r.
Qed.

(** One turn of the loop that reads the elements: the element that is
    pending is followed by a comma or by the closing bracket. *)
Lemma elistLoop_turn d acc tok fp r f sep k line :
  Pending d tok fp r (mkInput (String " " (String sep (String " " k))) line) ->
  (sep = "," \/ sep = "]")%char ->
  (d <= S f)%nat ->
  (length acc <= MAX_TOKEN)%nat ->
  elistLoop (S (S (S f))) acc tok fp =
  if (MAX_TOKEN <=? length acc)%nat
  then Exit Undefined (mkInput (String sep (String " " k)) line)
  else if Ascii.eqb sep "]"
       then Ok (rev (r :: acc)) (mkInput (String " " k) line)
       else (let* tok' := expectToken in elistLoop (S (S f)) (r :: acc) tok')
              (mkInput (String " " k) line).
Proof.
  intros Hp Hsep Hd Hle. rewrite elistLoop_S.
  rewrite (pending_not_closing _ _ _ _ _ Hp). cbn [negb].
  apply Nat.leb_le in Hle as ->. cbn [andb].
  unfold bind at 1. rewrite parseExpr_S. unfold bind at 1.
  rewrite (Hp (S f) Hd).
  destruct Hsep as [-> | ->].
  - change (infixLoop (S f) r (mkInput (String " " (String "," (String " " k))) line))
      with (Ok (S := Input) r (mkInput (String "," (String " " k)) line)).
    cbv iota. destruct (MAX_TOKEN <=? length acc)%nat; reflexivity.
  - change (infixLoop (S f) r (mkInput (String " " (String "]" (String " " k))) line))
      with (Ok (S := Input) r (mkInput (String "]" (String " " k)) line)).
    cbv iota. destruct (MAX_TOKEN <=? length acc)%nat; [reflexivity|].
    change (Ascii.eqb "]" "]") with true. cbv iota.
    unfold bind at 1.
    change (expectToken (mkInput (String "]" (String " " k)) line))
      with (Ok (S := Input) "]" (mkInput (String " " k) line)).
    cbv iota beta. change (streq "]" "]") with true. cbn [negb andb].
    apply elistLoop_closing.
Qed.

Lemma elementsBefore_append more k tail :
  elementsBefore more k +:+ tail = elementsBefore more (k +:+ tail).
Proof.
  induction more as [|el more IH]; [done|].
  unfold elementsBefore in *. cbn [foldr]. unfold elementBefore at 1 3.
  change (String " " (String "," (String " " ?x)) +:+ tail)
    with (String " " (String "," (String " " (x +:+ tail)))).
  now rewrite append_assoc, IH.
Qed.

(** The elements after the pending one, up to the closing bracket: they are
    all read as long as they fit the array [elist] of [parseTerm]. *)
Lemma elistLoop_elements d more :
  Forall (fun el => Operand d (fst el) (snd el)) more ->
  forall acc tok fp r f tail line,
    Pending d tok fp r (mkInput (elementsBefore more (closing tail)) line) ->
    (length acc + length more < MAX_TOKEN)%nat ->
    (d <= S f)%nat ->
    elistLoop (length more + S (S (S f))) acc tok fp =
    Ok (rev acc ++ r :: map snd more) (mkInput (String " " tail) line).
Proof.
  induction 1 as [|el more Hel _ IH]; intros acc tok fp r f tail line Hp Hlen Hd.
  - cbn [length Nat.add elementsBefore foldr] in *. unfold closing in Hp.
    rewrite (elistLoop_turn d acc tok fp r f "]" tail line Hp) by (auto; lia).
    destruct (Nat.leb_spec MAX_TOKEN (length acc)); [lia|]. reflexivity.
  - cbn [length elementsBefore foldr map] in *. unfold elementBefore at 1 in Hp.
    replace (S (length more) + S (S (S f)))%nat
      with (S (S (S (length more + S f)))) by lia.
    rewrite (elistLoop_turn d acc tok fp r _ "," _ line Hp) by (auto; lia).
    destruct (Nat.leb_spec MAX_TOKEN (length acc)); [lia|].
    change (Ascii.eqb "," "]") with false. cbv iota.
    fold (elementsBefore more (closing tail)).
    destruct more as [|el' more'].
    + cbn [elementsBefore foldr]. unfold closing.
      destruct (operand_pending d (fst el) (snd el)
                  (String "]" (String " " tail)) line Hel) as (tok' & fp' & E & Hp').
      rewrite (bind_Ok _ _ _ _ _ E).
      replace (S (S (length (@nil (string * Expr)) + S f)))
        with (length (@nil (string * Expr)) + S (S (S f)))%nat by (cbn; lia).
      rewrite (IH (r :: acc) tok' fp' (snd el) f tail line Hp')
        by (cbn [length] in *; lia).
      cbn [rev map]. now rewrite <- app_assoc.
    + cbn [elementsBefore foldr]. unfold elementBefore at 1.
      destruct (operand_pending d (fst el) (snd el)
                  (String "," (String " " (fst el' +:+ elementsBefore more' (closing tail))))
                  line Hel) as (tok' & fp' & E & Hp').
      rewrite (bind_Ok _ _ _ _ _ E).
      replace (S (S (length (el' :: more') + S f)))
        with (length (el' :: more') + S (S (S f)))%nat by lia.
      rewrite (IH (r :: acc) tok' fp' (snd el) f tail line Hp')
        by (cbn [length] in *; lia).
      cbn [rev map]. now rewrite <- app_assoc.
Qed.

(** When there are more elements than the array holds, the loop stores one
    past its end. *)
Lemma elistLoop_overflow d more :
  Forall (fun el => Operand d (fst el) (snd el)) more ->
  forall acc tok fp r f tail line,
    Pending d tok fp r (mkInput (elementsBefore more (closing tail)) line) ->
    (length acc <= MAX_TOKEN)%nat ->
    (MAX_TOKEN <= length acc + length more)%nat ->
    (d <= S f)%nat ->
    exists fp',
      elistLoop (length more + S (S (S f))) acc tok fp = Exit Undefined fp'.
Proof.
  induction 1 as [|el more Hel _ IH]; intros acc tok fp r f tail line Hp Hle Hlen Hd.
  - cbn [length Nat.add elementsBefore foldr] in *. unfold closing in Hp.
    rewrite (elistLoop_turn d acc tok fp r f "]" tail line Hp) by (auto; lia).
    destruct (Nat.leb_spec MAX_TOKEN (length acc)); [|lia]. eauto.
  - cbn [length elementsBefore foldr map] in *. unfold elementBefore at 1 in Hp.
    replace (S (length more) + S (S (S f)))%nat
      with (S (S (S (length more + S f)))) by lia.
    rewrite (elistLoop_turn d acc tok fp r _ "," _ line Hp) by (auto; lia).
    destruct (Nat.leb_spec MAX_TOKEN (length acc)); [eauto|].
    change (Ascii.eqb "," "]") with false. cbv iota.
    fold (elementsBefore more (closing tail)).
    assert (Hk : exists k, elementsBefore more (closing tail) = String " " k).
    { destruct more; cbn [elementsBefore foldr]; unfold closing, elementBefore; eauto. }
    destruct Hk as [k Hk]. rewrite Hk.
    destruct (operand_pending d (fst el) (snd el) k line Hel) as (tok' & fp' & E & Hp').
    rewrite (bind_Ok _ _ _ _ _ E). rewrite <- Hk in Hp'.
    replace (S (S (length more + S f))) with (length more + S (S (S f)))%nat by lia.
    apply (IH (r :: acc) tok' fp' (snd el) f tail line Hp'); cbn [length]; lia.
Qed.

(** X29.  A bracketed list of operands separated by commas is itself an
    operand, for the initializer of those elements in order, as long as
    there are at most [MAX_TOKEN] (1023) elements.  With more elements
    [parseTerm] stores the 1024th one past the end of its array
    [elist[ MAX_TOKEN ]]. *)
Theorem X29_bracketed_initializer d w0 r0 more :
  Operand d w0 r0 ->
  Forall (fun el => Operand d (fst el) (snd el)) more ->
  ((length more < MAX_TOKEN)%nat ->
   Operand (length more + d + 4) (bracketed w0 more)
     (SequenceInitializer (r0 :: map snd more))) /\
  ((MAX_TOKEN <= length more)%nat ->
   forall fuel rest line,
     (length more + d + 4 <= fuel)%nat ->
     exists fp',
       (let* tok := expectToken in parseTerm fuel tok)
         (mkInput (String " " (bracketed w0 more +:+ String " " rest)) line) =
       Exit Undefined fp').
Proof.
  intros H0 Hmore.
  assert (Htext : forall rest,
            bracketed w0 more +:+ String " " rest =
            String "[" (String " " (w0 +:+ elementsBefore more (closing rest)))).
  { intros rest. unfold bracketed, closing.
    change (String "[" (String " " ?x) +:+ String " " rest)
      with (String "[" (String " " (x +:+ String " " rest))).
    now rewrite append_assoc, elementsBefore_append. }
  assert (Hopen : forall x line,
            expectToken (mkInput (String " " (String "[" (String " " x))) line) =
            Ok "[" (mkInput (String " " x) line)) by reflexivity.
  assert (Hk : forall rest, exists k, elementsBefore more (closing rest) = String " " k).
  { intros rest. destruct more; cbn [elementsBefore foldr];
      unfold closing, elementBefore; eauto. }
  split.
  - intros Hlen fuel rest line Hfuel.
    replace fuel with (S (length more + S (S (S (fuel - length more - 4))))) by lia.
    rewrite Htext, (bind_Ok _ _ _ _ _ (Hopen _ _)), parseTerm_bracket.
    destruct (Hk rest) as [k Ek]. rewrite Ek.
    destruct (operand_pending d w0 r0 k line H0) as (tok & fp & E & Hp).
    rewrite (bind_Ok _ _ _ _ _ E). rewrite <- Ek in Hp.
    unfold bind at 1.
    rewrite (elistLoop_elements d more Hmore [] tok fp r0 _ rest line Hp)
      by (cbn [length]; lia).
    reflexivity.
  - intros Hlen fuel rest line Hfuel.
    replace fuel with (S (length more + S (S (S (fuel - length more - 4))))) by lia.
    rewrite Htext, (bind_Ok _ _ _ _ _ (Hopen _ _)), parseTerm_bracket.
    destruct (Hk rest) as [k Ek]. rewrite Ek.
    destruct (operand_pending d w0 r0 k line H0) as (tok & fp & E & Hp).
    rewrite (bind_Ok _ _ _ _ _ E). rewrite <- Ek in Hp.
    destruct (elistLoop_overflow d more Hmore [] tok fp r0
                (fuel - length more - 4) rest line Hp) as [fp' Hov];
      [cbn [length]; lia..|].
    unfold bind at 1. rewrite Hov. eauto.
Qed.

(** ** The operand of [len] *)

Lemma parseTerm_len fuel fp :
  parseTerm (S fuel) "len" fp =
  (let* tok' := expectToken in
   let* len := parseExpr fuel tok' in
   ret (LenExpr len)) fp.
Proof. reflexivity. Qed.

(** X30.  [len] takes a whole expression, not a term: what follows it is
    read by [parseExpr], so every infix operator up to the terminator [t]
    ends up inside the operand of [len].  [len a + b] is the length of
    [a + b]. *)
Theorem X30_len_takes_the_whole_chain d w0 left links fuel tail line t fp' :
  Operand d w0 left ->
  Forall (fun l => Operand d (linkText l) (linkExpr l)) links ->
  (d <= fuel)%nat ->
  (1 <= fuel)%nat ->
  expectToken (mkInput (String " " tail) line) = Ok t fp' ->
  isInfixOperator t = false ->
  isTerminator t = true ->
  parseTerm (S (S (length links + fuel))) "len"
    (mkInput (String " " (w0 +:+ chainBefore links (String " " tail))) line) =
  Ok (LenExpr (fold_left applyLink links left))
     (mkInput (ungetc (first t) (chars fp')) (lineCount fp')).
Proof.
  intros H0 Hlinks Hd Hfuel Ht Hnot Hterm. rewrite parseTerm_len.
  destruct (chainBefore_blank links tail) as [rest Hrest]. rewrite Hrest.
  rewrite (operand_then_expr d w0 left) by (done || lia).
  rewrite <- Hrest. unfold bind at 1.
  rewrite (infixLoop_chain d links Hlinks fuel left tail line Hd).
  destruct fuel as [|fuel]; [lia|]. cbn [infixLoop].
  rewrite (bind_Ok _ _ _ _ _ Ht). rewrite Hnot, Hterm. reflexivity.
Qed.

(** * The further properties at concrete inputs *)

Lemma twoSequences_wellFormed : wellFormedEnv (env twoSequences).
Proof.
  split; [|split; vm_compute; congruence].
  apply NoDup_cons. split; [|apply NoDup_singleton].
  intros H. apply list_elem_of_singleton in H. discriminate H.
Qed.

(** [twoSequences] after [b = 7]: the block of [b] has been freed. *)
Definition afterSet : Machine :=
  mkMachine
    (mkEnvironment [mkVarRec "a" (SeqV 0); mkVarRec "b" (IntV 7)] INIT_CAP)
    [Some (mkSequence [1; 2; 3] INIT_CAP 1); None]
    EmptyString.

Definition blockA : Sequence := mkSequence [1; 2; 3] INIT_CAP 1.
Definition blockB : Sequence := mkSequence [4; 5] INIT_CAP 1.

Lemma X2_lookup_after_set_witness : lookupVariable (env afterSet) "b" = IntV 7.
Proof.
  apply (X2_lookup_after_set "b" (IntV 7) twoSequences afterSet). reflexivity.
Defined.

Lemma X3_set_leaves_other_names_witness :
  lookupVariable (env afterSet) "a" = lookupVariable (env twoSequences) "a".
Proof.
  apply (X3_set_leaves_other_names "b" "a" (IntV 7) twoSequences afterSet).
  - reflexivity.
  - discriminate.
Defined.

Lemma X4_setVariable_keeps_environment_well_formed_witness :
  wellFormedEnv (env afterSet).
Proof.
  apply (X4_setVariable_keeps_environment_well_formed "b" (IntV 7)
           twoSequences afterSet).
  - reflexivity.
  - exact twoSequences_wellFormed.
Defined.

Lemma X5_execute_keeps_environment_well_formed_witness :
  match execute zeroBits 3 (AssignmentStmt "c" None (VariableExpr "a")) twoSequences with
  | Ok _ m' | Exit _ m' => wellFormedEnv (env m')
  | OutOfFuel => True
  end.
Proof.
  apply (X5_execute_keeps_environment_well_formed zeroBits 3
           (AssignmentStmt "c" None (VariableExpr "a")) twoSequences).
  exact twoSequences_wellFormed.
Defined.

Lemma X7_len_of_sequence_witness :
  exists m',
    eval zeroBits (LenExpr (VariableExpr "a")) twoSequences = Ok (IntV 3) m' /\
    (1 <= 1 -> m' = twoSequences) /\
    (1 = 0 -> heap m' = <[0%nat := None]> (heap twoSequences)).
Proof.
  apply (X7_len_of_sequence zeroBits (VariableExpr "a") twoSequences twoSequences
           0 blockA).
  - reflexivity.
  - reflexivity.
  - cbn. lia.
Defined.

Lemma X8_index_of_sequence_witness :
  (0 <= 1 < 3 ->
   exists m' x,
     eval zeroBits (SequenceIndex (VariableExpr "a") (LiteralInt 1)) twoSequences
       = Ok (IntV x) m' /\
     [1; 2; 3] !! Z.to_nat 1 = Some x /\
     (1 <= 1 -> m' = twoSequences)) /\
  (~ 0 <= 1 < 3 ->
   exists m',
     eval zeroBits (SequenceIndex (VariableExpr "a") (LiteralInt 1)) twoSequences
       = Exit IndexOutOfBounds m').
Proof.
  apply (X8_index_of_sequence zeroBits (VariableExpr "a") (LiteralInt 1)
           twoSequences twoSequences twoSequences 0 blockA 1).
  - reflexivity.
  - reflexivity.
  - reflexivity.
  - cbn. lia.
Defined.

Lemma X9_repetition_witness :
  (exists m' r,
     evalMul zeroBits (SeqV 1) (IntV 2) twoSequences = Ok (SeqV 2) m' /\
     evalMul zeroBits (IntV 2) (SeqV 1) twoSequences = Ok (SeqV 2) m' /\
     heap m' !! 2%nat = Some (Some r) /\
     seq r = [4; 5; 4; 5] /\
     len r = Z.max 0 2 * 2 /\
     ref r = 0 /\
     len r <= cap r) /\
  (exists m',
     evalMul zeroBits (SeqV 1) (IntV MAX_CAP) twoSequences = Exit Overflow m' /\
     evalMul zeroBits (IntV MAX_CAP) (SeqV 1) twoSequences = Exit Overflow m').
Proof.
  split.
  - apply (X9_repetition zeroBits twoSequences 1 blockB 2).
    + reflexivity.
    + cbn. lia.
    + vm_compute. discriminate.
  - apply (X9_repetition zeroBits twoSequences 1 blockB MAX_CAP).
    + reflexivity.
    + cbn. lia.
    + vm_compute. reflexivity.
Defined.

Lemma X10_add_sequence_and_integer_witness :
  (exists m' r,
     evalAdd zeroBits (SeqV 1) (IntV 9) twoSequences = Ok (SeqV 2) m' /\
     heap m' !! 2%nat = Some (Some r) /\
     seq r = [4; 5] ++ [9] /\ len r = 2 + 1 /\ ref r = 0 /\ len r <= cap r) /\
  (exists m' r,
     evalAdd zeroBits (IntV 9) (SeqV 1) twoSequences = Ok (SeqV 2) m' /\
     heap m' !! 2%nat = Some (Some r) /\
     seq r = 9 :: [4; 5] /\ len r = 2 + 1 /\ ref r = 0 /\ len r <= cap r).
Proof.
  apply (X10_add_sequence_and_integer zeroBits twoSequences 1 blockB 9).
  - reflexivity.
  - cbn. lia.
  - vm_compute. reflexivity.
Defined.

Lemma X12_push_appends_in_place_witness :
  exists s',
    execute zeroBits 1 (PushStmt (VariableExpr "b") (LiteralInt 6)) twoSequences =
      Ok tt (setHeap (<[1%nat := Some s']> (heap twoSequences)) twoSequences) /\
    seq s' = [4; 5] ++ [6] /\
    ref s' = 1 /\
    (len blockB <= cap blockB -> 0 < cap blockB -> len s' <= cap s').
Proof.
  apply (X12_push_appends_in_place zeroBits (VariableExpr "b") (LiteralInt 6) 0
           twoSequences twoSequences twoSequences 1 blockB 6).
  - reflexivity.
  - reflexivity.
  - reflexivity.
  - cbn. lia.
  - left. vm_compute. reflexivity.
Defined.

Lemma X13_indexed_assignment_overwrites_one_element_witness :
  exists s',
    execute zeroBits 1
      (AssignmentStmt "a" (Some (LiteralInt 1)) (LiteralInt 99)) twoSequences =
      Ok tt (setHeap (<[0%nat := Some s']> (heap twoSequences)) twoSequences) /\
    seq s' !! Z.to_nat 1 = Some 99 /\
    (forall j, j <> Z.to_nat 1 -> seq s' !! j = [1; 2; 3] !! j) /\
    length (seq s') = 3%nat /\
    cap s' = INIT_CAP /\ ref s' = 1.
Proof.
  apply (X13_indexed_assignment_overwrites_one_element zeroBits "a" (LiteralInt 1)
           (LiteralInt 99) 0 twoSequences twoSequences twoSequences 0 blockA 1 99).
  - reflexivity.
  - reflexivity.
  - reflexivity.
  - reflexivity.
  - vm_compute. split; congruence.
Defined.

Lemma X14_indexed_assignment_failures_witness :
  (forall x, lookupVariable (env twoSequences) "a" = IntV x ->
     execute zeroBits 1
       (AssignmentStmt "a" (Some (LiteralInt 7)) (LiteralInt 99)) twoSequences =
     Exit TypeMismatch twoSequences) /\
  (forall p s, lookupVariable (env twoSequences) "a" = SeqV p ->
     heap twoSequences !! p = Some (Some s) ->
     ~ 0 <= 7 < len s ->
     execute zeroBits 1
       (AssignmentStmt "a" (Some (LiteralInt 7)) (LiteralInt 99)) twoSequences =
     Exit IndexOutOfBounds twoSequences).
Proof.
  apply (X14_indexed_assignment_failures zeroBits "a" (LiteralInt 7) (LiteralInt 99)
           0 twoSequences twoSequences twoSequences (IntV 99) 7).
  - reflexivity.
  - reflexivity.
Defined.

Lemma X15_assignment_takes_a_reference_witness :
  exists m',
    execute zeroBits 1 (AssignmentStmt "c" None (VariableExpr "a")) twoSequences
      = Ok tt m' /\
    lookupVariable (env m') "c" = SeqV 0 /\
    heap m' = <[0%nat := Some (mkSequence [1; 2; 3] INIT_CAP (1 + 1))]>
                (heap twoSequences) /\
    stdout m' = stdout twoSequences.
Proof.
  apply (X15_assignment_takes_a_reference zeroBits "c" (VariableExpr "a") 0
           twoSequences twoSequences 0 blockA 0).
  - reflexivity.
  - reflexivity.
  - reflexivity.
Defined.

Lemma X16_reassignment_releases_old_sequence_witness :
  exists m',
    execute zeroBits 1 (AssignmentStmt "b" None (VariableExpr "a")) twoSequences
      = Ok tt m' /\
    lookupVariable (env m') "b" = SeqV 0 /\
    heap m' !! 0%nat = Some (Some (mkSequence [1; 2; 3] INIT_CAP (1 + 1))) /\
    heap m' !! 1%nat =
      Some (if 1 =? 1 then None else Some (mkSequence [4; 5] INIT_CAP (1 - 1))) /\
    (forall j, j <> 0%nat -> j <> 1%nat -> heap m' !! j = heap twoSequences !! j).
Proof.
  apply (X16_reassignment_releases_old_sequence zeroBits "b" (VariableExpr "a") 0
           twoSequences twoSequences 0 blockA 1 blockB).
  - reflexivity.
  - reflexivity.
  - reflexivity.
  - reflexivity.
  - discriminate.
  - cbn. lia.
Defined.

Lemma X17_token_fits_buffer_witness :
  (1 <= String.length "while" <= MAX_TOKEN)%nat.
Proof.
  apply (X17_token_fits_buffer (mkInput "  while (x) " 1) "while"
           (mkInput " (x) " 1)).
  reflexivity.
Defined.

Lemma X18_leading_whitespace_is_skipped_witness :
  parseToken (mkInput (String " " (String NL (String TAB EmptyString)) +:+ "x = 1;") 1) =
  parseToken (mkInput "x = 1;"
                (1 + newlines (String " " (String NL (String TAB EmptyString))))).
Proof.
  apply (X18_leading_whitespace_is_skipped
           (String " " (String NL (String TAB EmptyString))) "x = 1;" 1).
  reflexivity.
Defined.

Lemma X19_comment_is_skipped_witness :
  parseToken (mkInput (String "#" (" a note" +:+ String NL "x = 1;")) 1) =
    parseToken (mkInput "x = 1;" 2) /\
  parseToken (mkInput (String "#" " a note") 1) = Ok None (mkInput EmptyString 1).
Proof.
  apply (X19_comment_is_skipped " a note" "x = 1;" 1). reflexivity.
Defined.

Lemma X20_blank_program_witness :
  interpret zeroBits 1 (String " " (String NL EmptyString)) =
  Ok EXIT_SUCCESS (mkMachine makeEnvironment [] EmptyString).
Proof.
  apply (X20_blank_program zeroBits 0 (String " " (String NL EmptyString))).
  reflexivity.
Defined.

Lemma X21_print_integer_literal_witness :
  interpret zeroBits 4 ("print " +:+ decimal (-12) +:+ ";") =
  Ok EXIT_SUCCESS (mkMachine makeEnvironment [] (decimal (-12))).
Proof. apply (X21_print_integer_literal zeroBits 0 (-12)). lia. Defined.

Lemma X22_print_string_literal_witness :
  interpret zeroBits 4 ("print " +:+ String DQUOTE ("Hi!" +:+ String DQUOTE ";")) =
  Ok EXIT_SUCCESS (mkMachine makeEnvironment [None] "Hi!").
Proof.
  apply (X22_print_string_literal zeroBits 0 "Hi!").
  - reflexivity.
  - vm_compute. lia.
Defined.

Lemma X23_parentheses_group_witness :
  Operand (1 + 1 + 3) "( b + c )" (Add (VariableExpr "b") (VariableExpr "c")).
Proof.
  apply (X23_parentheses_group 1 "b" (VariableExpr "b")
           [mkLink OpAdd "c" (VariableExpr "c")]).
  - apply identifier_operand; reflexivity.
  - repeat constructor. apply identifier_operand; reflexivity.
Defined.

Lemma twoSequences_counted : counted twoSequences.
Proof.
  split.
  - intros [|[|p]] Hp; cbn in *; eauto; lia.
  - intros [|[|p]] s Hs; cbn in *; simplify_eq; reflexivity.
Qed.

Lemma X24_eval_leaves_existing_sequences_witness :
  match eval zeroBits (Add (VariableExpr "a") (VariableExpr "b")) twoSequences with
  | Ok v m' =>
      (forall q, (q < length (heap twoSequences))%nat ->
         heap m' !! q = heap twoSequences !! q) /\
      counted m' /\
      (forall p, v = SeqV p -> exists s, heap m' !! p = Some (Some s))
  | Exit f _ =>
      f = TypeMismatch \/ f = DivideByZero \/ f = IndexOutOfBounds \/ f = Overflow
  | OutOfFuel => False
  end.
Proof.
  apply (X24_eval_leaves_existing_sequences zeroBits
           (Add (VariableExpr "a") (VariableExpr "b")) twoSequences).
  exact twoSequences_counted.
Defined.

Lemma X25_execute_keeps_counts_exact_witness :
  match execute zeroBits 2 (AssignmentStmt "b" None (VariableExpr "a")) twoSequences with
  | Ok _ m' => counted m'
  | Exit f _ =>
      f = TypeMismatch \/ f = DivideByZero \/ f = IndexOutOfBounds \/ f = Overflow
  | OutOfFuel => True
  end.
Proof.
  apply (X25_execute_keeps_counts_exact zeroBits 2
           (AssignmentStmt "b" None (VariableExpr "a")) twoSequences).
  exact twoSequences_counted.
Defined.

Lemma X26_freeEnvironment_frees_held_sequences_witness :
  exists m',
    freeEnvironment twoSequences = Ok tt m' /\
    env m' = env twoSequences /\ stdout m' = stdout twoSequences /\
    forall p, heap m' !! p =
              if 0 <? holders (vlist (env twoSequences)) p then Some None
              else heap twoSequences !! p.
Proof.
  apply (X26_freeEnvironment_frees_held_sequences twoSequences).
  exact twoSequences_counted.
Defined.

Lemma X28_short_circuit_witness :
  (0 = 0 ->
   eval zeroBits (And (LiteralInt 0) (Div (LiteralInt 1) (LiteralInt 0))) twoSequences
     = Ok (IntV 0) twoSequences) /\
  (0 <> 0 ->
   eval zeroBits (Or (LiteralInt 0) (Div (LiteralInt 1) (LiteralInt 0))) twoSequences
     = Ok (IntV 0) twoSequences) /\
  (forall b m2,
     eval zeroBits (Div (LiteralInt 1) (LiteralInt 0)) twoSequences = Ok (IntV b) m2 ->
     (0 <> 0 ->
      eval zeroBits (And (LiteralInt 0) (Div (LiteralInt 1) (LiteralInt 0))) twoSequences
        = Ok (IntV b) m2) /\
     (0 = 0 ->
      eval zeroBits (Or (LiteralInt 0) (Div (LiteralInt 1) (LiteralInt 0))) twoSequences
        = Ok (IntV b) m2)).
Proof.
  apply (X28_short_circuit zeroBits (LiteralInt 0)
           (Div (LiteralInt 1) (LiteralInt 0)) twoSequences 0 twoSequences).
  reflexivity.
Defined.

Lemma X29_bracketed_initializer_witness :
  Operand 6 (bracketed (decimal 1) [(decimal 2, LiteralInt 2)])
    (SequenceInitializer [LiteralInt 1; LiteralInt 2]) /\
  (forall fuel rest line,
     (MAX_TOKEN + 1 + 4 <= fuel)%nat ->
     exists fp',
       (let* tok := expectToken in parseTerm fuel tok)
         (mkInput
            (String " "
               (bracketed (decimal 1) (replicate MAX_TOKEN (decimal 2, LiteralInt 2))
                +:+ String " " rest)) line) =
       Exit Undefined fp').
Proof.
  split.
  - apply (X29_bracketed_initializer 1 (decimal 1) (LiteralInt 1)
             [(decimal 2, LiteralInt 2)]).
    + apply literal_operand. lia.
    + repeat constructor. apply literal_operand. lia.
    + vm_compute. lia.
  - intros fuel rest line Hfuel.
    apply (X29_bracketed_initializer 1 (decimal 1) (LiteralInt 1)
             (replicate MAX_TOKEN (decimal 2, LiteralInt 2))).
    + apply literal_operand. lia.
    + apply Forall_replicate. apply literal_operand. lia.
    + rewrite length_replicate. lia.
    + rewrite length_replicate. exact Hfuel.
Defined.

Lemma X30_len_takes_the_whole_chain_witness :
  parseTerm 4 "len" (mkInput " a + b ;" 1) =
  Ok (LenExpr (Add (VariableExpr "a") (VariableExpr "b"))) (mkInput ";" 1).
Proof.
  apply (X30_len_takes_the_whole_chain 1 "a" (VariableExpr "a")
           [mkLink OpAdd "b" (VariableExpr "b")] 1 ";" 1 ";"
           (mkInput EmptyString 1)).
  - apply identifier_operand; reflexivity.
  - repeat constructor. apply identifier_operand; reflexivity.
  - lia.
  - lia.
  - reflexivity.
  - reflexivity.
  - reflexivity.
Defined.
